(** * validate-light: the field validation engine

    A shallow embedding of the three generations of the library
    (the object-prototype version with [buildObj], the module version
    [src/index.js] with its v0.1.0 build, and the v0.1.1 closure build),
    and the properties of per-field rule evaluation, of the form-level
    decision and of custom check registration.

    Conventions of the embedding.
    - A JavaScript string is a [string]; every [ascii] is read as one
      UTF-16 code unit below 256.  White space is therefore the
      Latin-1 part of the ECMAScript WhiteSpace and LineTerminator sets.
    - The DOM is a store of field nodes addressed by node identifiers,
      so that the live field list of the form and a list captured
      earlier alias the same nodes.
    - [throw] is an outcome of the state monad [M]; the state reached
      when the exception is raised is kept, as in JavaScript.
    - Checker functions supplied by the page are pure: they are
      functions of their three arguments and only their truthiness is
      kept.  A supplied regular expression is the predicate computed by
      its [test] method (the [lastIndex] cursor of the [g] and [y] flags
      is outside the embedding).  Dispatched events are recorded; their
      listeners do not write to the page.
    - [getAttribute] lower-cases a name the way the DOM does, ASCII
      letters only; [toLowerCase] and [toUpperCase] map the Latin-1
      letters too, and [toUpperCase] is partial where the result leaves
      Latin-1.
    - The [name] of a control is its [name] attribute.  Field names are
      free of quotes, backslashes and line breaks, so that the selector
      [input[name=...]:checked] built from one selects by that name,
      and no control is named [submit], so that [form.submit] is the
      method.
    - The [innerHTML] of an error block is the string assigned to it.
      Messages are free of markup: displaying one adds no element to
      the form.
    - An error block is looked up by the container it was appended
      to; containers are not nested. *)

From Stdlib Require Import Ascii NArith.
From stdpp Require Import base option list gmap strings fin_maps.

(** ** Strings *)

Module Str.

Definition code (c : ascii) : N := N_of_ascii c.

(** White space as [String.prototype.trim] and the [\s] class see it. *)
Definition isWhiteSpace (c : ascii) : bool :=
  let n := code c in
  ((9 <=? n) && (n <=? 13) || (n =? 32) || (n =? 160))%N.

Definition isEmpty (s : string) : bool :=
  match s with EmptyString => true | String _ _ => false end.

Fixpoint trimStart (s : string) : string :=
  match s with
  | EmptyString => EmptyString
  | String c r => if isWhiteSpace c then trimStart r else s
  end.

Fixpoint trimEnd (s : string) : string :=
  match s with
  | EmptyString => EmptyString
  | String c r =>
      let r' := trimEnd r in
      if isWhiteSpace c && isEmpty r' then EmptyString else String c r'
  end.

(** [value.trim()] *)
Definition trim (s : string) : string := trimEnd (trimStart s).

(** [s.split(sep)] for a one-character separator. *)
Fixpoint split (sep : ascii) (s : string) : list string :=
  match s with
  | EmptyString => [EmptyString]
  | String c r =>
      if decide (c = sep) then EmptyString :: split sep r
      else match split sep r with
           | h :: t => String c h :: t
           | [] => [String c EmptyString]
           end
  end.

Definition isUpper (c : ascii) : bool := ((65 <=? code c) && (code c <=? 90))%N.
Definition isLower (c : ascii) : bool := ((97 <=? code c) && (code c <=? 122))%N.
Definition isDigit (c : ascii) : bool := ((48 <=? code c) && (code c <=? 57))%N.

(** ASCII lower case, which the DOM applies to the attribute names it
    is given: the letters [A] to [Z] only. *)
Definition asciiLowerChar (c : ascii) : ascii :=
  if isUpper c then ascii_of_N (code c + 32) else c.

Fixpoint asciiLowercase (s : string) : string :=
  match s with
  | EmptyString => EmptyString
  | String c r => String (asciiLowerChar c) (asciiLowercase r)
  end.

(** [String.prototype.toLowerCase] and [toUpperCase] on Latin-1 code
    units.  Besides the ASCII letters they map U+00C0 to U+00DE (without
    the sign U+00D7) to U+00E0 to U+00FE (without U+00F7) and back.
    Upper case leaves Latin-1 on two code units, U+00B5 and U+00FF, for
    which [upperChar] answers [None], and makes ["SS"] of U+00DF. *)
Definition isUpperLatin (c : ascii) : bool :=
  (isUpper c || (192 <=? code c) && (code c <=? 222) && negb (code c =? 215))%N.
Definition isLowerLatin (c : ascii) : bool :=
  (isLower c || (224 <=? code c) && (code c <=? 254) && negb (code c =? 247))%N.

Definition lowerChar (c : ascii) : ascii :=
  if isUpperLatin c then ascii_of_N (code c + 32) else c.

Definition upperChar (c : ascii) : option string :=
  if isLowerLatin c then Some (String (ascii_of_N (code c - 32)) EmptyString)
  else if (code c =? 223)%N then Some "SS"
  else if ((code c =? 181) || (code c =? 255))%N then None
  else Some (String c EmptyString).

Fixpoint toLowerCase (s : string) : string :=
  match s with
  | EmptyString => EmptyString
  | String c r => String (lowerChar c) (toLowerCase r)
  end.

Fixpoint toUpperCase (s : string) : option string :=
  match s with
  | EmptyString => Some EmptyString
  | String c r =>
      match upperChar c, toUpperCase r with
      | Some u, Some r' => Some (u +:+ r')
      | _, _ => None
      end
  end.

(** [s.charAt(0)] and [s.substr(1)] *)
Definition charAt0 (s : string) : string :=
  match s with EmptyString => EmptyString | String c _ => String c EmptyString end.
Definition substr1 (s : string) : string :=
  match s with EmptyString => EmptyString | String _ r => r end.

End Str.

(** ** Regular expressions

    The two literals of [fieldChecks] are written as syntax trees and
    matched with derivatives.  Both literals are anchored at both ends,
    so [test] is a match of the whole subject. *)

Module Re.

Inductive t : Type :=
| Void
| Eps
| Class (p : ascii → bool)
| Seq (a b : t)
| Alt (a b : t)
| Star (a : t).

Fixpoint nullable (r : t) : bool :=
  match r with
  | Void => false
  | Eps => true
  | Class _ => false
  | Seq a b => nullable a && nullable b
  | Alt a b => nullable a || nullable b
  | Star _ => true
  end.

Fixpoint deriv (c : ascii) (r : t) : t :=
  match r with
  | Void => Void
  | Eps => Void
  | Class p => if p c then Eps else Void
  | Seq a b =>
      if nullable a then Alt (Seq (deriv c a) b) (deriv c b)
      else Seq (deriv c a) b
  | Alt a b => Alt (deriv c a) (deriv c b)
  | Star a => Seq (deriv c a) (Star a)
  end.

Fixpoint matches (r : t) (s : string) : bool :=
  match s with
  | EmptyString => nullable r
  | String c rest => matches (deriv c r) rest
  end.

Definition Chr (c : ascii) : t := Class (λ x, bool_decide (x = c)).
Definition Plus (a : t) : t := Seq a (Star a).
Definition Opt (a : t) : t := Alt Eps a.

(** [a{n}] and [a{n,n+k}] *)
Fixpoint Times (n : nat) (a : t) : t :=
  match n with O => Eps | S n' => Seq a (Times n' a) end.
Fixpoint UpTo (k : nat) (a : t) : t :=
  match k with O => Eps | S k' => Opt (Seq a (UpTo k' a)) end.
Definition Between (n m : nat) (a : t) : t := Seq (Times n a) (UpTo (m - n) a).

Fixpoint oneOf (cs : string) (c : ascii) : bool :=
  match cs with
  | EmptyString => false
  | String x r => bool_decide (c = x) || oneOf r c
  end.

Definition alpha (c : ascii) : bool := Str.isUpper c || Str.isLower c.
Definition alnum (c : ascii) : bool := alpha c || Str.isDigit c.

End Re.

(** What the code holds of a [RegExp] object: its [test] method. *)
Record RegExp := { test : string → bool }.

(** [/^([a-zA-Z0-9._-]+[a-zA-Z0-9]@[a-zA-Z0-9-]+\.[a-zA-Z.]{2,5})$/] *)
Definition emailRegExp : RegExp :=
  {| test := Re.matches
       (Re.Seq (Re.Plus (Re.Class (λ c, Re.alnum c || Re.oneOf "._-" c)))
       (Re.Seq (Re.Class Re.alnum)
       (Re.Seq (Re.Chr "@")
       (Re.Seq (Re.Plus (Re.Class (λ c, Re.alnum c || Re.oneOf "-" c)))
       (Re.Seq (Re.Chr ".")
               (Re.Between 2 5 (Re.Class (λ c, Re.alpha c || Re.oneOf "." c)))))))) |}.

(** [/^\+?[0-9\.#\-\(\)\*\/\s]*$/] *)
Definition telRegExp : RegExp :=
  {| test := Re.matches
       (Re.Seq (Re.Opt (Re.Chr "+"))
               (Re.Star (Re.Class (λ c, Str.isDigit c || Re.oneOf ".#-()*/" c
                                        || Str.isWhiteSpace c)))) |}.

(** ** Check results and the built-in checks *)

Record CheckResult := {
  hasError : bool;
  isEmpty : bool;
  value : option string;   (* [null] is [None] *)
}.

Module fieldChecks.

(** The argument [value] of the source is [raw] here, the name
    [value] being the property of the result. *)
Definition empty (raw : string) : CheckResult :=
  let trimmed := Str.trim raw in
  {| hasError := false;
     isEmpty := Str.isEmpty trimmed;
     value := if Str.isEmpty trimmed then None else Some trimmed |}.

Definition regExp (raw : string) (r : RegExp) : CheckResult :=
  let field := empty raw in
  match field.(value) with
  | None =>
      (* If value is empty *)
      {| hasError := false; isEmpty := true; value := field.(value) |}
  | Some v =>
      (* Regular expression check *)
      let regExpResult := r.(test) v in
      if negb regExpResult
      then {| hasError := true; isEmpty := field.(isEmpty); value := field.(value) |}
      else field
  end.

Definition email (raw : string) : CheckResult := regExp raw emailRegExp.
Definition tel (raw : string) : CheckResult := regExp raw telRegExp.

End fieldChecks.

(** ** The document *)

(** What attribute and property reads give: a string, [null]
    ([getAttribute] of an absent attribute) or [undefined] (a [dataset]
    entry or an object property that is absent). *)
Inductive Text := Undefined | Null | Str (s : string).

(** [!!v] *)
Definition truthy (v : Text) : bool :=
  match v with Str s => negb (Str.isEmpty s) | _ => false end.

(** The text a template literal or [+] makes of [v]. *)
Definition toString (v : Text) : string :=
  match v with Undefined => "undefined" | Null => "null" | Str s => s end.

Inductive Tag := input | textarea | select.

#[global] Instance Tag_eq_dec : EqDecision Tag.
Proof. solve_decision. Defined.

(** An element above a field, with its answer to [el.matches(selector)]. *)
Record Element := { elementId : nat; elMatches : string → bool }.

Module Field.
(** One control of the form.  [parents] is the chain of [parentNode]s
    from the control upwards, the document excluded.  Attribute names
    are stored in lower case, as an HTML document keeps them. *)
Record t := {
  tagName : Tag;
  type : string;
  attributes : gmap string string;
  value : string;
  checked : bool;
  id : string;
  classList : list string;
  parents : list Element;
}.

(** The [name] property reflects the [name] attribute: its value, and
    the empty string when the control has none. *)
Definition name (f : t) : string := default EmptyString (f.(attributes) !! "name").

Definition withClassList (cl : list string) (f : t) : t :=
  {| tagName := f.(tagName); type := f.(type); attributes := f.(attributes);
     value := f.(value); checked := f.(checked);
     id := f.(id); classList := cl; parents := f.(parents) |}.
End Field.

(** [DOMTokenList] *)
Module classList.
Definition contains (cl : list string) (c : string) : bool := bool_decide (c ∈ cl).
Definition add (c : string) (cl : list string) : list string :=
  if contains cl c then cl else cl ++ [c].
Definition remove (c : string) (cl : list string) : list string :=
  filter (λ x, x ≠ c) cl.
End classList.

(** [getAttribute]: [None] is [null]. *)
Definition getAttribute (attrs : gmap string string) (name : string) : option string :=
  attrs !! Str.asciiLowercase name.

Definition hasAttribute (attrs : gmap string string) (name : string) : bool :=
  bool_decide (is_Some (attrs !! Str.asciiLowercase name)).

(** [dataset]: the property [p] stands for the attribute [data-] followed
    by [p] with every upper-case letter replaced by a hyphen and its
    lower-case form; a property name with a hyphen before a lower-case
    letter stands for no attribute.  [None] is [undefined]. *)
Fixpoint hyphenate (p : string) : string :=
  match p with
  | EmptyString => EmptyString
  | String c r =>
      if Str.isUpper c then String "-" (String (Str.asciiLowerChar c) (hyphenate r))
      else String c (hyphenate r)
  end.

Fixpoint hyphenLower (p : string) : bool :=
  match p with
  | EmptyString => false
  | String c r =>
      match r with
      | String d _ => (bool_decide (c = "-"%char) && Str.isLower d) || hyphenLower r
      | EmptyString => false
      end
  end.

Definition dataset (attrs : gmap string string) (p : string) : option string :=
  if hyphenLower p then None else attrs !! ("data-" +:+ hyphenate p).

Definition orNull (o : option string) : Text :=
  match o with Some v => Str v | None => Null end.

Definition orUndefined (o : option string) : Text :=
  match o with Some v => Str v | None => Undefined end.

(** The element [closest] of the source: the nearest ancestor that
    matches the selector, [null] when none does. *)
Fixpoint closest (chain : list Element) (selector : string) : option nat :=
  match chain with
  | [] => None
  | el :: rest =>
      if el.(elMatches) selector then Some el.(elementId) else closest rest selector
  end.

Record ErrorBlock := { blockClasses : list string; innerHTML : string }.

(** ** Checkers and the plugin state *)

(** The closures [setFieldCheck] stores in [customChecks]. *)
Inductive Checker :=
| RegExpChecker (check : RegExp)
| FunctionChecker (check : string → Field.t → list string → bool).

Definition callChecker (c : Checker) (raw : string) (field : Field.t)
    (config : list string) : CheckResult :=
  match c with
  | RegExpChecker check => fieldChecks.regExp raw check
  | FunctionChecker check =>
      let result := fieldChecks.empty raw in
      {| hasError := negb (check raw field config);
         isEmpty := result.(isEmpty);
         value := result.(value) |}
  end.

(** The parameters of an instance.  The two class names are taken to be
    valid tokens (not empty, without white space), as [classList]
    requires. *)
Record Params := {
  validateOnBlur : bool;
  validateOnSubmit : bool;
  formBlockSelector : string;
  errorBlockClass : string;
  validClass : string;
  invalidClass : string;
}.

Definition defaultParams : Params :=
  {| validateOnBlur := true;
     validateOnSubmit := true;
     formBlockSelector := ".form__group";
     errorBlockClass := "form__error-block";
     validClass := "is-valid";
     invalidClass := "is-invalid" |}.

(** The form, its document and the plugin instance attached to it.
    - [nodes] is the store of the controls; [formControls] is what
      [form.querySelectorAll('input, textarea, select')] returns now, in
      document order.
    - [errorBlocks] gives, for a container, its first descendant with
      the class [form__error-block], when it has one.
    - [timers] are the pending [setTimeout] callbacks of [showError],
      [dispatched] the events dispatched so far with their targets, and
      [submits] counts the calls of [form.submit()].
    - [fields] is the stored field list ([form.fields],
      [self.formFields], or the variable [fields] of the closure build);
      [messages] and [customChecks] are the two objects of the instance,
      [customChecks] in the order [for ... in] enumerates it. *)
Record State := {
  nodes : gmap nat Field.t;
  formControls : list nat;
  formAttributes : gmap string string;
  errorBlocks : gmap nat ErrorBlock;
  timers : list nat;
  dispatched : list (nat * string);
  submits : nat;
  fields : list nat;
  messages : gmap string Text;
  customChecks : list (string * Checker);
}.

Definition setNodes (x : gmap nat Field.t) (s : State) : State :=
  {| nodes := x; formControls := s.(formControls);
     formAttributes := s.(formAttributes); errorBlocks := s.(errorBlocks);
     timers := s.(timers); dispatched := s.(dispatched); submits := s.(submits);
     fields := s.(fields); messages := s.(messages);
     customChecks := s.(customChecks) |}.

Definition setFormControls (x : list nat) (s : State) : State :=
  {| nodes := s.(nodes); formControls := x;
     formAttributes := s.(formAttributes); errorBlocks := s.(errorBlocks);
     timers := s.(timers); dispatched := s.(dispatched); submits := s.(submits);
     fields := s.(fields); messages := s.(messages);
     customChecks := s.(customChecks) |}.

Definition setFormAttributes (x : gmap string string) (s : State) : State :=
  {| nodes := s.(nodes); formControls := s.(formControls);
     formAttributes := x; errorBlocks := s.(errorBlocks);
     timers := s.(timers); dispatched := s.(dispatched); submits := s.(submits);
     fields := s.(fields); messages := s.(messages);
     customChecks := s.(customChecks) |}.

Definition setErrorBlocks (x : gmap nat ErrorBlock) (s : State) : State :=
  {| nodes := s.(nodes); formControls := s.(formControls);
     formAttributes := s.(formAttributes); errorBlocks := x;
     timers := s.(timers); dispatched := s.(dispatched); submits := s.(submits);
     fields := s.(fields); messages := s.(messages);
     customChecks := s.(customChecks) |}.

Definition setTimers (x : list nat) (s : State) : State :=
  {| nodes := s.(nodes); formControls := s.(formControls);
     formAttributes := s.(formAttributes); errorBlocks := s.(errorBlocks);
     timers := x; dispatched := s.(dispatched); submits := s.(submits);
     fields := s.(fields); messages := s.(messages);
     customChecks := s.(customChecks) |}.

Definition setDispatched (x : list (nat * string)) (s : State) : State :=
  {| nodes := s.(nodes); formControls := s.(formControls);
     formAttributes := s.(formAttributes); errorBlocks := s.(errorBlocks);
     timers := s.(timers); dispatched := x; submits := s.(submits);
     fields := s.(fields); messages := s.(messages);
     customChecks := s.(customChecks) |}.

Definition setSubmits (x : nat) (s : State) : State :=
  {| nodes := s.(nodes); formControls := s.(formControls);
     formAttributes := s.(formAttributes); errorBlocks := s.(errorBlocks);
     timers := s.(timers); dispatched := s.(dispatched); submits := x;
     fields := s.(fields); messages := s.(messages);
     customChecks := s.(customChecks) |}.

Definition setFields (x : list nat) (s : State) : State :=
  {| nodes := s.(nodes); formControls := s.(formControls);
     formAttributes := s.(formAttributes); errorBlocks := s.(errorBlocks);
     timers := s.(timers); dispatched := s.(dispatched); submits := s.(submits);
     fields := x; messages := s.(messages);
     customChecks := s.(customChecks) |}.

Definition setMessages (x : gmap string Text) (s : State) : State :=
  {| nodes := s.(nodes); formControls := s.(formControls);
     formAttributes := s.(formAttributes); errorBlocks := s.(errorBlocks);
     timers := s.(timers); dispatched := s.(dispatched); submits := s.(submits);
     fields := s.(fields); messages := x;
     customChecks := s.(customChecks) |}.

Definition setCustomChecks (x : list (string * Checker)) (s : State) : State :=
  {| nodes := s.(nodes); formControls := s.(formControls);
     formAttributes := s.(formAttributes); errorBlocks := s.(errorBlocks);
     timers := s.(timers); dispatched := s.(dispatched); submits := s.(submits);
     fields := s.(fields); messages := s.(messages);
     customChecks := x |}.

(** ** Exceptions and state *)

Inductive Error :=
| ConfigError (message : string)   (* [throw new Error(message)] *)
| TypeError.                       (* a property read on [null] *)

Inductive Outcome (A : Type) :=
| Normal (a : A)
| Throw (e : Error).
Arguments Normal {A} a.
Arguments Throw {A} e.

Definition M (A : Type) : Type := State → Outcome A * State.

Definition ret {A} (a : A) : M A := λ s, (Normal a, s).

Definition bind {A B} (c : M A) (k : A → M B) : M B :=
  λ s, match c s with
       | (Normal a, s') => k a s'
       | (Throw e, s') => (Throw e, s')
       end.

Definition throw {A} (e : Error) : M A := λ s, (Throw e, s).
Definition get : M State := λ s, (Normal s, s).
Definition modify (f : State → State) : M unit := λ s, (Normal tt, f s).

Declare Scope js_scope.
Delimit Scope js_scope with js.
Notation "x <- c ;; k" := (bind c (λ x, k))
  (at level 100, c at next level, k at level 200, right associativity) : js_scope.
Notation "c ;;; k" := (bind c (λ _, k))
  (at level 100, k at level 200, right associativity) : js_scope.
Local Open Scope js_scope.

(** [Array.prototype.every] with a callback that has effects. *)
Fixpoint every {A} (callback : A → M bool) (l : list A) : M bool :=
  match l with
  | [] => ret true
  | x :: rest =>
      b <- callback x ;;
      if b then every callback rest else ret false
  end.

(** [forEachNode] of the object-prototype version, together with the
    variable [result] its callback assigns: the callback of [validate]
    sets [result] to the verdict of the field and returns ["break"]
    exactly when the verdict is [false]. *)
Fixpoint forEachNode (nodeList : list nat) (todo : nat → M bool) (result : bool)
    : M bool :=
  match nodeList with
  | [] => ret result
  | el :: rest =>
      fieldResult <- todo el ;;
      if fieldResult then forEachNode rest todo true else ret false
  end.

(** ** Own properties of [customChecks] in enumeration order

    [for (k in o)] visits the array-index keys in ascending order and
    then the other string keys in the order of their creation. *)

Fixpoint digitsValue (acc : N) (s : string) : option N :=
  match s with
  | EmptyString => Some acc
  | String c r =>
      if Str.isDigit c then digitsValue (acc * 10 + (Str.code c - 48)) r else None
  end.

Definition arrayIndex (k : string) : option N :=
  match k with
  | EmptyString => None
  | String c r =>
      if bool_decide (c = "0"%char) && negb (Str.isEmpty r) then None
      else match digitsValue 0 k with
           | Some n => if (n <? 4294967295)%N then Some n else None
           | None => None
           end
  end.

(** [o[k] = v] (the key [__proto__], which creates no own property, is
    outside the embedding) *)
Fixpoint assign (k : string) (v : Checker) (o : list (string * Checker))
    : list (string * Checker) :=
  match o with
  | [] => [(k, v)]
  | (k', v') :: rest =>
      if decide (k' = k) then (k, v) :: rest
      else match arrayIndex k, arrayIndex k' with
           | Some i, Some j =>
               if (i <? j)%N then (k, v) :: o else (k', v') :: assign k v rest
           | Some _, None => (k, v) :: o
           | None, _ => (k', v') :: assign k v rest
           end
  end.

(** ** The three generations *)

Inductive Generation :=
| ObjectPrototype   (* buildObj, header v1.0.0 *)
| ClosureBuild      (* build of v0.1.1 *)
| ModuleExport.     (* src/index.js and its build, v0.1.0 *)

(** [k.charAt(0).toUpperCase() + k.substr(1).toLowerCase()].  [None]:
    the upper-case form of the first character is outside Latin-1; the
    [dataset] property made of it then stands for no attribute of a page
    whose attribute names are Latin-1 strings. *)
Definition dataName (k : string) : option string :=
  u ← Str.toUpperCase (Str.charAt0 k); Some (u +:+ Str.toLowerCase (Str.substr1 k)).

(** The configuration tokens of rule [k] on a field: [None] is the
    [false] the source stores when the attribute is absent. *)
Definition dataConfig (g : Generation) (field : Field.t) (k : string)
    : option (list string) :=
  match g with
  | ObjectPrototype =>
      Str.split ","
        <$> (n ← dataName k; dataset field.(Field.attributes) ("validate" +:+ n))
  | _ =>
      Str.split "," <$> getAttribute field.(Field.attributes) ("data-validate-" +:+ k)
  end.

(** The message of rule [k] as read from the form tag. *)
Definition formMessage (g : Generation) (form : gmap string string) (k : string)
    : Text :=
  match g with
  | ObjectPrototype => orUndefined (n ← dataName k; dataset form ("msg" +:+ n))
  | _ => orNull (getAttribute form ("data-msg-" +:+ k))
  end.

Definition errorEvent (g : Generation) : string :=
  match g with
  | ObjectPrototype => "validate-light-error"
  | _ => "validate-light:error"
  end.

(** ** UI validation elements *)

Definition nonEmpty (s : string) : bool := negb (Str.isEmpty s).

Definition showError (field : Field.t) (where_ : option nat) (msg : Text)
    (cssClass : string) : M bool :=
  match where_ with
  | None => throw TypeError
  | Some w =>
      s <- get ;;
      let uniqueClass :=
        if nonEmpty field.(Field.id) then field.(Field.id)
        else if nonEmpty (Field.name field) then Field.name field
        else "" in
      let html := "<span>" +:+ toString msg +:+ "</span>" in
      match s.(errorBlocks) !! w with
      | Some errorBlock =>
          modify (setErrorBlocks
            (<[w := {| blockClasses :=
                         classList.remove "is-hidden" errorBlock.(blockClasses);
                       innerHTML := html |}]> s.(errorBlocks))) ;;;
          ret false
      | None =>
          modify (setErrorBlocks
            (<[w := {| blockClasses :=
                         [cssClass; "is-hidden"; cssClass +:+ "--" +:+ uniqueClass];
                       innerHTML := html |}]> s.(errorBlocks))) ;;;
          (* For css transition purposes *)
          modify (λ s', setTimers (s'.(timers) ++ [w]) s') ;;;
          ret false
      end
  end.

Definition hideError (errorContainer : option nat) (cssClass : string) : M unit :=
  match errorContainer with
  | None => throw TypeError
  | Some w =>
      s <- get ;;
      match s.(errorBlocks) !! w with
      | Some errorBlock =>
          modify (setErrorBlocks
            (<[w := {| blockClasses :=
                         classList.add "is-hidden" errorBlock.(blockClasses);
                       innerHTML := errorBlock.(innerHTML) |}]> s.(errorBlocks)))
      | None => ret tt
      end
  end.

(** The callback of a pending timer of [showError]. *)
Definition runTimer (w : nat) (s : State) : State :=
  setErrorBlocks
    (alter (λ b, {| blockClasses := classList.remove "is-hidden" b.(blockClasses);
                    innerHTML := b.(innerHTML) |}) w s.(errorBlocks)) s.

Definition alterClassList (fid : nat) (f : list string → list string) : M unit :=
  modify (λ s, setNodes
    (alter (λ n, Field.withClassList (f n.(Field.classList)) n) fid s.(nodes)) s).

Definition dispatchEvent (fid : nat) (type : string) : M unit :=
  modify (λ s, setDispatched (s.(dispatched) ++ [(fid, type)]) s).

(** ** validate *)

Record Candidate := {
  checkCondition : bool;
  validationType : bool;
  msg : Text;
}.

Definition message (s : State) (k : string) : Text :=
  default Undefined (s.(messages) !! k).

(** [form.querySelector('input[name="' + name + '"]:checked')], as a
    truth value: some checked check box or radio button of the form
    carries the attribute [name] with this value (a control without the
    attribute matches no name).  Field names are taken to be free of
    quotes, backslashes and line breaks, with which the selector would
    not say this. *)
Definition checkedInput (s : State) (name : string) : bool :=
  existsb (λ i,
    match s.(nodes) !! i with
    | Some n =>
        bool_decide (n.(Field.tagName) = input)
        && (bool_decide (n.(Field.type) = "checkbox")
            || bool_decide (n.(Field.type) = "radio"))
        && bool_decide (n.(Field.attributes) !! "name" = Some name)
        && n.(Field.checked)
    | None => false
    end) s.(formControls).

(** The five entries of the array literal [validationConfig]. *)
Definition builtinConfig (s : State) (field : Field.t) : list Candidate :=
  let required := hasAttribute field.(Field.attributes) "required" in
  let type := field.(Field.type) in
  [ {| checkCondition := negb (bool_decide (type = "checkbox")) && required;
       validationType := (fieldChecks.empty field.(Field.value)).(isEmpty);
       msg := message s "required" |};
    {| checkCondition := bool_decide (type = "email");
       validationType := (fieldChecks.email field.(Field.value)).(hasError);
       msg := message s "email" |};
    {| checkCondition := bool_decide (type = "tel");
       validationType := (fieldChecks.tel field.(Field.value)).(hasError);
       msg := message s "tel" |};
    {| checkCondition := bool_decide (type = "checkbox") && required;
       validationType := negb field.(Field.checked);
       msg := message s "required" |};
    {| checkCondition := bool_decide (type = "radio") && required;
       validationType := negb (checkedInput s (Field.name field));
       msg := message s "required" |} ].

Definition dquote : string := String (ascii_of_N 34) EmptyString.

Definition missingMessage (k : string) : Error :=
  ConfigError ("ValidateLight - You must define an error message for your new "
               +:+ dquote +:+ k +:+ dquote
               +:+ " validation rule. Set it on the form tag adding the data-msg-"
               +:+ k +:+ " attribute").

(** The entry the loop pushes for rule [k]. *)
Definition customCandidate (g : Generation) (field : Field.t) (k : string)
    (checker : Checker) (m : Text) : Candidate :=
  let config := dataConfig g field k in
  {| checkCondition := bool_decide (is_Some config);
     validationType :=
       match config with
       | None => false
       | Some cfg =>
           if (callChecker checker field.(Field.value) field cfg).(isEmpty)
           then false
           else (callChecker checker field.(Field.value) field cfg).(hasError)
       end;
     msg := m |}.

(** The loop over [customChecks]; it returns the entries it pushes. *)
Fixpoint customLoop (g : Generation) (field : Field.t)
    (checks : list (string * Checker)) : M (list Candidate) :=
  match checks with
  | [] => ret []
  | (k, checker) :: rest =>
      s <- get ;;
      modify (setMessages (<[k := formMessage g s.(formAttributes) k]> s.(messages))) ;;;
      s <- get ;;
      if negb (truthy (message s k)) then throw (missingMessage k)
      else
        pushed <- customLoop g field rest ;;
        ret (customCandidate g field k checker (message s k) :: pushed)
  end.

(** The callback of [validationConfig.every]. *)
Definition checkElem (g : Generation) (p : Params) (fid : nat) (field : Field.t)
    (elem : Candidate) : M bool :=
  if elem.(checkCondition) then
    let formGroup := closest field.(Field.parents) p.(formBlockSelector) in
    if elem.(validationType) then
      alterClassList fid (classList.remove p.(validClass)) ;;;
      alterClassList fid (classList.add p.(invalidClass)) ;;;
      _ <- showError field formGroup elem.(msg) "form__error-block" ;;
      dispatchEvent fid (errorEvent g) ;;;
      ret false
    else
      alterClassList fid (classList.remove "is-invalid") ;;;
      (if nonEmpty field.(Field.value)
       then alterClassList fid (classList.add "is-valid")
       else alterClassList fid (classList.remove "is-valid")) ;;;
      hideError formGroup "form__error-block" ;;;
      ret true
  else ret true.

(** The callback applied to each field: [field] is the node as it is
    when the callback starts; nothing before the walk writes to it. *)
Definition validateField (g : Generation) (p : Params) (fid : nat) : M bool :=
  s <- get ;;
  match s.(nodes) !! fid with
  | None => throw TypeError
  | Some field =>
      let validationConfig := builtinConfig s field in
      pushed <- customLoop g field s.(customChecks) ;;
      every (checkElem g p fid field) (validationConfig ++ pushed)
  end.

Definition submit : M unit := modify (λ s, setSubmits (S s.(submits)) s).

(** [validate] of each generation: the module version and the
    object-prototype version query the form first; the closure build
    iterates the list its [builder] stored. *)
Definition validate (g : Generation) (p : Params) : M unit :=
  match g with
  | ModuleExport =>
      modify (λ s, setFields s.(formControls) s) ;;;
      s <- get ;;
      result <- every (validateField g p) s.(fields) ;;
      if result then submit else ret tt
  | ClosureBuild =>
      s <- get ;;
      result <- every (validateField g p) s.(fields) ;;
      if result then submit else ret tt
  | ObjectPrototype =>
      modify (λ s, setFields s.(formControls) s) ;;;
      s <- get ;;
      result <- forEachNode s.(fields) (validateField g p) true ;;
      if result then submit else ret tt
  end.

(** ** setFieldCheck *)

(** The values [setFieldCheck] can be called with. *)
Inductive JsValue :=
| JsUndefined
| JsNull
| JsBoolean (b : bool)
| JsNumber (n : Z)
| JsString (s : string)
| JsRegExp (r : RegExp)
| JsFunction (f : string → Field.t → list string → bool)
| JsObject.

Definition invalidArguments : Error :=
  ConfigError "ValidateLight - You must define a string name and a method for your new validation rule".

Definition invalidMethod : Error :=
  ConfigError "ValidateLight - Your new validation method is invalid".

Definition setFieldCheck (name check : JsValue) : M unit :=
  match name, check with
  | JsString _, JsUndefined => throw invalidArguments
  | JsString k, JsRegExp r =>
      modify (λ s, setCustomChecks (assign k (RegExpChecker r) s.(customChecks)) s)
  | JsString k, JsFunction f =>
      modify (λ s, setCustomChecks (assign k (FunctionChecker f) s.(customChecks)) s)
  | JsString _, _ => throw invalidMethod
  | _, _ => throw invalidArguments
  end.

(** [typeof name === 'string'], and [check] being a [RegExp] or a
    [Function]. *)
Definition isString (v : JsValue) : bool :=
  match v with JsString _ => true | _ => false end.

Definition usable (v : JsValue) : bool :=
  match v with JsRegExp _ | JsFunction _ => true | _ => false end.

(** ** Construction of an instance

    [builder] (or [init]) on a form: the three built-in messages are read
    from the form tag, the registry starts empty, [novalidate] is set,
    and the closure build queries the fields once, here. *)
Definition builder (g : Generation) (s : State) : State :=
  let s1 := setFormAttributes (<["novalidate" := "novalidate"]> s.(formAttributes)) s in
  let s2 := setMessages
    (<["required" := formMessage g s.(formAttributes) "required"]>
      (<["email" := formMessage g s.(formAttributes) "email"]>
        (<["tel" := formMessage g s.(formAttributes) "tel"]> ∅))) s1 in
  let s3 := setCustomChecks [] s2 in
  match g with
  | ClosureBuild => setFields s3.(formControls) s3
  | _ => setFields [] s3
  end.

(** ** What a field evaluation amounts to

    The pure reading of the callback of [validate]: the candidates, the
    first registered rule without a usable message, and the verdict. *)

(** A failing candidate: relevant to the field, and its flag raised. *)
Definition failing (c : Candidate) : bool :=
  c.(checkCondition) && c.(validationType).

(** The first registered rule whose message on the form tag is falsy. *)
Fixpoint firstMissing (g : Generation) (form : gmap string string)
    (checks : list (string * Checker)) : option string :=
  match checks with
  | [] => None
  | (k, _) :: rest =>
      if truthy (formMessage g form k) then firstMissing g form rest else Some k
  end.

(** The messages object after the loop has run over [checks]. *)
Fixpoint fetched (g : Generation) (form : gmap string string)
    (checks : list (string * Checker)) (m : gmap string Text) : gmap string Text :=
  match checks with
  | [] => m
  | (k, _) :: rest =>
      let m' := <[k := formMessage g form k]> m in
      if truthy (formMessage g form k) then fetched g form rest m' else m'
  end.

(** The rule names the loop over [checks] visits: all of them when
    every message is there, and otherwise those up to and including the
    first rule without a message, at which the loop raises. *)
Fixpoint visited (g : Generation) (form : gmap string string)
    (checks : list (string * Checker)) : list string :=
  match checks with
  | [] => []
  | (k, _) :: rest =>
      k :: (if truthy (formMessage g form k) then visited g form rest else [])
  end.

(** The entries the loop pushes when every message is there. *)
Definition pushedConfig (g : Generation) (form : gmap string string)
    (field : Field.t) (checks : list (string * Checker)) : list Candidate :=
  map (λ kc, customCandidate g field kc.1 kc.2 (formMessage g form kc.1)) checks.

Definition customConfig (g : Generation) (s : State) (field : Field.t)
    : list Candidate :=
  pushedConfig g s.(formAttributes) field s.(customChecks).

(** [validationConfig] once the loop has pushed its entries. *)
Definition validationConfig (g : Generation) (s : State) (field : Field.t)
    : list Candidate :=
  builtinConfig s field ++ customConfig g s field.

Definition formGroup (p : Params) (field : Field.t) : option nat :=
  closest field.(Field.parents) p.(formBlockSelector).

Definition span (m : Text) : string := "<span>" +:+ toString m +:+ "</span>".

(** Whether the stored field [i] has a failing candidate. *)
Definition fieldFails (g : Generation) (s : State) (i : nat) : bool :=
  match s.(nodes) !! i with
  | Some field => existsb failing (validationConfig g s field)
  | None => false
  end.

(** The list [validate] iterates. *)
Definition fieldList (g : Generation) (s : State) : list nat :=
  match g with
  | ClosureBuild => s.(fields)
  | _ => s.(formControls)
  end.

(** Whether some candidate is relevant to [field], and the first
    registered rule without a message in state [s]. *)
Definition applicable (g : Generation) (s : State) (field : Field.t) : bool :=
  existsb checkCondition (validationConfig g s field).

Definition missing (g : Generation) (s : State) : option string :=
  firstMissing g s.(formAttributes) s.(customChecks).

(** The invariant of a check result: an empty value is not an error. *)
Definition emptyIsNoError (c : CheckResult) : Prop :=
  c.(isEmpty) = true → c.(hasError) = false.

(** ** Frames

    [evaluates g i w s s'] bounds what the evaluation of the control [i],
    whose container is [w], may change between [s] and [s']: the class
    list of [i], the error block of [w], the pending timers, the events
    dispatched on [i], and the messages of registered rules. *)
Definition strip (f : Field.t) : Field.t := Field.withClassList [] f.

Definition refetched (g : Generation) (s s' : State) : Prop :=
  ∀ k, s'.(messages) !! k = s.(messages) !! k
       ∨ (k ∈ s.(customChecks).*1
          ∧ s'.(messages) !! k = Some (formMessage g s.(formAttributes) k)).

Record evaluates (g : Generation) (i : nat) (w : option nat) (s s' : State)
    : Prop := {
  ev_nodes : ∀ j, j ≠ i → s'.(nodes) !! j = s.(nodes) !! j;
  ev_node : strip <$> s'.(nodes) !! i = strip <$> s.(nodes) !! i;
  ev_blocks : ∀ j, w ≠ Some j → s'.(errorBlocks) !! j = s.(errorBlocks) !! j;
  ev_controls : s'.(formControls) = s.(formControls);
  ev_attributes : s'.(formAttributes) = s.(formAttributes);
  ev_fields : s'.(fields) = s.(fields);
  ev_checks : s'.(customChecks) = s.(customChecks);
  ev_submits : s'.(submits) = s.(submits);
  ev_messages : refetched g s s';
  ev_dispatched :
    ∃ evs, s'.(dispatched) = s.(dispatched) ++ evs ∧ Forall (λ e, e.1 = i) evs;
}.

(** What the walk leaves behind on a control that passed under a
    relevant rule, and on a control that failed with the candidate [c]. *)
Definition passedLook (i : nat) (field : Field.t) (s' : State) : Prop :=
  ∃ f', s'.(nodes) !! i = Some f'
        ∧ ("is-invalid" ∉ Field.classList f')
        ∧ ("is-valid" ∈ Field.classList f' ↔ field.(Field.value) ≠ EmptyString).

Definition failedLook (g : Generation) (p : Params) (i w : nat) (c : Candidate)
    (s s' : State) : Prop :=
  s'.(dispatched) = s.(dispatched) ++ [(i, errorEvent g)]
  ∧ innerHTML <$> s'.(errorBlocks) !! w = Some (span c.(msg))
  ∧ ∃ f', s'.(nodes) !! i = Some f' ∧ p.(invalidClass) ∈ Field.classList f'.

(** The state once the loop over the registry has read the messages. *)
Definition refreshed (g : Generation) (s : State) : State :=
  setMessages (fetched g s.(formAttributes) s.(customChecks) s.(messages)) s.

(** [touches g l s s']: the same bound for the controls of the list [l]. *)
Record touches (g : Generation) (l : list nat) (s s' : State) : Prop := {
  to_nodes : ∀ j, j ∉ l → s'.(nodes) !! j = s.(nodes) !! j;
  to_node : ∀ j, strip <$> s'.(nodes) !! j = strip <$> s.(nodes) !! j;
  to_controls : s'.(formControls) = s.(formControls);
  to_attributes : s'.(formAttributes) = s.(formAttributes);
  to_fields : s'.(fields) = s.(fields);
  to_checks : s'.(customChecks) = s.(customChecks);
  to_submits : s'.(submits) = s.(submits);
  to_messages : refetched g s s';
  to_dispatched :
    ∃ evs, s'.(dispatched) = s.(dispatched) ++ evs ∧ Forall (λ e, e.1 ∈ l) evs;
}.

(** The controls of [l] are in the document, each inside a container,
    and every registered rule has its message. *)
Definition wellFormed (g : Generation) (p : Params) (s : State) (l : list nat)
    : Prop :=
  missing g s = None
  ∧ ∀ i, i ∈ l → ∃ field, s.(nodes) !! i = Some field ∧ is_Some (formGroup p field).

(** What [validate] needs of the controls of [l] to report on them:
    each is in the document, the controls some rule is relevant to are
    inside a container, and every registered rule has its message. *)
Definition reportable (g : Generation) (p : Params) (s : State) (l : list nat)
    : Prop :=
  missing g s = None
  ∧ ∀ i, i ∈ l → ∃ field, s.(nodes) !! i = Some field
                  ∧ (applicable g s field = true → is_Some (formGroup p field)).

(** The state in which the control after the controls [pre] is
    evaluated, as far as its candidates can tell: the loop over the
    registry has read the messages once a first control has been
    evaluated. *)
Definition reached (g : Generation) (s : State) (pre : list nat) : State :=
  match pre with
  | [] => s
  | _ :: _ => refreshed g s
  end.

(** ** Sample pages

    Concrete forms on which the statements below are exercised. *)

Module Sample.

(** A [.form__group] container with identifier [i]. *)
Definition group (i : nat) : Element :=
  {| elementId := i; elMatches := λ selector, String.eqb selector ".form__group" |}.

(** An [input] of the given type, attributes, value and name, inside
    the container [container]. *)
Definition control (type : string) (attrs : list (string * string))
    (value : string) (name : string) (container : nat) : Field.t :=
  {| Field.tagName := input; Field.type := type;
     Field.attributes := list_to_map (("name", name) :: attrs);
     Field.value := value; Field.checked := false;
     Field.id := "";
     Field.classList := []; Field.parents := [group container] |}.

(** A document with the given controls, numbered from 0 in document
    order, and the given attributes on the form tag; no instance yet. *)
Definition page (controls : list Field.t) (attrs : list (string * string)) : State :=
  {| nodes := list_to_map (imap (λ i f, (i, f)) controls);
     formControls := seq 0 (length controls);
     formAttributes := list_to_map attrs;
     errorBlocks := ∅; timers := []; dispatched := []; submits := 0;
     fields := []; messages := ∅; customChecks := [] |}.

(** The state a computation ends in, and its outcome. *)
Definition after {A} (c : M A) (s : State) : State := (c s).2.
Definition outcome {A} (c : M A) (s : State) : Outcome A := (c s).1.

Definition formTag : list (string * string) :=
  [("data-msg-required", "This field is required");
   ("data-msg-email", "Not an e-mail address");
   ("data-msg-foo", "Not foo")].

Definition letters : RegExp :=
  {| test := Re.matches (Re.Plus (Re.Class Re.alpha)) |}.

Definition never : string → Field.t → list string → bool := λ _ _ _, false.

(** An e-mail control, required, carrying [data-validate-foo], blank. *)
Definition emailRequiredBlank : Field.t :=
  control "email" [("required", ""); ("data-validate-foo", "x")] "" "mail" 10.

(** An optional telephone control whose value is one space (a control
    of this type keeps the spaces of its value). *)
Definition telOptionalSpace : Field.t :=
  control "tel" [] " " "phone" 10.

(** An optional e-mail control carrying [data-validate-foo], blank. *)
Definition emailOptionalBlank : Field.t :=
  control "email" [("data-validate-foo", "x")] "" "mail" 10.

(** A plain text control: not required, no [data-validate-*]. *)
Definition plainText : Field.t := control "text" [] "hello" "note" 11.

(** A required text control with content, and one without. *)
Definition requiredFilled : Field.t := control "text" [("required", "")] "Ada" "first" 12.
Definition requiredBlank : Field.t := control "text" [("required", "")] "" "last" 13.
Definition requiredBlank2 : Field.t := control "text" [("required", "")] "" "city" 14.

(** An instance of generation [g] on a page, with the rule [foo]
    registered as a regular expression. *)
Definition withFoo (g : Generation) (s : State) : State :=
  after (setFieldCheck (JsString "foo") (JsRegExp letters)) (builder g s).

Definition scenario (g : Generation) : State :=
  withFoo g (page [emailRequiredBlank] formTag).


(** A form whose first control passes and whose second and third fail. *)
Definition threeControls (g : Generation) : State :=
  builder g (page [requiredFilled; requiredBlank; requiredBlank2] formTag).

(** A plain text control with no rule, outside every container. *)
Definition looseNote : Field.t :=
  {| Field.tagName := input; Field.type := "text";
     Field.attributes := list_to_map [("name", "memo")];
     Field.value := "hello"; Field.checked := false;
     Field.id := "";
     Field.classList := []; Field.parents := [] |}.

(** A form whose first control passes, whose second has no rule and no
    container, and whose third and fourth fail. *)
Definition fourControls (g : Generation) : State :=
  builder g (page [requiredFilled; looseNote; requiredBlank; requiredBlank2] formTag).

(** A form whose first control passes and whose second fails, the third
    being inside the container of the second. *)
Definition requiredBlank3 : Field.t := control "text" [("required", "")] "" "town" 13.

Definition sharedGroup (g : Generation) : State :=
  builder g (page [requiredFilled; requiredBlank; requiredBlank3] formTag).

(** A control appended to the form by the page after construction. *)
Definition appendControl (f : Field.t) (s : State) : State :=
  let i := length s.(formControls) in
  setFormControls (s.(formControls) ++ [i]) (setNodes (<[i := f]> s.(nodes)) s).

(** An instance built on a form with one valid control, to which a
    required blank control is added afterwards. *)
Definition grownForm (g : Generation) : State :=
  appendControl requiredBlank (builder g (page [requiredFilled] formTag)).

End Sample.

(** * Notions used by the further properties *)

(** ** The language of a regular expression

    The strings a regular expression denotes; the derivative matcher
    [Re.matches] decides them. *)
Inductive lang : Re.t → string → Prop :=
| lang_eps : lang Re.Eps EmptyString
| lang_class p c : p c = true → lang (Re.Class p) (String c EmptyString)
| lang_seq a b s1 s2 : lang a s1 → lang b s2 → lang (Re.Seq a b) (s1 +:+ s2)
| lang_alt_l a b s : lang a s → lang (Re.Alt a b) s
| lang_alt_r a b s : lang b s → lang (Re.Alt a b) s
| lang_star_nil a : lang (Re.Star a) EmptyString
| lang_star_cons a s1 s2 :
    lang a s1 → lang (Re.Star a) s2 → lang (Re.Star a) (s1 +:+ s2).

(** Every character of [s] satisfies [p]. *)
Fixpoint allChars (p : ascii → bool) (s : string) : bool :=
  match s with
  | EmptyString => true
  | String c r => p c && allChars p r
  end.

(** The character classes of the two literals. *)
Definition localChar (c : ascii) : bool := Re.alnum c || Re.oneOf "._-" c.
Definition domainChar (c : ascii) : bool := Re.alnum c || Re.oneOf "-" c.
Definition tailChar (c : ascii) : bool := Re.alpha c || Re.oneOf "." c.
Definition telChar (c : ascii) : bool :=
  Str.isDigit c || Re.oneOf ".#-()*/" c || Str.isWhiteSpace c.

Definition firstChar (s : string) : option ascii :=
  match s with EmptyString => None | String c _ => Some c end.

Fixpoint lastChar (s : string) : option ascii :=
  match s with
  | EmptyString => None
  | String c r => match r with EmptyString => Some c | _ => lastChar r end
  end.

(** The shape of the strings the two literals accept. *)
Definition telShape (v : string) : Prop :=
  allChars telChar v = true
  ∨ ∃ body, v = String "+" body ∧ allChars telChar body = true.

Definition emailShape (v : string) : Prop :=
  ∃ l c d t,
    v = l +:+ String c (String "@" (d +:+ String "." t))
    ∧ l ≠ EmptyString ∧ allChars localChar l = true
    ∧ Re.alnum c = true
    ∧ d ≠ EmptyString ∧ allChars domainChar d = true
    ∧ 2 ≤ String.length t ≤ 5 ∧ allChars tailChar t = true.

(** The class that names the block of a field: its [id], else its
    [name], else nothing. *)
Definition uniqueClass (field : Field.t) : string :=
  if nonEmpty field.(Field.id) then field.(Field.id)
  else if nonEmpty (Field.name field) then Field.name field
  else "".

(** The block [showError] creates, and a block after [classList.remove]
    or [classList.add] of [is-hidden]. *)
Definition newBlock (field : Field.t) (m : Text) (cssClass : string) : ErrorBlock :=
  {| blockClasses := [cssClass; "is-hidden"; cssClass +:+ "--" +:+ uniqueClass field];
     innerHTML := span m |}.

Definition revealed (b : ErrorBlock) : ErrorBlock :=
  {| blockClasses := classList.remove "is-hidden" b.(blockClasses);
     innerHTML := b.(innerHTML) |}.

Definition hidden (b : ErrorBlock) : ErrorBlock :=
  {| blockClasses := classList.add "is-hidden" b.(blockClasses);
     innerHTML := b.(innerHTML) |}.

(** [o[k]]: the checker stored under [k], [None] for [undefined]. *)
Fixpoint lookupCheck (k : string) (o : list (string * Checker)) : option Checker :=
  match o with
  | [] => None
  | (k', c) :: rest => if decide (k' = k) then Some c else lookupCheck k rest
  end.

(** The order in which [for ... in] gives two keys: array indices by
    value, then the other keys. *)
Definition enumeratedBefore (k1 k2 : string) : Prop :=
  match arrayIndex k1, arrayIndex k2 with
  | Some i, Some j => (i ≤ j)%N
  | Some _, None => True
  | None, Some _ => False
  | None, None => True
  end.

(** A registry as an object keeps it: every key once, in enumeration
    order. *)
Inductive wellKept : list (string * Checker) → Prop :=
| wellKept_nil : wellKept []
| wellKept_cons k c o :
    Forall (λ x, x.1 ≠ k ∧ enumeratedBefore k x.1) o →
    wellKept o → wellKept ((k, c) :: o).

(** [tokens.join(sep)] *)
Fixpoint joinWith (sep : ascii) (tokens : list string) : string :=
  match tokens with
  | [] => EmptyString
  | [t] => t
  | t :: rest => t +:+ String sep (joinWith sep rest)
  end.

Fixpoint countChar (x : ascii) (s : string) : nat :=
  match s with
  | EmptyString => 0
  | String c r => (if decide (c = x) then 1 else 0) + countChar x r
  end.

(** What one candidate may do to the class list of the field. *)
Definition classStep (p : Params) (value : string) (elem : Candidate)
    (cl cl' : list string) : Prop :=
  if elem.(checkCondition)
  then if elem.(validationType)
       then cl' = classList.add p.(invalidClass) (classList.remove p.(validClass) cl)
       else cl' = (if nonEmpty value
                   then classList.add "is-valid" (classList.remove "is-invalid" cl)
                   else classList.remove "is-valid" (classList.remove "is-invalid" cl))
  else cl' = cl.

(** Rule names the three generations treat alike: an ASCII letter first,
    no letter that [toLowerCase] changes and ASCII lower case does not
    (U+00C0 to U+00DE), and no hyphen directly before a letter. *)
Definition isLetter (c : ascii) : bool := Str.isUpper c || Str.isLower c.

Definition plainName (k : string) : bool :=
  match k with
  | EmptyString => false
  | String c _ =>
      isLetter c
      && bool_decide (Str.toLowerCase k = Str.asciiLowercase k)
      && negb (hyphenLower (Str.toLowerCase k))
  end.

(** Two states with the same form: the same controls with the same data
    apart from their class lists, the same attributes on the form tag and
    the same registry. *)
Definition sameData (s t : State) : Prop :=
  (∀ j, strip <$> t.(nodes) !! j = strip <$> s.(nodes) !! j)
  ∧ t.(formControls) = s.(formControls)
  ∧ t.(formAttributes) = s.(formAttributes)
  ∧ t.(customChecks) = s.(customChecks).

(** A checker that does not read the class list of the field it is
    given; the checkers made from regular expressions never do. *)
Definition classBlind (c : Checker) : Prop :=
  match c with
  | RegExpChecker _ => True
  | FunctionChecker check =>
      ∀ raw field config cl,
        check raw (Field.withClassList cl field) config = check raw field config
  end.

(** ** The entry point of the module

    [validateLight(element, customParams)] of [src/index.js] and of its
    builds; the object-prototype version has an entry point of its own,
    which is not this function.  The first argument is any value: a
    string, a falsy value that is not a string, or another truthy value,
    of which the function looks at whether it is an [HTMLElement], at
    its [tagName], and at the entries [element[0]] ...
    [element[length - 1]].  [ident] names the element in the page. *)
#[local] Unset Elimination Schemes.
Inductive Target :=
| Falsy
| Selector (s : string)
| Obj (htmlElement : bool) (tagName : string) (ident : nat) (items : list Target).
#[local] Set Elimination Schemes.

(** The builds that have this entry point: the module with its v0.1.0
    build, and the v0.1.1 closure build. *)
Inductive Build := ModuleBuild | Closure.

Definition generation (b : Build) : Generation :=
  match b with ModuleBuild => ModuleExport | Closure => ClosureBuild end.

(** The forms of the page, each with the state of its plugin, and
    [document.querySelectorAll]; [None] is the [SyntaxError] of a
    selector that does not parse. *)
Record Page := {
  formStates : gmap nat State;
  querySelectorAll : string → option (list Target);
}.

Definition setFormStates (x : gmap nat State) (d : Page) : Page :=
  {| formStates := x; querySelectorAll := d.(querySelectorAll) |}.

(** [x instanceof HTMLElement && x.tagName.toUpperCase() === 'FORM'] *)
Definition isForm (x : Target) : bool :=
  match x with
  | Obj true tag _ _ => bool_decide (Str.toUpperCase tag = Some "FORM")
  | _ => false
  end.

Definition identOf (x : Target) : nat :=
  match x with Obj _ _ i _ => i | _ => 0 end.

(** The loop that pushes the forms of a list on [nodeList]. *)
Fixpoint pushForms (elementsList : list Target) (nodeList : list nat) : list nat :=
  match elementsList with
  | [] => nodeList
  | x :: rest => pushForms rest (if isForm x then nodeList ++ [identOf x] else nodeList)
  end.

(** The own properties of [customParams]; [None] is an absent key. *)
Record CustomParams := {
  validateOnBlur' : option bool;
  validateOnSubmit' : option bool;
  formBlockSelector' : option string;
  errorBlockClass' : option string;
  validClass' : option string;
  invalidClass' : option string;
}.

(** [Object.assign({}, defaultParams, customParams)]; [None] is a
    [customParams] that is [undefined]. *)
Definition assignParams (d : Params) (c : option CustomParams) : Params :=
  match c with
  | None => d
  | Some c =>
      {| validateOnBlur := default d.(validateOnBlur) c.(validateOnBlur');
         validateOnSubmit := default d.(validateOnSubmit) c.(validateOnSubmit');
         formBlockSelector := default d.(formBlockSelector) c.(formBlockSelector');
         errorBlockClass := default d.(errorBlockClass) c.(errorBlockClass');
         validClass := default d.(validClass) c.(validClass');
         invalidClass := default d.(invalidClass) c.(invalidClass') |}
  end.

(** What a call gives: the instances, each on its form with its
    parameters, or the [SyntaxError] of [querySelectorAll]. *)
Inductive Launch :=
| SyntaxError
| Instances (forms : list (nat * Params)).

(** The last loop: [builder] on every element of [nodeList]. *)
Fixpoint launch (g : Generation) (p : Params) (nodeList : list nat) (d : Page)
    : list (nat * Params) * Page :=
  match nodeList with
  | [] => ([], d)
  | i :: rest =>
      let d' := setFormStates (alter (builder g) i d.(formStates)) d in
      let (forms, d'') := launch g p rest d' in
      ((i, p) :: forms, d'')
  end.

(** The empty string is falsy: no branch of [init] takes it, and the
    document is not queried. *)
Definition validateLight (b : Build) (element : Target)
    (customParams : option CustomParams) (d : Page) : Launch * Page :=
  let g := generation b in
  let p := assignParams defaultParams customParams in
  if isForm element then
    let (forms, d') := launch g p [identOf element] d in (Instances forms, d')
  else
    match element with
    | Selector s =>
        if Str.isEmpty s then (Instances [], d)
        else
          match d.(querySelectorAll) s with
          | None => (SyntaxError, d)
          | Some elementsList =>
              let (forms, d') := launch g p (pushForms elementsList []) d in
              (Instances forms, d')
          end
    | Obj _ _ _ items =>
        let (forms, d') := launch g p (pushForms items []) d in (Instances forms, d')
    | Falsy => (Instances [], d)
    end.

(** The values the function looks for forms in. *)
Definition candidates (element : Target) (d : Page) : list Target :=
  if isForm element then [element]
  else match element with
       | Selector s =>
           if Str.isEmpty s then [] else default [] (d.(querySelectorAll) s)
       | Obj _ _ _ items => items
       | Falsy => []
       end.

(** The pending timers of [showError] run, in the order they were
    queued. *)
Definition settle (s : State) : State :=
  setTimers [] (foldl (λ s w, runTimer w s) s s.(timers)).

(** The block of the container [w] shows [m], and is visible or about to
    be; the block of [w], if any, is hidden. *)
Definition visibleSoon (w : nat) (m : Text) (s : State) : Prop :=
  ∃ b, s.(errorBlocks) !! w = Some b ∧ innerHTML b = span m
       ∧ ("is-hidden" ∉ blockClasses b ∨ w ∈ s.(timers)).

Definition hiddenNow (w : nat) (s : State) : Prop :=
  ∀ b, s.(errorBlocks) !! w = Some b → "is-hidden" ∈ blockClasses b.

(** * Properties *)

(** ** The built-in checks on sample values *)

Example email_accepts : (fieldChecks.email " john.doe@example.com ").(hasError) = false.
Proof. vm_compute. reflexivity. Qed.

Example email_short_local_part : (fieldChecks.email "a@b.co").(hasError) = true.
Proof. vm_compute. reflexivity. Qed.

Example email_long_tail : (fieldChecks.email "ab@cd.abcdef").(hasError) = true.
Proof. vm_compute. reflexivity. Qed.

Example tel_accepts : (fieldChecks.tel "+39 (02) 123-456").(hasError) = false.
Proof. vm_compute. reflexivity. Qed.

Example tel_rejects : (fieldChecks.tel "12a").(hasError) = true.
Proof. vm_compute. reflexivity. Qed.

Example split_tokens : Str.split "," "a,b," = ["a"; "b"; ""].
Proof. vm_compute. reflexivity. Qed.

(** ** Check results *)

Section CheckResults.

Lemma empty_hasError raw : (fieldChecks.empty raw).(hasError) = false.
Proof. reflexivity. Qed.

Lemma empty_value_isEmpty raw v :
  (fieldChecks.empty raw).(value) = Some v →
  (fieldChecks.empty raw).(isEmpty) = false.
Proof.
  unfold fieldChecks.empty; simpl.
  destruct (Str.isEmpty (Str.trim raw)); [discriminate | reflexivity].
Qed.

Lemma regExp_blank raw r :
  Str.isEmpty (Str.trim raw) = true →
  fieldChecks.regExp raw r = {| hasError := false; isEmpty := true; value := None |}.
Proof.
  intros Hb. unfold fieldChecks.regExp, fieldChecks.empty; simpl.
  rewrite Hb. reflexivity.
Qed.

Lemma regExp_invariant raw r : emptyIsNoError (fieldChecks.regExp raw r).
Proof.
  unfold emptyIsNoError, fieldChecks.regExp.
  destruct (value (fieldChecks.empty raw)) as [v|] eqn:Hv; [|reflexivity].
  destruct (negb (test r v)); cbn [isEmpty hasError].
  - rewrite (empty_value_isEmpty raw v Hv). discriminate.
  - intros _. apply empty_hasError.
Qed.

Lemma callChecker_isEmpty c raw field cfg :
  (callChecker c raw field cfg).(isEmpty) = Str.isEmpty (Str.trim raw).
Proof.
  destruct c as [r|f]; [|reflexivity].
  unfold callChecker, fieldChecks.regExp, fieldChecks.empty; cbn [value isEmpty].
  destruct (Str.isEmpty (Str.trim raw)) eqn:Hb; [reflexivity|].
  destruct (negb (test r (Str.trim raw))); reflexivity.
Qed.

Lemma customCandidate_blank g checker field k m :
  Str.isEmpty (Str.trim field.(Field.value)) = true →
  (customCandidate g field k checker m).(validationType) = false.
Proof.
  intros Hb. unfold customCandidate. cbn [validationType].
  destruct (dataConfig g field k) as [cfg|]; [|reflexivity].
  by rewrite callChecker_isEmpty, Hb.
Qed.

End CheckResults.

(** ** The state monad and the setters *)

Ltac run := unfold bind, modify, get, ret, throw; cbn beta iota.

Lemma setMessages_same s : setMessages s.(messages) s = s.
Proof. destruct s; reflexivity. Qed.

Lemma setFields_same s : setFields s.(fields) s = s.
Proof. destruct s; reflexivity. Qed.

Lemma setMessages_twice m m' s : setMessages m (setMessages m' s) = setMessages m s.
Proof. reflexivity. Qed.

Lemma every_app_true {A} (f : A → M bool) l1 l2 s s1 :
  every f l1 s = (Normal true, s1) → every f (l1 ++ l2) s = every f l2 s1.
Proof.
  revert s. induction l1 as [|x l1 IH]; intros s H; simpl in *.
  - unfold ret in H. by simplify_eq.
  - unfold bind in *. destruct (f x s) as [[[]|e] s2]; try discriminate.
    by apply IH.
Qed.

(** The loop with ["break"] and the variable [result] is [every]. *)
Lemma forEachNode_every l todo b s :
  forEachNode l todo b s = if l is [] then (Normal b, s) else every todo l s.
Proof.
  revert b s. induction l as [|x l IH]; intros b s; [reflexivity|].
  simpl. unfold bind. destruct (todo x s) as [[[]|e] s1]; try reflexivity.
  rewrite IH. destruct l; reflexivity.
Qed.

(** ** The loop over the registry *)

Lemma firstMissing_None g form checks :
  firstMissing g form checks = None ↔
  ∀ k, k ∈ checks.*1 → truthy (formMessage g form k) = true.
Proof.
  induction checks as [|[k c] rest IH]; simpl.
  - split; [intros _ k Hk; inversion Hk | reflexivity].
  - destruct (truthy (formMessage g form k)) eqn:Hk.
    + rewrite IH. split.
      * intros H k' Hk'. apply elem_of_cons in Hk' as [->|Hk']; auto.
      * intros H k' Hk'. apply H. by right.
    + split; [discriminate|]. intros H.
      rewrite H in Hk; [discriminate | by left].
Qed.

Lemma firstMissing_Some g form checks k :
  firstMissing g form checks = Some k →
  k ∈ checks.*1 ∧ truthy (formMessage g form k) = false.
Proof.
  induction checks as [|[k' c] rest IH]; simpl; [discriminate|].
  destruct (truthy (formMessage g form k')) eqn:Hk.
  - intros H. destruct (IH H) as [? ?]. split; [by right | done].
  - intros [= <-]. split; [by left | done].
Qed.

Lemma fetched_lookup g form checks m k :
  fetched g form checks m !! k = m !! k
  ∨ (k ∈ checks.*1 ∧ fetched g form checks m !! k = Some (formMessage g form k)).
Proof.
  revert m. induction checks as [|[k' c] rest IH]; intros m; simpl; [by left|].
  assert (Hins : <[k' := formMessage g form k']> m !! k = m !! k
          ∨ (k ∈ k' :: rest.*1 ∧ <[k' := formMessage g form k']> m !! k
                                 = Some (formMessage g form k))).
  { destruct (decide (k' = k)) as [->|Hne].
    - right. split; [by left | apply lookup_insert_eq].
    - left. by apply lookup_insert_ne. }
  destruct (truthy (formMessage g form k')); [|exact Hins].
  destruct (IH (<[k' := formMessage g form k']> m)) as [Heq|[Hin Heq]].
  - rewrite Heq. exact Hins.
  - right. split; [by right | done].
Qed.

Lemma message_insert k v m s : message (setMessages (<[k := v]> m) s) k = v.
Proof. unfold message. cbn [messages setMessages]. by rewrite lookup_insert_eq. Qed.

Lemma customLoop_spec g field checks s :
  customLoop g field checks s =
  (match firstMissing g s.(formAttributes) checks with
   | None => Normal (pushedConfig g s.(formAttributes) field checks)
   | Some k => Throw (missingMessage k)
   end,
   setMessages (fetched g s.(formAttributes) checks s.(messages)) s).
Proof.
  revert s. induction checks as [|[k c] rest IH]; intros s.
  - simpl. unfold ret. by rewrite setMessages_same.
  - cbn [customLoop firstMissing fetched pushedConfig map]. run.
    rewrite !message_insert.
    destruct (truthy (formMessage g (formAttributes s) k)) eqn:Hk; cbn [negb].
    + rewrite IH. cbn [formAttributes messages setMessages].
      destruct (firstMissing g (formAttributes s) rest); reflexivity.
    + reflexivity.
Qed.

(** ** Class lists *)

Lemma classList_add_elem c cl : c ∈ classList.add c cl.
Proof.
  unfold classList.add, classList.contains. case_bool_decide; [done|].
  apply elem_of_app. right. by left.
Qed.

Lemma classList_add_other x c cl : x ≠ c → x ∈ classList.add c cl ↔ x ∈ cl.
Proof.
  intros Hne. unfold classList.add, classList.contains. case_bool_decide; [done|].
  rewrite elem_of_app, list_elem_of_singleton. tauto.
Qed.

Lemma classList_remove_elem x c cl : x ∈ classList.remove c cl ↔ x ∈ cl ∧ x ≠ c.
Proof. unfold classList.remove. rewrite list_elem_of_filter. tauto. Qed.

Lemma nonEmpty_spec v : nonEmpty v = true ↔ v ≠ EmptyString.
Proof. destruct v; simpl; split; intros H; first [discriminate | done]. Qed.

(** ** Frames *)

Lemma strip_withClassList cl f : strip (Field.withClassList cl f) = strip f.
Proof. reflexivity. Qed.

Lemma refetched_same g s s' : s'.(messages) = s.(messages) → refetched g s s'.
Proof. intros H k. left. by rewrite H. Qed.

Lemma refetched_refl g s : refetched g s s.
Proof. by apply refetched_same. Qed.

Lemma evaluates_refl g i w s : evaluates g i w s s.
Proof.
  split; try done.
  - apply refetched_refl.
  - exists []. by rewrite app_nil_r.
Qed.

Lemma refetched_trans g s1 s2 s3 :
  s2.(customChecks) = s1.(customChecks) →
  s2.(formAttributes) = s1.(formAttributes) →
  refetched g s1 s2 → refetched g s2 s3 → refetched g s1 s3.
Proof.
  intros Hc Ha H12 H23 k.
  destruct (H23 k) as [->|[Hin ->]]; [apply H12|].
  right. by rewrite <- Hc, <- Ha.
Qed.

Lemma evaluates_trans g i w s1 s2 s3 :
  evaluates g i w s1 s2 → evaluates g i w s2 s3 → evaluates g i w s1 s3.
Proof.
  intros [n1 nd1 b1 c1 a1 f1 k1 sb1 m1 (e1 & d1 & F1)]
         [n2 nd2 b2 c2 a2 f2 k2 sb2 m2 (e2 & d2 & F2)].
  split; try congruence.
  - intros j Hj. rewrite n2 by done. by apply n1.
  - intros j Hj. rewrite b2 by done. by apply b1.
  - eapply refetched_trans; eauto.
  - exists (e1 ++ e2). rewrite d2, d1, app_assoc. split; [done | by apply Forall_app].
Qed.

Lemma evaluates_messages g i w s :
  evaluates g i w s
    (setMessages (fetched g s.(formAttributes) s.(customChecks) s.(messages)) s).
Proof.
  split; try done.
  - intros k. cbn [messages setMessages]. apply fetched_lookup.
  - exists []. by rewrite app_nil_r.
Qed.

Lemma evaluates_classList g i w f s :
  evaluates g i w s
    (setNodes (alter (λ n, Field.withClassList (f n.(Field.classList)) n) i s.(nodes)) s).
Proof.
  split; try done; cbn [nodes setNodes].
  - intros j Hj. by rewrite lookup_alter_ne.
  - rewrite lookup_alter_eq. by destruct (nodes s !! i).
  - by apply refetched_same.
  - exists []. by rewrite app_nil_r.
Qed.

Lemma evaluates_block g i w b s :
  evaluates g i (Some w) s (setErrorBlocks (<[w := b]> s.(errorBlocks)) s).
Proof.
  split; try done; cbn [errorBlocks setErrorBlocks].
  - intros j Hj. rewrite lookup_insert_ne; [done | congruence].
  - by apply refetched_same.
  - exists []. by rewrite app_nil_r.
Qed.

Lemma evaluates_timers g i w t s : evaluates g i w s (setTimers t s).
Proof.
  split; try done.
  - by apply refetched_same.
  - exists []. by rewrite app_nil_r.
Qed.

Lemma evaluates_dispatch g i w type s :
  evaluates g i w s (setDispatched (s.(dispatched) ++ [(i, type)]) s).
Proof.
  split; try done.
  - by apply refetched_same.
  - exists [(i, type)]. split; [done|]. by repeat constructor.
Qed.

Lemma evaluates_weaken g i w s s' : evaluates g i None s s' → evaluates g i w s s'.
Proof.
  intros [n1 nd1 b1 c1 a1 f1 k1 sb1 m1 d1]. split; try done.
  intros j _. by apply b1.
Qed.

Create HintDb frames.
#[local] Hint Resolve evaluates_refl evaluates_messages evaluates_classList
  evaluates_block evaluates_timers evaluates_dispatch : frames.

Ltac chain :=
  repeat first
    [ solve [eauto with frames]
    | eapply evaluates_trans; [| solve [eauto with frames]] ].

(** ** One candidate *)

Lemma bind_normal {A B} (c : M A) (k : A → M B) s a s1 :
  c s = (Normal a, s1) → bind c k s = k a s1.
Proof. intros H. unfold bind. by rewrite H. Qed.

Lemma bind_throw {A B} (c : M A) (k : A → M B) s e s1 :
  c s = (Throw e, s1) → bind c k s = (Throw e, s1).
Proof. intros H. unfold bind. by rewrite H. Qed.

Lemma showError_spec g i field w m cssClass s :
  ∃ s', showError field (Some w) m cssClass s = (Normal false, s')
        ∧ evaluates g i (Some w) s s'
        ∧ s'.(dispatched) = s.(dispatched)
        ∧ s'.(nodes) = s.(nodes)
        ∧ innerHTML <$> s'.(errorBlocks) !! w = Some (span m).
Proof.
  unfold showError. run.
  destruct (errorBlocks s !! w) as [b|]; eexists; (split; [reflexivity|]).
  - split; [chain|]. cbn. by rewrite lookup_insert_eq.
  - split; [chain|]. cbn. by rewrite lookup_insert_eq.
Qed.

Lemma hideError_spec g i w cssClass s :
  ∃ s', hideError (Some w) cssClass s = (Normal tt, s')
        ∧ evaluates g i (Some w) s s'
        ∧ s'.(dispatched) = s.(dispatched)
        ∧ s'.(nodes) = s.(nodes).
Proof.
  unfold hideError. run.
  destruct (errorBlocks s !! w) as [b|]; eexists; (split; [reflexivity|]).
  - split; [chain | done].
  - split; [chain | done].
Qed.

Lemma alterClassList_spec g i w f s :
  ∃ s', alterClassList i f s = (Normal tt, s')
        ∧ evaluates g i w s s'
        ∧ s'.(dispatched) = s.(dispatched)
        ∧ s'.(errorBlocks) = s.(errorBlocks)
        ∧ s'.(nodes) !! i
          = (λ n, Field.withClassList (f n.(Field.classList)) n) <$> s.(nodes) !! i.
Proof.
  eexists. split; [reflexivity|]. split; [chain|].
  cbn. by rewrite lookup_alter_eq.
Qed.

Section OneCandidate.
Variables (g : Generation) (p : Params) (fid : nat) (field : Field.t).

Lemma checkElem_skip elem s :
  elem.(checkCondition) = false →
  checkElem g p fid field elem s = (Normal true, s).
Proof. intros H. unfold checkElem. by rewrite H. Qed.

Lemma checkElem_nogroup elem s :
  elem.(checkCondition) = true → formGroup p field = None →
  ∃ s', checkElem g p fid field elem s = (Throw TypeError, s')
        ∧ evaluates g fid None s s'.
Proof.
  intros Hc Hg. unfold checkElem, formGroup in *. rewrite Hc, Hg.
  destruct (validationType elem).
  - destruct (alterClassList_spec g fid None
                (classList.remove (validClass p)) s) as (s1 & E1 & F1 & _).
    destruct (alterClassList_spec g fid None
                (classList.add (invalidClass p)) s1) as (s2 & E2 & F2 & _).
    exists s2. split; [|by eapply evaluates_trans].
    rewrite (bind_normal _ _ _ _ _ E1), (bind_normal _ _ _ _ _ E2).
    reflexivity.
  - destruct (alterClassList_spec g fid None
                (classList.remove "is-invalid") s) as (s1 & E1 & F1 & _).
    assert (∃ s2, (if nonEmpty (Field.value field)
                   then alterClassList fid (classList.add "is-valid")
                   else alterClassList fid (classList.remove "is-valid")) s1
                  = (Normal tt, s2) ∧ evaluates g fid None s1 s2)
      as (s2 & E2 & F2).
    { destruct (nonEmpty (Field.value field));
        (eexists; split; [reflexivity | chain]). }
    exists s2. split; [|by eapply evaluates_trans].
    rewrite (bind_normal _ _ _ _ _ E1), (bind_normal _ _ _ _ _ E2).
    reflexivity.
Qed.

Lemma checkElem_fail elem w s :
  elem.(checkCondition) = true → formGroup p field = Some w →
  elem.(validationType) = true →
  ∃ s', checkElem g p fid field elem s = (Normal false, s')
        ∧ evaluates g fid (Some w) s s'
        ∧ s'.(dispatched) = s.(dispatched) ++ [(fid, errorEvent g)]
        ∧ innerHTML <$> s'.(errorBlocks) !! w = Some (span elem.(msg))
        ∧ (∀ f, s.(nodes) !! fid = Some f →
             ∃ f', s'.(nodes) !! fid = Some f'
                   ∧ p.(invalidClass) ∈ f'.(Field.classList)).
Proof.
  intros Hc Hg Hv. unfold checkElem, formGroup in *. rewrite Hc, Hg, Hv.
  destruct (alterClassList_spec g fid (Some w)
              (classList.remove (validClass p)) s) as (s1 & E1 & F1 & D1 & B1 & N1).
  destruct (alterClassList_spec g fid (Some w)
              (classList.add (invalidClass p)) s1) as (s2 & E2 & F2 & D2 & B2 & N2).
  destruct (showError_spec g fid field w (msg elem) "form__error-block" s2)
    as (s3 & E3 & F3 & D3 & N3 & H3).
  eexists. split.
  { rewrite (bind_normal _ _ _ _ _ E1), (bind_normal _ _ _ _ _ E2),
      (bind_normal _ _ _ _ _ E3). reflexivity. }
  cbn [dispatched errorBlocks nodes setDispatched].
  split; [|split; [|split]].
  - eapply evaluates_trans; [|apply evaluates_dispatch].
    eapply evaluates_trans; [|exact F3]. by eapply evaluates_trans.
  - by rewrite D3, D2, D1.
  - exact H3.
  - intros f Hf. rewrite N3, N2, N1, Hf. eexists. split; [reflexivity|].
    cbn. apply classList_add_elem.
Qed.

Lemma checkElem_pass elem w s :
  elem.(checkCondition) = true → formGroup p field = Some w →
  elem.(validationType) = false →
  ∃ s', checkElem g p fid field elem s = (Normal true, s')
        ∧ evaluates g fid (Some w) s s'
        ∧ s'.(dispatched) = s.(dispatched)
        ∧ (∀ f, s.(nodes) !! fid = Some f →
             ∃ f', s'.(nodes) !! fid = Some f'
                   ∧ ("is-invalid" ∉ Field.classList f')
                   ∧ ("is-valid" ∈ Field.classList f'
                      ↔ field.(Field.value) ≠ EmptyString)).
Proof.
  intros Hc Hg Hv. unfold checkElem, formGroup in *. rewrite Hc, Hg, Hv.
  destruct (alterClassList_spec g fid (Some w)
              (classList.remove "is-invalid") s) as (s1 & E1 & F1 & D1 & B1 & N1).
  assert (∃ s2 h, (if nonEmpty (Field.value field)
                   then alterClassList fid (classList.add "is-valid")
                   else alterClassList fid (classList.remove "is-valid")) s1
                  = (Normal tt, s2) ∧ evaluates g fid (Some w) s1 s2
                  ∧ dispatched s2 = dispatched s1
                  ∧ nodes s2 !! fid
                    = (λ n, Field.withClassList (h (Field.classList n)) n)
                        <$> nodes s1 !! fid
                  ∧ (∀ cl, "is-invalid" ∉ cl →
                       ("is-invalid" ∉ h cl)
                       ∧ ("is-valid" ∈ h cl ↔ field.(Field.value) ≠ EmptyString)))
    as (s2 & h & E2 & F2 & D2 & N2 & Hh).
  { destruct (nonEmpty (Field.value field)) eqn:Hne.
    - destruct (alterClassList_spec g fid (Some w)
                  (classList.add "is-valid") s1) as (s2 & E & F & D & _ & N).
      exists s2, (classList.add "is-valid").
      do 4 (split; [done|]). intros cl Hcl. split; [|split].
      + by rewrite classList_add_other.
      + intros _. by apply nonEmpty_spec.
      + intros _. apply classList_add_elem.
    - destruct (alterClassList_spec g fid (Some w)
                  (classList.remove "is-valid") s1) as (s2 & E & F & D & _ & N).
      exists s2, (classList.remove "is-valid").
      do 4 (split; [done|]). intros cl Hcl. split; [|split].
      + rewrite classList_remove_elem. tauto.
      + rewrite classList_remove_elem. tauto.
      + intros H. apply nonEmpty_spec in H. congruence. }
  destruct (hideError_spec g fid w "form__error-block" s2)
    as (s3 & E3 & F3 & D3 & N3).
  exists s3. split.
  { rewrite (bind_normal _ _ _ _ _ E1), (bind_normal _ _ _ _ _ E2),
      (bind_normal _ _ _ _ _ E3). reflexivity. }
  split; [|split].
  - eapply evaluates_trans; [|exact F3]. by eapply evaluates_trans.
  - by rewrite D3, D2, D1.
  - intros f Hf. rewrite N3, N2, N1, Hf. eexists. split; [reflexivity|].
    cbn. apply Hh. rewrite classList_remove_elem. tauto.
Qed.

End OneCandidate.

(** ** The walk over the candidates *)

Section Walk.
Variables (g : Generation) (p : Params) (fid : nat) (field : Field.t).

(** No relevant candidate: the walk changes nothing. *)
Lemma walk_inert cs s :
  existsb checkCondition cs = false →
  every (checkElem g p fid field) cs s = (Normal true, s).
Proof.
  induction cs as [|c cs IH]; [reflexivity|]. simpl.
  intros [Hc Hcs]%orb_false_iff.
  rewrite (bind_normal _ _ _ _ _ (checkElem_skip g p fid field c s Hc)).
  by apply IH.
Qed.

(** Without a container the first relevant candidate raises. *)
Lemma walk_nogroup cs s :
  formGroup p field = None →
  ∃ s', every (checkElem g p fid field) cs s
        = (if existsb checkCondition cs then Throw TypeError else Normal true, s')
        ∧ evaluates g fid None s s'.
Proof.
  intros Hg. induction cs as [|c cs IH].
  - exists s. split; [reflexivity | apply evaluates_refl].
  - simpl. destruct (checkCondition c) eqn:Hc; simpl.
    + destruct (checkElem_nogroup g p fid field c s Hc Hg) as (s1 & E1 & F1).
      exists s1. by rewrite (bind_throw _ _ _ _ _ E1).
    + by rewrite (bind_normal _ _ _ _ _ (checkElem_skip g p fid field c s Hc)).
Qed.

Lemma walk_group w cs s :
  formGroup p field = Some w → is_Some (s.(nodes) !! fid) →
  ∃ s', every (checkElem g p fid field) cs s
        = (Normal (negb (existsb failing cs)), s')
        ∧ evaluates g fid (Some w) s s'
        ∧ match find failing cs with
          | Some c => failedLook g p fid w c s s'
          | None =>
              s'.(dispatched) = s.(dispatched)
              ∧ (existsb checkCondition cs = true → passedLook fid field s')
          end.
Proof.
  intros Hg. revert s. induction cs as [|c cs IH]; intros s [f Hf].
  { exists s. split; [reflexivity|]. split; [apply evaluates_refl|].
    simpl. split; [done | discriminate]. }
  cbn [every existsb find]. unfold failing at 1 3.
  destruct (checkCondition c) eqn:Hc; cbn [andb orb].
  - destruct (validationType c) eqn:Hv.
    + destruct (checkElem_fail g p fid field c w s Hc Hg Hv)
        as (s1 & E1 & F1 & D1 & B1 & N1).
      exists s1. rewrite (bind_normal _ _ _ _ _ E1).
      split; [reflexivity|]. split; [done|].
      split; [done|]. split; [done|]. exact (N1 f Hf).
    + destruct (checkElem_pass g p fid field c w s Hc Hg Hv)
        as (s1 & E1 & F1 & D1 & N1).
      destruct (N1 f Hf) as (f1 & Hf1 & P1).
      destruct (IH s1 (ex_intro _ f1 Hf1)) as (s' & E & F & R).
      exists s'. rewrite (bind_normal _ _ _ _ _ E1).
      split; [exact E|]. split; [by eapply evaluates_trans|].
      destruct (find failing cs) as [c'|] eqn:Hfind.
      * destruct R as (D & B & N). split; [by rewrite D, D1 | done].
      * destruct R as (D & P). split; [by rewrite D, D1|]. intros _.
        destruct (existsb checkCondition cs) eqn:Hcs; [by apply P|].
        rewrite (walk_inert cs s1 Hcs) in E. simplify_eq.
        by exists f1.
  - rewrite (bind_normal _ _ _ _ _ (checkElem_skip g p fid field c s Hc)).
    apply IH. by exists f.
Qed.

End Walk.

(** ** One field *)

Section OneField.
Variables (g : Generation) (p : Params) (fid : nat).

Lemma validateField_dangling s :
  s.(nodes) !! fid = None → validateField g p fid s = (Throw TypeError, s).
Proof. intros H. unfold validateField. run. by rewrite H. Qed.

Lemma validateField_unfold s field :
  s.(nodes) !! fid = Some field →
  validateField g p fid s =
  match missing g s with
  | Some k => (Throw (missingMessage k), refreshed g s)
  | None => every (checkElem g p fid field) (validationConfig g s field) (refreshed g s)
  end.
Proof.
  intros H. unfold validateField. run. rewrite H.
  rewrite customLoop_spec. unfold missing, refreshed.
  destruct (firstMissing g (formAttributes s) (customChecks s)); reflexivity.
Qed.

(** A missing message is raised before the walk: only the messages
    object has changed. *)
Lemma validateField_missing s field k :
  s.(nodes) !! fid = Some field → missing g s = Some k →
  validateField g p fid s = (Throw (missingMessage k), refreshed g s).
Proof. intros H Hk. by rewrite (validateField_unfold s field H), Hk. Qed.

Lemma validateField_inert s field :
  s.(nodes) !! fid = Some field → missing g s = None →
  applicable g s field = false →
  validateField g p fid s = (Normal true, refreshed g s).
Proof.
  intros H Hk Ha. rewrite (validateField_unfold s field H), Hk.
  by apply walk_inert.
Qed.

Lemma validateField_nogroup s field :
  s.(nodes) !! fid = Some field → missing g s = None →
  formGroup p field = None →
  ∃ s', validateField g p fid s
        = (if applicable g s field then Throw TypeError else Normal true, s')
        ∧ evaluates g fid None s s'.
Proof.
  intros H Hk Hg. rewrite (validateField_unfold s field H), Hk.
  destruct (walk_nogroup g p fid field (validationConfig g s field)
              (refreshed g s) Hg) as (s' & E & F).
  exists s'. split; [exact E|].
  eapply evaluates_trans; [apply evaluates_messages | exact F].
Qed.

Lemma validateField_group s field w :
  s.(nodes) !! fid = Some field → missing g s = None →
  formGroup p field = Some w →
  ∃ s', validateField g p fid s
        = (Normal (negb (existsb failing (validationConfig g s field))), s')
        ∧ evaluates g fid (Some w) s s'
        ∧ match find failing (validationConfig g s field) with
          | Some c => failedLook g p fid w c s s'
          | None =>
              s'.(dispatched) = s.(dispatched)
              ∧ (applicable g s field = true → passedLook fid field s')
          end.
Proof.
  intros H Hk Hg. rewrite (validateField_unfold s field H), Hk.
  destruct (walk_group g p fid field w (validationConfig g s field)
              (refreshed g s) Hg) as (s' & E & F & R).
  { by exists field. }
  exists s'. split; [exact E|]. split.
  { eapply evaluates_trans; [apply evaluates_messages | exact F]. }
  exact R.
Qed.

(** Whatever the outcome, an evaluation stays within its frame. *)
Lemma validateField_evaluates s o s' :
  validateField g p fid s = (o, s') → ∃ w, evaluates g fid w s s'.
Proof.
  intros E. destruct (s.(nodes) !! fid) as [field|] eqn:H.
  - destruct (missing g s) as [k|] eqn:Hk.
    + rewrite (validateField_missing s field k H Hk) in E. simplify_eq.
      exists None. apply evaluates_messages.
    + destruct (formGroup p field) as [w|] eqn:Hg.
      * destruct (validateField_group s field w H Hk Hg) as (s1 & E1 & F1 & _).
        rewrite E1 in E. simplify_eq. by exists (Some w).
      * destruct (validateField_nogroup s field H Hk Hg) as (s1 & E1 & F1).
        rewrite E1 in E. simplify_eq. by exists None.
  - rewrite (validateField_dangling s H) in E. simplify_eq.
    exists None. apply evaluates_refl.
Qed.

End OneField.

(** ** The loop over the fields *)

Lemma evaluates_touches g i w s s' : evaluates g i w s s' → touches g [i] s s'.
Proof.
  intros [n1 nd1 b1 c1 a1 f1 k1 sb1 m1 (e1 & d1 & F1)]. split; try done.
  - intros j Hj. apply n1. intros ->. apply Hj. by left.
  - intros j. destruct (decide (j = i)) as [->|Hne]; [done|]. by rewrite n1.
  - exists e1. split; [done|]. eapply Forall_impl; [exact F1|].
    intros e ->. by left.
Qed.

Lemma touches_refl g l s : touches g l s s.
Proof.
  split; try done.
  - apply refetched_refl.
  - exists []. by rewrite app_nil_r.
Qed.

Lemma touches_trans g l1 l2 s1 s2 s3 :
  touches g l1 s1 s2 → touches g l2 s2 s3 → touches g (l1 ++ l2) s1 s3.
Proof.
  intros [n1 nd1 c1 a1 f1 k1 sb1 m1 (e1 & d1 & F1)]
         [n2 nd2 c2 a2 f2 k2 sb2 m2 (e2 & d2 & F2)].
  split; try congruence.
  - intros j Hj. rewrite elem_of_app in Hj.
    rewrite n2 by tauto. apply n1. tauto.
  - eapply refetched_trans; eauto.
  - exists (e1 ++ e2). rewrite d2, d1, app_assoc. split; [done|].
    apply Forall_app. split.
    + eapply Forall_impl; [exact F1|]. intros e He. apply elem_of_app. by left.
    + eapply Forall_impl; [exact F2|]. intros e He. apply elem_of_app. by right.
Qed.

Lemma touches_mono g l l' s s' :
  (∀ j, j ∈ l → j ∈ l') → touches g l s s' → touches g l' s s'.
Proof.
  intros Hsub [n1 nd1 c1 a1 f1 k1 sb1 m1 (e1 & d1 & F1)]. split; try done.
  - intros j Hj. apply n1. intros Hin. by apply Hj, Hsub.
  - exists e1. split; [done|]. eapply Forall_impl; [exact F1|].
    intros e He. by apply Hsub.
Qed.

Lemma loop_touches g p l s o s' :
  every (validateField g p) l s = (o, s') → touches g l s s'.
Proof.
  revert s. induction l as [|i rest IH]; intros s E.
  - simpl in E. unfold ret in E. simplify_eq. apply touches_refl.
  - simpl in E. unfold bind in E.
    destruct (validateField g p i s) as [[b|e] s1] eqn:E1.
    + destruct (validateField_evaluates g p i s _ _ E1) as (w & F).
      apply evaluates_touches in F. destruct b.
      * apply (touches_trans g [i] rest s s1 s'); [done | by apply IH].
      * unfold ret in E. simplify_eq.
        eapply touches_mono; [|exact F]. intros j Hj.
        apply list_elem_of_singleton in Hj as ->. by left.
    + simplify_eq.
      destruct (validateField_evaluates g p i s _ _ E1) as (w & F).
      apply evaluates_touches in F.
      eapply touches_mono; [|exact F]. intros j Hj.
      apply list_elem_of_singleton in Hj as ->. by left.
Qed.

Lemma validate_unfold g p s :
  validate g p s =
  match every (validateField g p) (fieldList g s) (setFields (fieldList g s) s) with
  | (Normal true, s') => (Normal tt, setSubmits (S s'.(submits)) s')
  | (Normal false, s') => (Normal tt, s')
  | (Throw e, s') => (Throw e, s')
  end.
Proof.
  destruct g; unfold validate, fieldList; run; cbn [fields setFields].
  - rewrite forEachNode_every.
    destruct (formControls s) as [|i rest] eqn:Hl; [reflexivity|].
    destruct (every _ _ _) as [[[]|e] s']; reflexivity.
  - rewrite setFields_same.
    destruct (every _ _ _) as [[[]|e] s']; reflexivity.
  - destruct (every _ _ _) as [[[]|e] s']; reflexivity.
Qed.

(** ** What the verdict of a field depends on *)

Lemma existsb_map_eq {A} (f : A → bool) l l' :
  map f l = map f l' → existsb f l = existsb f l'.
Proof.
  revert l'. induction l as [|x l IH]; intros [|y l'] H; simplify_eq/=; [done|].
  f_equal; auto.
Qed.

Lemma find_existsb_false {A} (f : A → bool) l :
  existsb f l = false → find f l = None.
Proof.
  induction l as [|x l IH]; [done|]. simpl.
  destruct (f x); [discriminate | exact IH].
Qed.

Lemma find_existsb_true {A} (f : A → bool) l :
  existsb f l = true → ∃ x, find f l = Some x ∧ f x = true.
Proof.
  induction l as [|x l IH]; [discriminate|]. simpl.
  destruct (f x) eqn:Hx; [by exists x | exact IH].
Qed.

Lemma strip_eq f f' :
  strip f' = strip f →
  f'.(Field.tagName) = f.(Field.tagName) ∧ f'.(Field.type) = f.(Field.type)
  ∧ f'.(Field.attributes) = f.(Field.attributes)
  ∧ f'.(Field.checked) = f.(Field.checked)
  ∧ f'.(Field.parents) = f.(Field.parents).
Proof.
  intros H.
  pose proof (f_equal Field.tagName H). pose proof (f_equal Field.type H).
  pose proof (f_equal Field.attributes H). pose proof (f_equal Field.checked H).
  pose proof (f_equal Field.parents H). done.
Qed.

Lemma strip_lookup (m m' : gmap nat Field.t) i f :
  strip <$> m' !! i = strip <$> m !! i → m !! i = Some f →
  ∃ f', m' !! i = Some f' ∧ strip f' = strip f.
Proof.
  intros H Hf. rewrite Hf in H. destruct (m' !! i) as [f'|]; [|discriminate].
  exists f'. split; [done|]. by apply (inj Some).
Qed.

Lemma checkedInput_touches g l s s' name :
  touches g l s s' → checkedInput s' name = checkedInput s name.
Proof.
  intros T. pose proof (to_node _ _ _ _ T) as nd.
  unfold checkedInput. rewrite (to_controls _ _ _ _ T).
  induction (formControls s) as [|i rest IH]; [done|]. simpl. rewrite IH.
  f_equal. pose proof (nd i) as Hi.
  destruct (nodes s !! i) as [n|] eqn:Hn.
  - destruct (strip_lookup (nodes s) (nodes s') i n (nd i) Hn) as (n' & -> & Hs).
    destruct (strip_eq n n' Hs) as (-> & -> & -> & -> & _). done.
  - destruct (nodes s' !! i); [discriminate | done].
Qed.

Lemma failing_frame g s s' field :
  s'.(customChecks) = s.(customChecks) →
  (∀ name, checkedInput s' name = checkedInput s name) →
  map failing (validationConfig g s' field) = map failing (validationConfig g s field).
Proof.
  intros Hc Hr. unfold validationConfig. rewrite !map_app. f_equal.
  - unfold builtinConfig, failing. cbn. by rewrite Hr.
  - unfold customConfig, pushedConfig. rewrite Hc, !map_map.
    apply map_ext. intros [k c]. reflexivity.
Qed.

Lemma applicable_frame g s s' field :
  s'.(customChecks) = s.(customChecks) →
  applicable g s' field = applicable g s field.
Proof.
  intros Hc. unfold applicable. apply existsb_map_eq.
  unfold validationConfig. rewrite !map_app. f_equal.
  unfold customConfig, pushedConfig. rewrite Hc, !map_map.
  apply map_ext. intros [k c]. reflexivity.
Qed.

Lemma fieldFails_touches g l s s' i :
  touches g l s s' → i ∉ l → fieldFails g s' i = fieldFails g s i.
Proof.
  intros T Hi. unfold fieldFails. rewrite (to_nodes _ _ _ _ T i Hi).
  destruct (nodes s !! i) as [field|]; [|done].
  apply existsb_map_eq, failing_frame; [by destruct T|].
  intros name. by eapply checkedInput_touches.
Qed.

Lemma missing_touches g l s s' : touches g l s s' → missing g s' = missing g s.
Proof. intros []. unfold missing. congruence. Qed.


Lemma wellFormed_setFields g p l x s :
  wellFormed g p (setFields x s) l ↔ wellFormed g p s l.
Proof. done. Qed.

(** ** Acceptance and rejection of the form *)


(** * The statements of the specification *)

(** ** Check results (C3) *)

(** C3, as amended.  The check results of [empty], [regExp], [email] and
    [tel], and of a checker registered from a regular expression, satisfy
    the invariant: an empty value is never an error.  A checker
    registered from a function reports the negation of the function as
    [hasError] whatever the emptiness; [validate] does not read that
    flag when the result is empty, so the failure flag of the candidate
    is down. *)
Theorem check_results_invariant raw r :
  emptyIsNoError (fieldChecks.empty raw)
  ∧ emptyIsNoError (fieldChecks.regExp raw r)
  ∧ emptyIsNoError (fieldChecks.email raw)
  ∧ emptyIsNoError (fieldChecks.tel raw)
  ∧ (∀ field cfg, emptyIsNoError (callChecker (RegExpChecker r) raw field cfg))
  ∧ (∀ check field cfg,
       (callChecker (FunctionChecker check) raw field cfg).(hasError)
       = negb (check raw field cfg))
  ∧ (∀ g checker field k m,
       field.(Field.value) = raw → Str.isEmpty (Str.trim raw) = true →
       (customCandidate g field k checker m).(validationType) = false).
Proof.
  split; [intros _; apply empty_hasError|].
  split; [apply regExp_invariant|].
  split; [apply regExp_invariant|].
  split; [apply regExp_invariant|].
  split; [intros; apply regExp_invariant|].
  split; [reflexivity|].
  intros g checker field k m Hv Hb. apply customCandidate_blank. by rewrite Hv.
Qed.

Lemma check_results_invariant_witness :
  (fieldChecks.email "   ").(hasError) = false
  ∧ (customCandidate ModuleExport Sample.emailOptionalBlank "foo"
       (FunctionChecker Sample.never) (Str "Not foo")).(validationType) = false.
Proof.
  destruct (check_results_invariant "   " emailRegExp) as (_ & _ & He & _).
  destruct (check_results_invariant "" emailRegExp) as (_ & _ & _ & _ & _ & _ & Hc).
  split.
  - apply He. reflexivity.
  - apply Hc; reflexivity.
Defined.

(** C3 as stated fails: the checker registered from the function that
    always answers [false] gives, on the empty value, a result that is
    both empty and in error. *)
Lemma function_checker_breaks_invariant :
  (Sample.after (setFieldCheck (JsString "never") (JsFunction Sample.never))
     (builder ModuleExport (Sample.page [] []))).(customChecks)
  = [("never", FunctionChecker Sample.never)]
  ∧ (let r := callChecker (FunctionChecker Sample.never) "" Sample.plainText [] in
     r.(isEmpty) = true ∧ r.(hasError) = true)
  ∧ ¬ emptyIsNoError (callChecker (FunctionChecker Sample.never) "" Sample.plainText []).
Proof.
  split; [reflexivity|]. split; [split; reflexivity|].
  intros H. specialize (H eq_refl). discriminate.
Qed.

(** ** Registration (C7) *)

Lemma assign_elem k c o : (k, c) ∈ assign k c o.
Proof.
  induction o as [|[k' c'] rest IH]; simpl; [by left|].
  case_decide; [by left|].
  destruct (arrayIndex k), (arrayIndex k'); try (by left); try (right; exact IH).
  destruct (_ <? _)%N; [by left | right; exact IH].
Qed.

(** C7, as amended.  [setFieldCheck] throws, at the call, exactly when
    [name] is not a string or [check] is neither a regular expression nor
    a function, and then it leaves the instance as it was; otherwise the
    checker is stored under [name], the empty string included. *)
Theorem setFieldCheck_throws name check s :
  (isString name && usable check = false →
     ∃ e, setFieldCheck name check s = (Throw e, s))
  ∧ (isString name && usable check = true →
     ∃ k c, name = JsString k
            ∧ setFieldCheck name check s
              = (Normal tt, setCustomChecks (assign k c s.(customChecks)) s)
            ∧ (k, c) ∈ assign k c s.(customChecks)).
Proof.
  split.
  - destruct name, check; simpl; try discriminate; intros _; eexists; reflexivity.
  - destruct name as [| | | |k| | |], check; simpl; try discriminate; intros _.
    + exists k, (RegExpChecker r). split; [done|]. split; [done|]. apply assign_elem.
    + exists k, (FunctionChecker f). split; [done|]. split; [done|]. apply assign_elem.
Qed.

Lemma setFieldCheck_throws_witness :
  (∃ e, setFieldCheck (JsNumber 7) (JsRegExp Sample.letters)
          (builder ModuleExport (Sample.page [] [])) 
        = (Throw e, builder ModuleExport (Sample.page [] [])))
  ∧ (∃ k c, JsString "foo" = JsString k
            ∧ setFieldCheck (JsString "foo") (JsRegExp Sample.letters)
                (builder ModuleExport (Sample.page [] []))
              = (Normal tt,
                 setCustomChecks
                   (assign k c (builder ModuleExport (Sample.page [] [])).(customChecks))
                   (builder ModuleExport (Sample.page [] [])))
            ∧ (k, c) ∈ assign k c (builder ModuleExport (Sample.page [] [])).(customChecks)).
Proof.
  split.
  - apply (setFieldCheck_throws (JsNumber 7) (JsRegExp Sample.letters)). reflexivity.
  - apply (setFieldCheck_throws (JsString "foo") (JsRegExp Sample.letters)). reflexivity.
Defined.

(** C7 as stated fails on the empty name: it is a string, so the
    registration succeeds. *)
Lemma empty_name_is_registered :
  setFieldCheck (JsString "") (JsRegExp Sample.letters)
    (builder ModuleExport (Sample.page [] []))
  = (Normal tt,
     setCustomChecks [("", RegExpChecker Sample.letters)]
       (builder ModuleExport (Sample.page [] []))).
Proof. reflexivity. Qed.

(** ** One field: order, short circuit, blank values, styling (C1, C8, C9, C10) *)

(** A field without relevant rule: its evaluation only reads the
    messages of the registered rules. *)
Lemma validateField_inert_any g p fid s field o s' :
  s.(nodes) !! fid = Some field → applicable g s field = false →
  validateField g p fid s = (o, s') → s' = refreshed g s.
Proof.
  intros Hf Ha E. rewrite (validateField_unfold g p fid s field Hf) in E.
  destruct (missing g s); [by simplify_eq|].
  rewrite (walk_inert g p fid field _ _ Ha) in E. by simplify_eq.
Qed.

Lemma find_app_l {A} (f : A → bool) l1 l2 :
  existsb f l1 = true → find f (l1 ++ l2) = find f l1.
Proof.
  induction l1 as [|x l1 IH]; [discriminate|]. simpl.
  destruct (f x); [done | exact IH].
Qed.

(** C1.  The candidates are the five built-in entries (required, email,
    tel, required checkbox, required radio) followed by one entry per
    registered rule in the enumeration order of the registry.  The
    evaluation of a field stops at the first candidate that is relevant
    and failing: the verdict is [false] exactly when there is one, its
    message is the one put in the error block, and exactly one error
    event is dispatched; a failing built-in candidate goes before every
    custom one.  For an e-mail control that is required and blank the
    block shows the message of [required], whatever the registry. *)
Theorem first_failing_rule_wins g p s fid field w :
  s.(nodes) !! fid = Some field → missing g s = None →
  formGroup p field = Some w →
  (map msg (validationConfig g s field)
   = [message s "required"; message s "email"; message s "tel";
      message s "required"; message s "required"]
     ++ map (λ kc, formMessage g s.(formAttributes) kc.1) s.(customChecks))
  ∧ (∃ s', validateField g p fid s
           = (Normal (negb (existsb failing (validationConfig g s field))), s')
           ∧ match find failing (validationConfig g s field) with
             | Some c => failedLook g p fid w c s s'
             | None => s'.(dispatched) = s.(dispatched)
             end)
  ∧ (existsb failing (builtinConfig s field) = true →
     find failing (validationConfig g s field) = find failing (builtinConfig s field))
  ∧ (field.(Field.type) = "email" →
     hasAttribute field.(Field.attributes) "required" = true →
     Str.isEmpty (Str.trim field.(Field.value)) = true →
     ∃ s', validateField g p fid s = (Normal false, s')
           ∧ s'.(dispatched) = s.(dispatched) ++ [(fid, errorEvent g)]
           ∧ innerHTML <$> s'.(errorBlocks) !! w = Some (span (message s "required"))).
Proof.
  intros Hf Hm Hg.
  destruct (validateField_group g p fid s field w Hf Hm Hg) as (s' & E & F & R).
  split; [|split; [|split]].
  - unfold validationConfig, customConfig, pushedConfig.
    rewrite map_app, map_map. reflexivity.
  - exists s'. split; [exact E|].
    destruct (find failing (validationConfig g s field)); [exact R | apply R].
  - intros H. by apply find_app_l.
  - intros Ht Hr Hb.
    assert (find failing (validationConfig g s field)
            = Some {| checkCondition := true; validationType := true;
                      msg := message s "required" |}) as Hfind.
    { unfold validationConfig, builtinConfig. cbn [app find failing].
      unfold fieldChecks.empty. cbn [isEmpty checkCondition validationType].
      rewrite Ht, Hr, Hb. reflexivity. }
    rewrite Hfind in R. destruct R as (D & B & _).
    exists s'. split; [|done].
    rewrite E. do 2 f_equal.
    destruct (find_some _ _ Hfind) as [_ Hc].
    assert (existsb failing (validationConfig g s field) = true) as ->; [|done].
    apply existsb_exists. eexists. split; [|exact Hc].
    by apply (find_some _ _ Hfind).
Qed.

Lemma first_failing_rule_wins_witness :
  ∃ s', validateField ModuleExport defaultParams 0 (Sample.scenario ModuleExport)
        = (Normal false, s')
        ∧ s'.(dispatched) = [(0, "validate-light:error")]
        ∧ innerHTML <$> s'.(errorBlocks) !! 10
          = Some "<span>This field is required</span>".
Proof.
  destruct (first_failing_rule_wins ModuleExport defaultParams
              (Sample.scenario ModuleExport) 0 Sample.emailRequiredBlank 10)
    as (_ & _ & _ & H); [reflexivity | reflexivity | reflexivity |].
  apply H; reflexivity.
Defined.

Lemma blank_never_fails g s field :
  hasAttribute field.(Field.attributes) "required" = false →
  Str.isEmpty (Str.trim field.(Field.value)) = true →
  existsb failing (validationConfig g s field) = false.
Proof.
  intros Hr Hb. unfold validationConfig. rewrite existsb_app.
  apply orb_false_iff. split.
  - unfold builtinConfig, failing, fieldChecks.email, fieldChecks.tel.
    cbn [existsb checkCondition validationType].
    rewrite Hr, !(regExp_blank _ _ Hb). cbn [hasError].
    by rewrite !andb_false_r.
  - unfold customConfig, pushedConfig.
    induction (customChecks s) as [|[k c] rest IH]; [done|].
    cbn [map existsb]. rewrite IH, orb_false_r. unfold failing.
    rewrite (customCandidate_blank g c field k _ Hb). apply andb_false_r.
Qed.

(** C8.  A field without [required] whose value is blank after trimming
    has no failing candidate, whatever its type and whatever custom
    rules are active on it; its evaluation never yields the verdict
    [false], and it yields [true] whenever it completes, which it does
    when every registered rule has its message and the field sits in a
    container (or has no relevant rule at all). *)
Theorem blank_optional_passes g p s fid field :
  s.(nodes) !! fid = Some field →
  hasAttribute field.(Field.attributes) "required" = false →
  Str.isEmpty (Str.trim field.(Field.value)) = true →
  existsb failing (validationConfig g s field) = false
  ∧ (∀ o s', validateField g p fid s = (o, s') → o = Normal true ∨ ∃ e, o = Throw e)
  ∧ (missing g s = None →
     is_Some (formGroup p field) ∨ applicable g s field = false →
     ∃ s', validateField g p fid s = (Normal true, s')).
Proof.
  intros Hf Hr Hb. pose proof (blank_never_fails g s field Hr Hb) as Hn.
  split; [exact Hn|]. split.
  - intros o s' E. destruct (missing g s) as [k|] eqn:Hm.
    { rewrite (validateField_missing g p fid s field k Hf Hm) in E.
      simplify_eq. right. by eexists. }
    destruct (formGroup p field) as [w|] eqn:Hg.
    + destruct (validateField_group g p fid s field w Hf Hm Hg) as (s1 & E1 & _).
      rewrite E1, Hn in E. simplify_eq. by left.
    + destruct (validateField_nogroup g p fid s field Hf Hm Hg) as (s1 & E1 & _).
      rewrite E1 in E. destruct (applicable g s field); simplify_eq.
      * right. by eexists.
      * by left.
  - intros Hm [[w Hg]|Ha].
    + destruct (validateField_group g p fid s field w Hf Hm Hg) as (s1 & E1 & _).
      rewrite Hn in E1. by exists s1.
    + exists (refreshed g s). by apply (validateField_inert g p fid s field).
Qed.

Lemma blank_optional_passes_witness :
  ∃ s', validateField ModuleExport defaultParams 0
          (Sample.withFoo ModuleExport
             (Sample.page [Sample.emailOptionalBlank] Sample.formTag))
        = (Normal true, s').
Proof.
  destruct (blank_optional_passes ModuleExport defaultParams
              (Sample.withFoo ModuleExport
                 (Sample.page [Sample.emailOptionalBlank] Sample.formTag))
              0 Sample.emailOptionalBlank)
    as (_ & _ & H); [reflexivity | reflexivity | reflexivity |].
  apply H; [reflexivity|]. left. by exists 10.
Defined.

(** C9, as amended.  A field that passes under at least one relevant
    rule loses [is-invalid]; it carries [is-valid] afterwards when its
    value is not blank, and does not when its value is the empty string.
    A field that passes without any relevant rule keeps the classes it
    had. *)
Theorem passed_field_look g p s fid field w :
  s.(nodes) !! fid = Some field → missing g s = None →
  formGroup p field = Some w →
  existsb failing (validationConfig g s field) = false →
  ∃ s', validateField g p fid s = (Normal true, s')
        ∧ (applicable g s field = true →
           ∃ f', s'.(nodes) !! fid = Some f'
                 ∧ ("is-invalid" ∉ Field.classList f')
                 ∧ (Str.isEmpty (Str.trim field.(Field.value)) = false →
                    "is-valid" ∈ Field.classList f')
                 ∧ (field.(Field.value) = EmptyString →
                    "is-valid" ∉ Field.classList f'))
        ∧ (applicable g s field = false → s'.(nodes) = s.(nodes)).
Proof.
  intros Hf Hm Hg Hn.
  destruct (validateField_group g p fid s field w Hf Hm Hg) as (s' & E & _ & R).
  rewrite (find_existsb_false _ _ Hn) in R. destruct R as [_ P].
  exists s'. split; [by rewrite E, Hn|]. split.
  - intros Ha. destruct (P Ha) as (f' & Hf' & Hi & Hv).
    exists f'. split; [done|]. split; [done|]. split.
    + intros Hb. apply Hv. intros Hz. by rewrite Hz in Hb.
    + intros Hz Hin. by apply Hv in Hin.
  - intros Ha.
    by rewrite (validateField_inert_any g p fid s field _ _ Hf Ha E).
Qed.

Lemma passed_field_look_witness :
  ∃ s', validateField ModuleExport defaultParams 0
          (builder ModuleExport (Sample.page [Sample.requiredFilled] Sample.formTag))
        = (Normal true, s')
        ∧ ∃ f', s'.(nodes) !! 0 = Some f'
                ∧ ("is-invalid" ∉ Field.classList f')
                ∧ (Str.isEmpty (Str.trim Sample.requiredFilled.(Field.value)) = false →
                   "is-valid" ∈ Field.classList f')
                ∧ (Sample.requiredFilled.(Field.value) = EmptyString →
                   "is-valid" ∉ Field.classList f').
Proof.
  destruct (passed_field_look ModuleExport defaultParams
              (builder ModuleExport (Sample.page [Sample.requiredFilled] Sample.formTag))
              0 Sample.requiredFilled 12) as (s' & E & H & _);
    [vm_compute; reflexivity ..|].
  exists s'. split; [exact E|]. apply H. vm_compute. reflexivity.
Defined.

(** C9 as stated fails: a text control that is not required and carries
    no rule passes with a value that is not empty, and receives no
    [is-valid]. *)
Lemma filled_field_without_rule_gets_no_class :
  let s := builder ModuleExport (Sample.page [Sample.plainText] Sample.formTag) in
  Sample.outcome (validateField ModuleExport defaultParams 0) s = Normal true
  ∧ (fieldChecks.empty Sample.plainText.(Field.value)).(isEmpty) = false
  ∧ Field.classList <$>
      (Sample.after (validateField ModuleExport defaultParams 0) s).(nodes) !! 0
    = Some [].
Proof. vm_compute. repeat split. Qed.

(** The passing branch tests the raw value where the checks test the
    trimmed one: an optional telephone control whose value is one space
    passes as empty and receives [is-valid]. *)
Example space_only_value_gets_valid_class :
  let s := builder ModuleExport (Sample.page [Sample.telOptionalSpace] Sample.formTag) in
  Sample.outcome (validateField ModuleExport defaultParams 0) s = Normal true
  ∧ hasAttribute Sample.telOptionalSpace.(Field.attributes) "required" = false
  ∧ (fieldChecks.empty Sample.telOptionalSpace.(Field.value)).(isEmpty) = true
  ∧ Field.classList <$>
      (Sample.after (validateField ModuleExport defaultParams 0) s).(nodes) !! 0
    = Some ["is-valid"].
Proof. vm_compute. repeat split. Qed.

Lemma filter_foreign (i fid : nat) (evs : list (nat * string)) :
  Forall (λ e, e.1 = i) evs → i ≠ fid → filter (λ e, e.1 = fid) evs = [].
Proof.
  intros F Hne. induction F as [|x evs Hx _ IH]; [done|].
  rewrite filter_cons_False; [done | congruence].
Qed.

Lemma loop_inert g p fid field l s o s' :
  s.(nodes) !! fid = Some field → applicable g s field = false →
  every (validateField g p) l s = (o, s') →
  s'.(nodes) !! fid = Some field
  ∧ filter (λ e, e.1 = fid) s'.(dispatched) = filter (λ e, e.1 = fid) s.(dispatched).
Proof.
  revert s. induction l as [|i rest IH]; intros s Hf Ha E.
  { simpl in E. unfold ret in E. by simplify_eq. }
  simpl in E. unfold bind in E.
  destruct (validateField g p i s) as [[b|e] s1] eqn:E1.
  - assert (nodes s1 !! fid = Some field
            ∧ filter (λ e, e.1 = fid) (dispatched s1)
              = filter (λ e, e.1 = fid) (dispatched s)
            ∧ customChecks s1 = customChecks s) as (N1 & D1 & C1).
    { destruct (decide (i = fid)) as [->|Hne].
      - by rewrite (validateField_inert_any g p fid s field _ _ Hf Ha E1).
      - destruct (validateField_evaluates g p i s _ _ E1) as (w & F).
        destruct F as [n1 nd1 b1 c1 a1 f1 k1 sb1 m1 (evs & d1 & F1)].
        split; [by rewrite n1|]. split; [|done].
        rewrite d1, filter_app.
        by rewrite (filter_foreign i fid evs F1 Hne), app_nil_r. }
    destruct b.
    + destruct (IH s1 N1) as [N D]; [by rewrite (applicable_frame g s s1) | done |].
      split; [done | by rewrite D].
    + unfold ret in E. by simplify_eq.
  - simplify_eq. destruct (decide (i = fid)) as [->|Hne].
    + by rewrite (validateField_inert_any g p fid s field _ _ Hf Ha E1).
    + destruct (validateField_evaluates g p i s _ _ E1) as (w & F).
      destruct F as [n1 nd1 b1 c1 a1 f1 k1 sb1 m1 (evs & d1 & F1)].
      split; [by rewrite n1|].
      rewrite d1, filter_app.
      by rewrite (filter_foreign i fid evs F1 Hne), app_nil_r.
Qed.

(** C10.  A field none of whose candidates is relevant is counted as
    passed, and its evaluation changes nothing of the page: nodes, error
    blocks, timers, dispatched events and submissions are as before
    (only the message cache of the registered rules is written).  Over a
    whole call of [validate] its node is as before and no event has been
    dispatched on it. *)
Theorem inert_field_untouched g p s fid field :
  s.(nodes) !! fid = Some field → applicable g s field = false →
  (missing g s = None → validateField g p fid s = (Normal true, refreshed g s))
  ∧ (∀ o s', validateField g p fid s = (o, s') →
       s'.(nodes) = s.(nodes) ∧ s'.(errorBlocks) = s.(errorBlocks)
       ∧ s'.(timers) = s.(timers) ∧ s'.(dispatched) = s.(dispatched)
       ∧ s'.(submits) = s.(submits))
  ∧ (∀ o s', validate g p s = (o, s') →
       s'.(nodes) !! fid = Some field
       ∧ filter (λ e, e.1 = fid) s'.(dispatched)
         = filter (λ e, e.1 = fid) s.(dispatched)).
Proof.
  intros Hf Ha. split; [|split].
  - intros Hm. by apply (validateField_inert g p fid s field).
  - intros o s' E.
    by rewrite (validateField_inert_any g p fid s field _ _ Hf Ha E).
  - intros o s' E. rewrite validate_unfold in E.
    destruct (every _ _ _) as [[b|e] s1] eqn:E1.
    + apply (loop_inert g p fid field) in E1; [|done|done].
      destruct b; by simplify_eq.
    + apply (loop_inert g p fid field) in E1; [|done|done]. by simplify_eq.
Qed.

Lemma inert_field_untouched_witness :
  validateField ModuleExport defaultParams 0
    (builder ModuleExport (Sample.page [Sample.plainText] Sample.formTag))
  = (Normal true,
     refreshed ModuleExport
       (builder ModuleExport (Sample.page [Sample.plainText] Sample.formTag))).
Proof.
  destruct (inert_field_untouched ModuleExport defaultParams
              (builder ModuleExport (Sample.page [Sample.plainText] Sample.formTag))
              0 Sample.plainText) as (H & _);
    [vm_compute; reflexivity | vm_compute; reflexivity |].
  apply H. vm_compute. reflexivity.
Defined.

(** ** The missing message (C6) *)






(** ** The registry and the messages (C4) *)


Lemma fetched_visited g form checks m k :
  fetched g form checks m !! k
  = if decide (k ∈ visited g form checks) then Some (formMessage g form k) else m !! k.
Proof.
  revert m. induction checks as [|[k' c] rest IH]; intros m; cbn [fetched visited].
  { rewrite decide_False; [done|]. apply not_elem_of_nil. }
  destruct (truthy (formMessage g form k')).
  - rewrite IH. destruct (decide (k = k')) as [->|Hne].
    + rewrite lookup_insert_eq, (decide_True (P := k' ∈ k' :: _)) by by left.
      by destruct (decide _).
    + rewrite lookup_insert_ne by done.
      destruct (decide (k ∈ visited g form rest)) as [Hin|Hin].
      * rewrite decide_True; [done | by right].
      * rewrite decide_False; [done|]. by intros [?|?]%elem_of_cons.
  - destruct (decide (k = k')) as [->|Hne].
    + rewrite lookup_insert_eq, decide_True; [done | by left].
    + rewrite lookup_insert_ne by done. rewrite decide_False; [done|].
      by intros [?|?%elem_of_nil]%elem_of_cons.
Qed.

Lemma fetched_idempotent g form checks m :
  fetched g form checks (fetched g form checks m) = fetched g form checks m.
Proof.
  apply map_eq. intros k. rewrite !fetched_visited. by destruct (decide _).
Qed.




Lemma checkElem_messages g p fid field elem s o s' :
  checkElem g p fid field elem s = (o, s') → s'.(messages) = s.(messages).
Proof.
  unfold checkElem. destruct (checkCondition elem); [|by intros [= _ <-]].
  destruct (closest _ _) as [w|]; destruct (validationType elem);
    unfold alterClassList, showError, hideError, dispatchEvent; run;
    cbn [errorBlocks setNodes];
    try destruct (nonEmpty (Field.value field)); run; cbn [errorBlocks setNodes];
    try destruct (errorBlocks s !! w); by intros [= _ <-].
Qed.

Lemma walk_messages g p fid field cs s o s' :
  every (checkElem g p fid field) cs s = (o, s') → s'.(messages) = s.(messages).
Proof.
  revert s. induction cs as [|c cs IH]; intros s E.
  { by injection E as _ <-. }
  cbn [every] in E. unfold bind in E.
  destruct (checkElem g p fid field c s) as [[b|e] s1] eqn:E1;
    apply checkElem_messages in E1.
  - destruct b; [|injection E as _ <-; done]. by rewrite (IH s1 E).
  - by injection E as _ <-.
Qed.

Lemma validateField_messages g p i s o s' field :
  s.(nodes) !! i = Some field → validateField g p i s = (o, s') →
  s'.(messages) = fetched g s.(formAttributes) s.(customChecks) s.(messages).
Proof.
  intros Hf E. rewrite (validateField_unfold g p i s field Hf) in E.
  destruct (missing g s); [by injection E as _ <-|].
  by rewrite (walk_messages _ _ _ _ _ _ _ _ E).
Qed.

Lemma loop_messages g p l s o s' :
  every (validateField g p) l s = (o, s') →
  s'.(messages)
  = match l with
    | [] => s.(messages)
    | i :: _ =>
        if s.(nodes) !! i is Some _
        then fetched g s.(formAttributes) s.(customChecks) s.(messages)
        else s.(messages)
    end.
Proof.
  assert (∀ l s o s', every (validateField g p) l s = (o, s') →
            s'.(messages) = s.(messages)
            ∨ s'.(messages)
              = fetched g s.(formAttributes) s.(customChecks) s.(messages)) as Hany.
  { clear. induction l as [|i rest IH]; intros s o s' E.
    { left. by injection E as _ <-. }
    cbn [every] in E. unfold bind in E.
    destruct (validateField g p i s) as [[b|e] s1] eqn:E1.
    - destruct (validateField_evaluates g p i s _ _ E1) as (w & F).
      destruct (s.(nodes) !! i) as [field|] eqn:Hf.
      + pose proof (validateField_messages g p i s _ _ field Hf E1) as Hm.
        right. destruct b; [|by injection E as _ <-].
        destruct (IH s1 _ _ E) as [->| ->]; [done|].
        by rewrite (ev_attributes _ _ _ _ _ F), (ev_checks _ _ _ _ _ F), Hm,
          fetched_idempotent.
      + rewrite (validateField_dangling g p i s Hf) in E1. discriminate.
    - injection E as _ <-. destruct (s.(nodes) !! i) as [field|] eqn:Hf.
      + right. by apply (validateField_messages g p i s (Throw e) s1 field).
      + left. rewrite (validateField_dangling g p i s Hf) in E1. by injection E1 as _ <-. }
  destruct l as [|i rest]; intros E; [by injection E as _ <-|].
  cbn [every] in E. unfold bind in E.
  destruct (s.(nodes) !! i) as [field|] eqn:Hf.
  - destruct (validateField g p i s) as [[b|e] s1] eqn:E1.
    + pose proof (validateField_messages g p i s _ _ field Hf E1) as Hm.
      destruct (validateField_evaluates g p i s _ _ E1) as (w & F).
      destruct b; [|by injection E as _ <-].
      destruct (Hany rest s1 _ _ E) as [->| ->]; [done|].
      by rewrite (ev_attributes _ _ _ _ _ F), (ev_checks _ _ _ _ _ F), Hm,
        fetched_idempotent.
    + injection E as _ <-. by apply (validateField_messages g p i s (Throw e) s1 field).
  - rewrite (validateField_dangling g p i s Hf) in E. by injection E as _ <-.
Qed.




(** ** The field list (C5) *)

(** C5, as amended.  The module version and the object-prototype version
    query the form at every call: the result of [validate] does not
    depend on the list stored before, and the list stored afterwards is
    the one the form has now.  The closure build of v0.1.1 does not: its
    [builder] stores the list once, [validate] iterates that stored list,
    leaves it as it is and touches no control outside it, so an instance
    built on a form without controls submits whatever controls the form
    has by then. *)
Theorem field_list_per_generation p s :
  (∀ g l, g ≠ ClosureBuild →
     validate g p (setFields l s) = validate g p s
     ∧ (validate g p s).2.(fields) = s.(formControls))
  ∧ (builder ClosureBuild s).(fields) = s.(formControls)
  ∧ (∀ o s', validate ClosureBuild p s = (o, s') →
       s'.(fields) = s.(fields)
       ∧ ∀ i, i ∉ s.(fields) → s'.(nodes) !! i = s.(nodes) !! i)
  ∧ (s.(fields) = [] →
     ∀ controls,
       validate ClosureBuild p (setFormControls controls s)
       = (Normal tt, setSubmits (S s.(submits)) (setFormControls controls s))).
Proof.
  split; [|split; [reflexivity|split]].
  - intros g l Hg. split; [by destruct g|].
    rewrite validate_unfold.
    destruct (every _ _ _) as [[b|e] s1] eqn:E1;
      apply loop_touches in E1; destruct E1 as [_ _ _ _ Hf _ _ _ _].
    + destruct g; [|done|]; destruct b; exact Hf.
    + destruct g; [|done|]; exact Hf.
  - intros o s' E. rewrite validate_unfold in E.
    destruct (every _ _ _) as [[b|e] s1] eqn:E1;
      apply loop_touches in E1; destruct E1 as [Hn _ _ _ Hf _ _ _ _].
    + destruct b; by simplify_eq.
    + by simplify_eq.
  - intros Hl controls. rewrite validate_unfold. cbn [fieldList fields setFormControls].
    rewrite Hl. cbn [every]. unfold ret. f_equal.
    destruct s; simpl in *; by subst.
Qed.

Lemma field_list_per_generation_witness :
  validate ModuleExport defaultParams
    (setFields [7] (Sample.grownForm ModuleExport))
  = validate ModuleExport defaultParams (Sample.grownForm ModuleExport)
  ∧ (validate ModuleExport defaultParams (Sample.grownForm ModuleExport)).2.(fields)
    = [0; 1].
Proof.
  destruct (field_list_per_generation defaultParams (Sample.grownForm ModuleExport))
    as (H & _).
  apply (H ModuleExport [7]). discriminate.
Defined.

(** C5 as stated fails: after a required blank control is added to a
    form built with one valid control, the module and object-prototype
    versions reject the form, and the closure build of v0.1.1 submits it. *)
Lemma closure_build_keeps_its_list :
  (Sample.after (validate ModuleExport defaultParams)
     (Sample.grownForm ModuleExport)).(submits) = 0
  ∧ (Sample.after (validate ObjectPrototype defaultParams)
       (Sample.grownForm ObjectPrototype)).(submits) = 0
  ∧ (Sample.after (validate ClosureBuild defaultParams)
       (Sample.grownForm ClosureBuild)).(submits) = 1
  ∧ (Sample.grownForm ClosureBuild).(formControls) = [0; 1]
  ∧ (Sample.after (validate ClosureBuild defaultParams)
       (Sample.grownForm ClosureBuild)).(fields) = [0].
Proof. vm_compute. repeat split. Qed.

(** ** The first failing field of a list *)

Lemma existsb_first {A} (f : A → bool) l :
  existsb f l = true →
  ∃ pre x post, l = pre ++ x :: post ∧ existsb f pre = false ∧ f x = true.
Proof.
  induction l as [|y l IH]; [discriminate|]. simpl.
  destruct (f y) eqn:Hy.
  - intros _. by exists [], y, l.
  - intros H. destruct (IH H) as (pre & x & post & -> & Hp & Hx).
    exists (y :: pre), x, post. simpl. by rewrite Hy.
Qed.

Lemma existsb_false_elem {A} (f : A → bool) l :
  existsb f l = false → ∀ x, x ∈ l → f x = false.
Proof.
  intros H x Hx. destruct (f x) eqn:Hfx; [|done].
  assert (existsb f l = true) as Ht; [|congruence].
  apply existsb_exists. exists x. split; [by apply list_elem_of_In | done].
Qed.

(** * Further properties of the code *)

(** ** Strings *)

Lemma append_cons c s t : String c s +:+ t = String c (s +:+ t).
Proof. reflexivity. Qed.

Lemma append_nil_l s : EmptyString +:+ s = s.
Proof. reflexivity. Qed.

Lemma append_nil_r s : s +:+ EmptyString = s.
Proof.
  induction s as [|c s IH]; [done|]. by rewrite append_cons, IH.
Qed.

Lemma append_assoc s1 s2 s3 : (s1 +:+ s2) +:+ s3 = s1 +:+ (s2 +:+ s3).
Proof.
  induction s1 as [|c s1 IH]; [done|]. by rewrite !append_cons, IH.
Qed.

Lemma append_eq_nil s1 s2 :
  s1 +:+ s2 = EmptyString → s1 = EmptyString ∧ s2 = EmptyString.
Proof. destruct s1; [done|]. rewrite append_cons. discriminate. Qed.

Lemma append_eq_cons s1 s2 c s :
  s1 +:+ s2 = String c s →
  (s1 = EmptyString ∧ s2 = String c s)
  ∨ ∃ s1', s1 = String c s1' ∧ s = s1' +:+ s2.
Proof.
  destruct s1 as [|c' s1]; [by left|]. rewrite append_cons. intros H.
  right. injection H as -> <-. by exists s1.
Qed.

Lemma allChars_append p s1 s2 :
  allChars p (s1 +:+ s2) = allChars p s1 && allChars p s2.
Proof.
  induction s1 as [|c s1 IH]; [done|].
  rewrite append_cons. simpl. by rewrite IH, andb_assoc.
Qed.

(** ** The matcher decides the language *)

Lemma lang_void_inv s : ¬ lang Re.Void s.
Proof. inversion 1. Qed.

Lemma lang_eps_inv s : lang Re.Eps s → s = EmptyString.
Proof. by inversion 1. Qed.

Lemma lang_class_inv p s :
  lang (Re.Class p) s → ∃ c, s = String c EmptyString ∧ p c = true.
Proof. inversion 1; subst. by eexists. Qed.

Lemma lang_seq_inv a b s :
  lang (Re.Seq a b) s → ∃ s1 s2, s = s1 +:+ s2 ∧ lang a s1 ∧ lang b s2.
Proof. inversion 1; subst. by eexists _, _. Qed.

Lemma lang_alt_inv a b s : lang (Re.Alt a b) s → lang a s ∨ lang b s.
Proof. inversion 1; subst; tauto. Qed.

Lemma nullable_lang r : Re.nullable r = true ↔ lang r EmptyString.
Proof.
  induction r as [| |p|a IHa b IHb|a IHa b IHb|a IHa]; simpl.
  - split; [discriminate | by intros ?%lang_void_inv].
  - split; [constructor | done].
  - split; [discriminate|]. intros (c & H & _)%lang_class_inv. discriminate.
  - rewrite andb_true_iff, IHa, IHb. split.
    + intros [Ha Hb]. apply (lang_seq a b EmptyString EmptyString Ha Hb).
    + intros (s1 & s2 & Heq & H1 & H2)%lang_seq_inv.
      symmetry in Heq. destruct (append_eq_nil _ _ Heq) as [-> ->]. done.
  - rewrite orb_true_iff, IHa, IHb. split.
    + intros [H|H]; [by apply lang_alt_l | by apply lang_alt_r].
    + apply lang_alt_inv.
  - split; [constructor | done].
Qed.

Lemma lang_star_cons_inv a c s :
  lang (Re.Star a) (String c s) →
  ∃ s1 s2, s = s1 +:+ s2 ∧ lang a (String c s1) ∧ lang (Re.Star a) s2.
Proof.
  intros H. remember (Re.Star a) as r eqn:Hr. remember (String c s) as w eqn:Hw.
  revert Hr Hw. induction H as [| | | | | |a' s1 s2 H1 _ H2 IH2]; try discriminate.
  intros [= ->] Hw. destruct (append_eq_cons _ _ _ _ Hw) as [[-> ->]|(s1' & -> & ->)].
  - by apply IH2.
  - by exists s1', s2.
Qed.

Lemma lang_seq_cons a b c s :
  lang (Re.Seq a b) (String c s)
  ↔ (lang a EmptyString ∧ lang b (String c s))
    ∨ ∃ s1 s2, s = s1 +:+ s2 ∧ lang a (String c s1) ∧ lang b s2.
Proof.
  split.
  - intros (s1 & s2 & Heq & H1 & H2)%lang_seq_inv. symmetry in Heq.
    destruct (append_eq_cons _ _ _ _ Heq) as [[-> ->]|(s1' & -> & ->)].
    + by left.
    + right. by exists s1', s2.
  - intros [[H1 H2]|(s1 & s2 & -> & H1 & H2)].
    + apply (lang_seq a b EmptyString _ H1 H2).
    + apply (lang_seq a b (String c s1) s2 H1 H2).
Qed.

Lemma deriv_lang c r s : lang (Re.deriv c r) s ↔ lang r (String c s).
Proof.
  revert s. induction r as [| |p|a IHa b IHb|a IHa b IHb|a IHa]; intros s; simpl.
  - split; by intros ?%lang_void_inv.
  - split; [by intros ?%lang_void_inv | by intros ?%lang_eps_inv].
  - destruct (p c) eqn:Hp; split.
    + intros ->%lang_eps_inv. by constructor.
    + intros (c' & [= -> ->] & _)%lang_class_inv. constructor.
    + by intros ?%lang_void_inv.
    + intros (c' & [= -> ->] & H)%lang_class_inv. congruence.
  - assert (lang (Re.Seq (Re.deriv c a) b) s
            ↔ ∃ s1 s2, s = s1 +:+ s2 ∧ lang a (String c s1) ∧ lang b s2) as Hseq.
    { split.
      - intros (s1 & s2 & -> & H1 & H2)%lang_seq_inv.
        exists s1, s2. split; [done|]. by rewrite <- IHa.
      - intros (s1 & s2 & -> & H1 & H2). constructor; [by apply IHa | done]. }
    rewrite lang_seq_cons. destruct (Re.nullable a) eqn:Hn.
    + split.
      * intros [H|H]%lang_alt_inv.
        -- right. by apply Hseq.
        -- left. split; [by apply nullable_lang | by apply IHb].
      * intros [[H1 H2]|H].
        -- apply lang_alt_r. by apply IHb.
        -- apply lang_alt_l. by apply Hseq.
    + rewrite Hseq. split; [by right|].
      intros [[H1 _]|H]; [|done].
      apply nullable_lang in H1. congruence.
  - split.
    + intros [H|H]%lang_alt_inv; [apply lang_alt_l, IHa | apply lang_alt_r, IHb]; done.
    + intros [H|H]%lang_alt_inv; [apply lang_alt_l, IHa | apply lang_alt_r, IHb]; done.
  - split.
    + intros (s1 & s2 & -> & H1 & H2)%lang_seq_inv.
      apply (lang_star_cons a (String c s1) s2); [by apply IHa | done].
    + intros H. destruct (lang_star_cons_inv a c s H) as (s1 & s2 & -> & H1 & H2).
      constructor; [by apply IHa | done].
Qed.

Lemma matches_lang r s : Re.matches r s = true ↔ lang r s.
Proof.
  revert r. induction s as [|c s IH]; intros r; simpl.
  - apply nullable_lang.
  - rewrite IH. apply deriv_lang.
Qed.

(** ** The languages of the classes *)

Lemma lang_star_class p s : lang (Re.Star (Re.Class p)) s ↔ allChars p s = true.
Proof.
  split.
  - intros H. remember (Re.Star (Re.Class p)) as r eqn:Hr. revert Hr.
    induction H as [| | | | | |a s1 s2 H1 _ H2 IH2]; try discriminate.
    + done.
    + intros [= ->]. apply lang_class_inv in H1 as (c & -> & Hc).
      rewrite append_cons, append_nil_l. simpl. by rewrite Hc, IH2.
  - induction s as [|c s IH]; [constructor|]. simpl.
    intros [Hc Hs]%andb_true_iff.
    apply (lang_star_cons _ (String c EmptyString) s); [by constructor | by apply IH].
Qed.

Lemma lang_plus_class p s :
  lang (Re.Plus (Re.Class p)) s ↔ s ≠ EmptyString ∧ allChars p s = true.
Proof.
  unfold Re.Plus. split.
  - intros (s1 & s2 & -> & (c & -> & Hc)%lang_class_inv & H2%lang_star_class)%lang_seq_inv.
    rewrite append_cons. split; [done|]. simpl. by rewrite Hc.
  - intros [Hne Hs]. destruct s as [|c s]; [done|]. simpl in Hs.
    apply andb_true_iff in Hs as [Hc Hs].
    apply (lang_seq _ _ (String c EmptyString) s); [by constructor|].
    by apply lang_star_class.
Qed.

Lemma lang_times_class p n s :
  lang (Re.Times n (Re.Class p)) s ↔ String.length s = n ∧ allChars p s = true.
Proof.
  revert s. induction n as [|n IH]; intros s; simpl.
  - split.
    + by intros ->%lang_eps_inv.
    + intros [Hl _]. destruct s; [constructor | discriminate].
  - split.
    + intros (s1 & s2 & -> & (c & -> & Hc)%lang_class_inv & H2%IH)%lang_seq_inv.
      destruct H2 as [Hl Hs]. rewrite append_cons, append_nil_l. cbn.
      by rewrite Hc, Hs, Hl.
    + intros [Hl Hs]. destruct s as [|c s]; [discriminate|]. simpl in *.
      apply andb_true_iff in Hs as [Hc Hs].
      apply (lang_seq _ _ (String c EmptyString) s); [by constructor|].
      apply IH. split; [congruence | done].
Qed.

Lemma lang_upto_class p k s :
  lang (Re.UpTo k (Re.Class p)) s ↔ String.length s ≤ k ∧ allChars p s = true.
Proof.
  revert s. induction k as [|k IH]; intros s; simpl.
  - split.
    + by intros ->%lang_eps_inv.
    + intros [Hl _]. destruct s; [constructor | simpl in Hl; lia].
  - unfold Re.Opt. split.
    + intros [->%lang_eps_inv|H]%lang_alt_inv; [simpl; split; [lia | done]|].
      apply lang_seq_inv in H
        as (s1 & s2 & -> & (c & -> & Hc)%lang_class_inv & [Hl Hs]%IH).
      rewrite append_cons, append_nil_l. cbn. rewrite Hc. split; [lia | done].
    + intros [Hl Hs]. destruct s as [|c s]; [apply lang_alt_l; constructor|].
      simpl in *. apply andb_true_iff in Hs as [Hc Hs]. apply lang_alt_r.
      apply (lang_seq _ _ (String c EmptyString) s); [by constructor|].
      apply IH. split; [lia | done].
Qed.

Lemma length_append s1 s2 :
  String.length (s1 +:+ s2) = String.length s1 + String.length s2.
Proof.
  induction s1 as [|c s1 IH]; [done|]. rewrite append_cons. simpl. by rewrite IH.
Qed.

Lemma split_at_length n s :
  n ≤ String.length s →
  ∃ s1 s2, s = s1 +:+ s2 ∧ String.length s1 = n.
Proof.
  revert s. induction n as [|n IH]; intros s Hl.
  - by exists EmptyString, s.
  - destruct s as [|c s]; [simpl in Hl; lia|]. simpl in Hl.
    destruct (IH s) as (s1 & s2 & -> & Hn); [lia|].
    exists (String c s1), s2. split; [done|]. simpl. by rewrite Hn.
Qed.

Lemma lang_between_class p n m s :
  n ≤ m →
  lang (Re.Between n m (Re.Class p)) s
  ↔ n ≤ String.length s ≤ m ∧ allChars p s = true.
Proof.
  intros Hnm. unfold Re.Between. split.
  - intros (s1 & s2 & -> & [Hl1 Hs1]%lang_times_class
             & [Hl2 Hs2]%lang_upto_class)%lang_seq_inv.
    rewrite length_append, allChars_append, Hs1, Hs2. split; [lia | done].
  - intros [Hl Hs]. destruct (split_at_length n s) as (s1 & s2 & -> & Hn); [lia|].
    rewrite allChars_append in Hs. apply andb_true_iff in Hs as [Hs1 Hs2].
    rewrite length_append in Hl.
    constructor; [by apply lang_times_class | apply lang_upto_class].
    split; [lia | done].
Qed.

(** ** What the two literals accept *)

Lemma telRegExp_shape v : telRegExp.(test) v = true ↔ telShape v.
Proof.
  unfold telRegExp, telShape. cbn [test]. rewrite matches_lang. split.
  - intros (s1 & s2 & -> & H1 & H2%lang_star_class)%lang_seq_inv.
    apply lang_alt_inv in H1 as [->%lang_eps_inv|(c & -> & Hc)%lang_class_inv].
    + by left.
    + right. apply bool_decide_eq_true in Hc as ->. by exists s2.
  - intros [H|(body & -> & H)].
    + apply (lang_seq _ _ EmptyString v); [apply lang_alt_l; constructor|].
      by apply lang_star_class.
    + apply (lang_seq _ _ (String "+" EmptyString) body).
      * apply lang_alt_r. constructor. by apply bool_decide_eq_true.
      * by apply lang_star_class.
Qed.

Lemma emailRegExp_shape v : emailRegExp.(test) v = true ↔ emailShape v.
Proof.
  unfold emailRegExp, emailShape. cbn [test]. rewrite matches_lang. split.
  - intros (l & r1 & -> & [Hl Hla]%lang_plus_class & H)%lang_seq_inv.
    apply lang_seq_inv in H as (sc & r2 & -> & (c & -> & Hc)%lang_class_inv & H).
    apply lang_seq_inv in H as (sa & r3 & -> & (a & -> & Ha)%lang_class_inv & H).
    apply lang_seq_inv in H as (d & r4 & -> & [Hd Hda]%lang_plus_class & H).
    apply lang_seq_inv in H as (sd & t & -> & (dot & -> & Hdot)%lang_class_inv & H).
    apply lang_between_class in H as [Ht Hta]; [|lia].
    apply bool_decide_eq_true in Ha as ->. apply bool_decide_eq_true in Hdot as ->.
    exists l, c, d, t. rewrite !append_cons, !append_nil_l. done.
  - intros (l & c & d & t & -> & Hl & Hla & Hc & Hd & Hda & Ht & Hta).
    constructor; [by apply lang_plus_class|].
    apply (lang_seq _ _ (String c EmptyString)); [by constructor|].
    apply (lang_seq _ _ (String "@" EmptyString));
      [constructor; by apply bool_decide_eq_true|].
    constructor; [by apply lang_plus_class|].
    apply (lang_seq _ _ (String "." EmptyString));
      [constructor; by apply bool_decide_eq_true|].
    apply lang_between_class; [lia | done].
Qed.

(** ** Trimming and the two basic checks *)

Lemma trimStart_split s :
  ∃ a, s = a +:+ Str.trimStart s ∧ allChars Str.isWhiteSpace a = true.
Proof.
  induction s as [|c s (a & Hs & Ha)]; [by exists EmptyString|]. simpl.
  destruct (Str.isWhiteSpace c) eqn:Hc.
  - exists (String c a). rewrite append_cons, <- Hs. simpl. by rewrite Hc.
  - by exists EmptyString.
Qed.

Lemma trimStart_first s c :
  firstChar (Str.trimStart s) = Some c → Str.isWhiteSpace c = false.
Proof.
  induction s as [|c' s IH]; [discriminate|]. simpl.
  destruct (Str.isWhiteSpace c') eqn:Hc; [exact IH|]. simpl. congruence.
Qed.

Lemma trimEnd_split s :
  ∃ b, s = Str.trimEnd s +:+ b ∧ allChars Str.isWhiteSpace b = true.
Proof.
  induction s as [|c s (b & Hs & Hb)]; [by exists EmptyString|]. simpl.
  destruct (Str.isWhiteSpace c && Str.isEmpty (Str.trimEnd s)) eqn:Hc.
  - apply andb_true_iff in Hc as [Hc He].
    destruct (Str.trimEnd s); [|discriminate]. rewrite append_nil_l in Hs.
    subst b. exists (String c s). rewrite append_nil_l. simpl. by rewrite Hc.
  - exists b. by rewrite append_cons, <- Hs.
Qed.

Lemma trimEnd_last s c :
  lastChar (Str.trimEnd s) = Some c → Str.isWhiteSpace c = false.
Proof.
  induction s as [|c' s IH]; [discriminate|]. simpl.
  destruct (Str.isWhiteSpace c' && Str.isEmpty (Str.trimEnd s)) eqn:Hc;
    [discriminate|].
  simpl. destruct (Str.trimEnd s) as [|c'' r] eqn:Hr; [|exact IH].
  intros [= <-]. simpl in Hc. by rewrite andb_true_r in Hc.
Qed.

Lemma trimEnd_first s c :
  firstChar (Str.trimEnd s) = Some c → firstChar s = Some c.
Proof.
  destruct s as [|c' s]; [discriminate|]. simpl.
  destruct (Str.isWhiteSpace c' && Str.isEmpty (Str.trimEnd s)); [discriminate|].
  done.
Qed.

Lemma trimStart_clean s :
  (∀ c, firstChar s = Some c → Str.isWhiteSpace c = false) → Str.trimStart s = s.
Proof.
  destruct s as [|c s]; [done|]. simpl. intros H. by rewrite (H c eq_refl).
Qed.

Lemma trimEnd_clean s :
  (∀ c, lastChar s = Some c → Str.isWhiteSpace c = false) → Str.trimEnd s = s.
Proof.
  induction s as [|c s IH]; [done|]. simpl. intros H.
  destruct s as [|c' s].
  - simpl. by rewrite (H c eq_refl).
  - rewrite IH by exact H. by rewrite andb_false_r.
Qed.

Lemma trim_first s c :
  firstChar (Str.trim s) = Some c → Str.isWhiteSpace c = false.
Proof. intros H%trimEnd_first. by eapply trimStart_first. Qed.

Lemma trim_last s c :
  lastChar (Str.trim s) = Some c → Str.isWhiteSpace c = false.
Proof. apply trimEnd_last. Qed.

Lemma trim_idempotent s : Str.trim (Str.trim s) = Str.trim s.
Proof.
  unfold Str.trim at 1. rewrite trimStart_clean by apply trim_first.
  apply trimEnd_clean, trim_last.
Qed.

Lemma trim_split s :
  ∃ a b, s = a +:+ Str.trim s +:+ b
         ∧ allChars Str.isWhiteSpace a = true ∧ allChars Str.isWhiteSpace b = true.
Proof.
  destruct (trimStart_split s) as (a & Hs & Ha).
  destruct (trimEnd_split (Str.trimStart s)) as (b & Hb & Hwb).
  exists a, b. split; [|done]. unfold Str.trim. by rewrite <- Hb.
Qed.

Lemma isEmpty_spec s : Str.isEmpty s = true ↔ s = EmptyString.
Proof. by destruct s. Qed.

Lemma trim_blank s :
  Str.isEmpty (Str.trim s) = true ↔ allChars Str.isWhiteSpace s = true.
Proof.
  split.
  - intros He%isEmpty_spec. destruct (trim_split s) as (a & b & Hs & Ha & Hb).
    rewrite Hs, He, !allChars_append, Ha, Hb. done.
  - intros H. apply isEmpty_spec. destruct (Str.trim s) as [|c r] eqn:Ht; [done|].
    destruct (trim_split s) as (a & b & Hs & Ha & Hb). rewrite Ht in Hs.
    rewrite Hs, !allChars_append in H. simpl in H.
    rewrite (trim_first s c) in H by (by rewrite Ht).
    by rewrite andb_false_r in H.
Qed.

(** X1.  [fieldChecks.empty] never reports an error and judges the value
    after trimming: the result is empty exactly when the raw value
    consists of white space only, and then [value] is [null]; otherwise
    [value] is the raw value with the white space at both ends taken
    away and nothing else changed. *)
Theorem empty_normalises raw :
  (fieldChecks.empty raw).(hasError) = false
  ∧ ((fieldChecks.empty raw).(isEmpty) = true
     ↔ allChars Str.isWhiteSpace raw = true)
  ∧ ((fieldChecks.empty raw).(value) = None
     ↔ (fieldChecks.empty raw).(isEmpty) = true)
  ∧ (∀ v, (fieldChecks.empty raw).(value) = Some v →
       (∃ a b, raw = a +:+ v +:+ b
               ∧ allChars Str.isWhiteSpace a = true
               ∧ allChars Str.isWhiteSpace b = true)
       ∧ (∃ c, firstChar v = Some c ∧ Str.isWhiteSpace c = false)
       ∧ (∃ c, lastChar v = Some c ∧ Str.isWhiteSpace c = false)).
Proof.
  split; [reflexivity|]. split; [apply trim_blank|].
  unfold fieldChecks.empty. cbn [value isEmpty]. split.
  - destruct (Str.isEmpty (Str.trim raw)); split; done.
  - intros v Hv. destruct (Str.isEmpty (Str.trim raw)) eqn:He; [discriminate|].
    injection Hv as <-. split; [apply trim_split|].
    destruct (Str.trim raw) as [|c r] eqn:Ht; [discriminate|]. split.
    + exists c. split; [done|]. apply (trim_first raw). by rewrite Ht.
    + destruct (lastChar (String c r)) as [c'|] eqn:Hl.
      * exists c'. split; [done|]. apply (trim_last raw). by rewrite Ht.
      * exfalso. clear -Hl. revert c Hl.
        induction r as [|c' r IH]; intros c; simpl; [discriminate | apply IH].
Qed.

Lemma empty_normalises_witness :
  ∃ a b, "  Ada Lovelace " = a +:+ "Ada Lovelace" +:+ b
         ∧ allChars Str.isWhiteSpace a = true
         ∧ allChars Str.isWhiteSpace b = true.
Proof.
  destruct (empty_normalises "  Ada Lovelace ") as (_ & _ & _ & H).
  apply (H "Ada Lovelace"). vm_compute. reflexivity.
Defined.

Lemma regExp_hasError raw r :
  (fieldChecks.regExp raw r).(hasError)
  = negb (Str.isEmpty (Str.trim raw)) && negb (r.(test) (Str.trim raw)).
Proof.
  unfold fieldChecks.regExp, fieldChecks.empty. cbn [value isEmpty].
  destruct (Str.isEmpty (Str.trim raw)); [done|].
  by destruct (test r (Str.trim raw)).
Qed.

(** X2.  [fieldChecks.regExp] tests the expression against the trimmed
    value and only when that is not empty: it reports an error exactly
    when the value is not blank and the expression rejects the trimmed
    value, and white space around the value never changes the result. *)
Theorem regExp_on_trimmed raw r :
  ((fieldChecks.regExp raw r).(hasError) = true
   ↔ allChars Str.isWhiteSpace raw = false ∧ r.(test) (Str.trim raw) = false)
  ∧ ((fieldChecks.regExp raw r).(isEmpty) = true
     ↔ allChars Str.isWhiteSpace raw = true)
  ∧ (∀ a b, allChars Str.isWhiteSpace a = true → allChars Str.isWhiteSpace b = true →
       fieldChecks.regExp (a +:+ raw +:+ b) r = fieldChecks.regExp raw r).
Proof.
  split; [|split].
  - rewrite regExp_hasError, andb_true_iff, !negb_true_iff.
    rewrite <- (not_true_iff_false (allChars _ _)), <- trim_blank,
      not_true_iff_false. done.
  - rewrite <- trim_blank. unfold fieldChecks.regExp, fieldChecks.empty.
    cbn [value isEmpty]. destruct (Str.isEmpty (Str.trim raw)); [done|].
    by destruct (test r (Str.trim raw)).
  - intros a b Ha Hb.
    assert (Str.trim (a +:+ raw +:+ b) = Str.trim raw) as Ht.
    { clear r. unfold Str.trim.
      assert (∀ x, Str.trimStart (a +:+ x) = Str.trimStart x) as ->.
      { intros x. induction a as [|c a IH]; [done|]. rewrite append_cons.
        simpl in *. apply andb_true_iff in Ha as [-> Ha]. by apply IH. }
      assert (∀ x, Str.trimEnd (x +:+ b) = Str.trimEnd x) as Hend.
      { assert (Str.trimEnd b = EmptyString) as Hbe.
        { clear Ha. induction b as [|c b IH]; [done|]. simpl in *.
          apply andb_true_iff in Hb as [-> Hb]. by rewrite IH. }
        intros x. induction x as [|c x IH].
        - by rewrite append_nil_l.
        - rewrite append_cons. simpl. by rewrite IH. }
      destruct (trimStart_split raw) as (a' & Hr & Ha').
      assert (∀ x y, allChars Str.isWhiteSpace x = true →
                Str.trimStart (x +:+ y) = Str.trimStart y) as Hpre.
      { intros x y Hx. induction x as [|c x IH]; [done|]. rewrite append_cons.
        simpl in *. apply andb_true_iff in Hx as [-> Hx]. by apply IH. }
      destruct (decide (Str.trimStart raw = EmptyString)) as [He|Hne].
      - rewrite He. rewrite Hr, He, append_nil_r.
        rewrite <- (append_nil_r (a' +:+ b)), Hpre; [done|].
        by rewrite allChars_append, Ha', Hb.
      - assert (Str.trimStart (raw +:+ b) = Str.trimStart raw +:+ b) as ->;
          [|apply Hend].
        rewrite Hr at 1. rewrite append_assoc, Hpre by done.
        destruct (Str.trimStart raw) as [|c x] eqn:Hx; [done|].
        rewrite append_cons. simpl.
        by rewrite (trimStart_first raw c) by (by rewrite Hx). }
    unfold fieldChecks.regExp, fieldChecks.empty. cbn [value isEmpty].
    by rewrite Ht.
Qed.

Lemma regExp_on_trimmed_witness :
  fieldChecks.regExp (" " +:+ "abc 123" +:+ "  ") Sample.letters
  = fieldChecks.regExp "abc 123" Sample.letters.
Proof.
  destruct (regExp_on_trimmed "abc 123" Sample.letters) as (_ & _ & H).
  apply H; reflexivity.
Defined.

(** X3.  The telephone check accepts exactly the values that, once
    trimmed, are an optional plus sign followed by any number (zero
    included) of digits, dots, hashes, hyphens, parentheses, asterisks,
    slashes and white space; no digit is required. *)
Theorem tel_check_accepts raw :
  (fieldChecks.tel raw).(hasError) = false ↔ telShape (Str.trim raw).
Proof.
  unfold fieldChecks.tel. rewrite regExp_hasError, andb_false_iff, !negb_false_iff.
  rewrite telRegExp_shape. split; [|by right].
  intros [He%isEmpty_spec|H]; [|done]. rewrite He. by left.
Qed.

(** X4.  The e-mail check accepts exactly the blank values and the values
    that, once trimmed, read: a local part of letters, digits, dots,
    underscores and hyphens, ending with a letter or digit and at least
    two characters long; an at sign; a domain label of letters, digits
    and hyphens; a dot; and two to five letters or dots. *)
Theorem email_check_accepts raw :
  (fieldChecks.email raw).(hasError) = false
  ↔ allChars Str.isWhiteSpace raw = true ∨ emailShape (Str.trim raw).
Proof.
  unfold fieldChecks.email.
  rewrite regExp_hasError, andb_false_iff, !negb_false_iff.
  by rewrite emailRegExp_shape, trim_blank.
Qed.

(** ** closest *)

(** X5.  [closest] answers the first element of the parent chain that
    matches the selector, and [null] exactly when no element of the chain
    matches. *)
Theorem closest_first_match chain selector :
  (closest chain selector = None
   ↔ ∀ el, el ∈ chain → el.(elMatches) selector = false)
  ∧ (∀ w, closest chain selector = Some w →
       ∃ pre el post,
         chain = pre ++ el :: post ∧ el.(elementId) = w
         ∧ el.(elMatches) selector = true
         ∧ ∀ e, e ∈ pre → e.(elMatches) selector = false).
Proof.
  induction chain as [|el chain [IHn IHs]]; simpl.
  - split; [split; [intros _ el H; inversion H | done] | discriminate].
  - destruct (elMatches el selector) eqn:Hm.
    + split.
      * split; [discriminate|]. intros H. rewrite (H el) in Hm; [done | by left].
      * intros w [= <-]. exists [], el, chain. split; [done|].
        split; [done|]. split; [done|]. intros e He. inversion He.
    + split.
      * rewrite IHn. split.
        -- intros H e [->|He]%elem_of_cons; auto.
        -- intros H e He. apply H. by right.
      * intros w Hw. destruct (IHs w Hw) as (pre & e & post & -> & Hid & He & Hpre).
        exists (el :: pre), e, post. split; [done|]. split; [done|]. split; [done|].
        intros x [->|Hx]%elem_of_cons; auto.
Qed.

Lemma closest_first_match_witness :
  ∃ pre el post,
    [ {| elementId := 3; elMatches := λ _, false |}; Sample.group 10; Sample.group 20 ]
    = pre ++ el :: post
    ∧ el.(elementId) = 10
    ∧ el.(elMatches) ".form__group" = true
    ∧ ∀ e, e ∈ pre → e.(elMatches) ".form__group" = false.
Proof.
  destruct (closest_first_match
              [ {| elementId := 3; elMatches := λ _, false |};
                Sample.group 10; Sample.group 20 ] ".form__group") as (_ & H).
  apply H. reflexivity.
Defined.

(** ** The error block *)

Lemma showError_existing field w m cssClass s b :
  s.(errorBlocks) !! w = Some b →
  showError field (Some w) m cssClass s
  = (Normal false,
     setErrorBlocks
       (<[w := {| blockClasses := blockClasses (revealed b); innerHTML := span m |}]>
          s.(errorBlocks)) s).
Proof. intros H. unfold showError. run. by rewrite H. Qed.

Lemma showError_new field w m cssClass s :
  s.(errorBlocks) !! w = None →
  showError field (Some w) m cssClass s
  = (Normal false,
     setTimers (s.(timers) ++ [w])
       (setErrorBlocks (<[w := newBlock field m cssClass]> s.(errorBlocks)) s)).
Proof. intros H. unfold showError. run. by rewrite H. Qed.

Lemma hideError_existing w cssClass s b :
  s.(errorBlocks) !! w = Some b →
  hideError (Some w) cssClass s
  = (Normal tt, setErrorBlocks (<[w := hidden b]> s.(errorBlocks)) s).
Proof. intros H. unfold hideError. run. by rewrite H. Qed.

Lemma hideError_absent w cssClass s :
  s.(errorBlocks) !! w = None → hideError (Some w) cssClass s = (Normal tt, s).
Proof. intros H. unfold hideError. run. by rewrite H. Qed.

Lemma revealed_visible b : "is-hidden" ∉ blockClasses (revealed b).
Proof. unfold revealed. cbn [blockClasses]. rewrite classList_remove_elem. tauto. Qed.

Lemma runTimer_lookup w s :
  (runTimer w s).(errorBlocks) !! w = revealed <$> s.(errorBlocks) !! w.
Proof. unfold runTimer. cbn [errorBlocks setErrorBlocks]. apply lookup_alter_eq. Qed.

(** X6.  [showError] always ends with the message displayed in the
    container and returns [false]: a block already there is reused and
    un-hidden at once, with no timer; otherwise a block is created
    hidden, one timer is queued, and the block is visible once that timer
    has run.  No other container, no control and no event is touched. *)
Theorem showError_shows field w m cssClass s :
  let s' := (showError field (Some w) m cssClass s).2 in
  (showError field (Some w) m cssClass s).1 = Normal false
  ∧ innerHTML <$> s'.(errorBlocks) !! w = Some (span m)
  ∧ (∀ j, j ≠ w → s'.(errorBlocks) !! j = s.(errorBlocks) !! j)
  ∧ s'.(nodes) = s.(nodes) ∧ s'.(dispatched) = s.(dispatched)
  ∧ (is_Some (s.(errorBlocks) !! w) →
     s'.(timers) = s.(timers)
     ∧ ∃ b', s'.(errorBlocks) !! w = Some b' ∧ ("is-hidden" ∉ blockClasses b'))
  ∧ (s.(errorBlocks) !! w = None →
     s'.(timers) = s.(timers) ++ [w]
     ∧ (∃ b', s'.(errorBlocks) !! w = Some b' ∧ "is-hidden" ∈ blockClasses b')
     ∧ ∃ b'', (runTimer w s').(errorBlocks) !! w = Some b''
              ∧ ("is-hidden" ∉ blockClasses b'') ∧ innerHTML b'' = span m).
Proof.
  destruct (errorBlocks s !! w) as [b|] eqn:Hb.
  - rewrite (showError_existing field w m cssClass s b Hb).
    cbn [fst snd errorBlocks setErrorBlocks nodes dispatched timers].
    rewrite lookup_insert_eq. split; [done|]. split; [done|].
    split; [by intros j Hj; rewrite lookup_insert_ne|]. split; [done|]. split; [done|].
    split; [|discriminate]. intros _. split; [done|]. eexists. split; [done|].
    apply revealed_visible.
  - rewrite (showError_new field w m cssClass s Hb).
    cbn [fst snd errorBlocks setErrorBlocks setTimers nodes dispatched timers].
    rewrite lookup_insert_eq. split; [done|]. split; [done|].
    split; [by intros j Hj; rewrite lookup_insert_ne|]. split; [done|]. split; [done|].
    split; [by intros [? ?]|]. intros _. split; [done|]. split.
    + eexists. split; [done|]. cbn [newBlock blockClasses]. set_solver.
    + rewrite runTimer_lookup. cbn [errorBlocks setErrorBlocks setTimers].
      rewrite lookup_insert_eq. eexists. split; [done|].
      split; [apply revealed_visible | done].
Qed.

Lemma showError_shows_witness :
  let s := builder ModuleExport (Sample.page [Sample.requiredBlank] Sample.formTag) in
  let s' := (showError Sample.requiredBlank (Some 13) (Str "!") "form__error-block" s).2 in
  s'.(timers) = s.(timers) ++ [13]
  ∧ (∃ b', s'.(errorBlocks) !! 13 = Some b' ∧ "is-hidden" ∈ blockClasses b')
  ∧ ∃ b'', (runTimer 13 s').(errorBlocks) !! 13 = Some b''
           ∧ ("is-hidden" ∉ blockClasses b'') ∧ innerHTML b'' = span (Str "!").
Proof.
  intros s s'.
  destruct (showError_shows Sample.requiredBlank 13 (Str "!") "form__error-block" s)
    as (_ & _ & _ & _ & _ & _ & H).
  apply H. vm_compute. reflexivity.
Defined.

Lemma classList_add_twice c cl : classList.add c (classList.add c cl) = classList.add c cl.
Proof.
  unfold classList.add at 1. unfold classList.contains.
  by rewrite (bool_decide_eq_true_2 _ (classList_add_elem c cl)).
Qed.

(** X7.  [hideError] never creates a block: on a container without error
    block it changes nothing.  On a block it adds [is-hidden] and keeps
    the message, and doing it twice is the same as doing it once. *)
Theorem hideError_hides w cssClass s :
  let s' := (hideError (Some w) cssClass s).2 in
  (hideError (Some w) cssClass s).1 = Normal tt
  ∧ (s.(errorBlocks) !! w = None → s' = s)
  ∧ (∀ b, s.(errorBlocks) !! w = Some b →
       ∃ b', s'.(errorBlocks) !! w = Some b'
             ∧ "is-hidden" ∈ blockClasses b' ∧ innerHTML b' = innerHTML b)
  ∧ (hideError (Some w) cssClass s').2 = s'.
Proof.
  destruct (errorBlocks s !! w) as [b|] eqn:Hb.
  - rewrite (hideError_existing w cssClass s b Hb).
    cbn [fst snd errorBlocks setErrorBlocks].
    split; [done|]. split; [discriminate|]. split.
    + intros b0 [= <-]. rewrite lookup_insert_eq. eexists. split; [done|].
      split; [apply classList_add_elem | done].
    + rewrite (hideError_existing w cssClass _ (hidden b));
        [|cbn [errorBlocks setErrorBlocks]; apply lookup_insert_eq].
      cbn [snd errorBlocks setErrorBlocks]. rewrite insert_insert_eq.
      unfold hidden at 1. cbn [blockClasses innerHTML hidden].
      by rewrite classList_add_twice.
  - rewrite (hideError_absent w cssClass s Hb). cbn [fst snd].
    split; [done|]. split; [done|]. split; [discriminate|].
    by rewrite (hideError_absent w cssClass s Hb).
Qed.

Lemma hideError_hides_witness :
  let s := builder ModuleExport (Sample.page [Sample.requiredBlank] Sample.formTag) in
  (hideError (Some 13) "form__error-block" s).2 = s.
Proof.
  intros s.
  destruct (hideError_hides 13 "form__error-block" s) as (_ & H & _).
  apply H. vm_compute. reflexivity.
Defined.

(** X8.  Hiding does not cancel the reveal that [showError] has queued:
    when a block is created, then hidden before its timer has run, the
    timer still removes [is-hidden], and the block ends up visible with
    its message. *)
Theorem hide_does_not_cancel_reveal field w m cssClass s :
  s.(errorBlocks) !! w = None →
  let s1 := (showError field (Some w) m cssClass s).2 in
  let s2 := (hideError (Some w) cssClass s1).2 in
  w ∈ s2.(timers)
  ∧ ∃ b, (runTimer w s2).(errorBlocks) !! w = Some b
         ∧ ("is-hidden" ∉ blockClasses b) ∧ innerHTML b = span m.
Proof.
  intros Hb. rewrite (showError_new field w m cssClass s Hb). cbn [snd].
  rewrite (hideError_existing w cssClass _ (newBlock field m cssClass));
    [|cbn [errorBlocks setErrorBlocks setTimers]; apply lookup_insert_eq].
  cbn [snd timers setTimers setErrorBlocks]. split; [set_solver|].
  rewrite runTimer_lookup. cbn [errorBlocks setErrorBlocks setTimers].
  rewrite lookup_insert_eq. eexists. split; [done|].
  split; [apply revealed_visible | done].
Qed.

Lemma hide_does_not_cancel_reveal_witness :
  let s := builder ModuleExport (Sample.page [Sample.requiredBlank] Sample.formTag) in
  let s1 := (showError Sample.requiredBlank (Some 13) (Str "!") "form__error-block" s).2 in
  let s2 := (hideError (Some 13) "form__error-block" s1).2 in
  13 ∈ s2.(timers)
  ∧ ∃ b, (runTimer 13 s2).(errorBlocks) !! 13 = Some b
         ∧ ("is-hidden" ∉ blockClasses b) ∧ innerHTML b = span (Str "!").
Proof.
  apply (hide_does_not_cancel_reveal Sample.requiredBlank 13 (Str "!")
           "form__error-block"
           (builder ModuleExport (Sample.page [Sample.requiredBlank] Sample.formTag))).
  vm_compute. reflexivity.
Defined.

(** ** The registry *)

Lemma lookupCheck_assign k c o : lookupCheck k (assign k c o) = Some c.
Proof.
  induction o as [|[k' c'] rest IH]; simpl.
  - by rewrite decide_True.
  - case_decide as Hk; simpl; [by rewrite decide_True|].
    destruct (arrayIndex k) as [i|], (arrayIndex k') as [j|]; simpl;
      try (destruct (i <? j)%N; simpl);
      rewrite ?decide_True by done; rewrite ?(decide_False _ _ Hk); done.
Qed.

Lemma lookupCheck_assign_ne k k' c o :
  k' ≠ k → lookupCheck k' (assign k c o) = lookupCheck k' o.
Proof.
  intros Hne. induction o as [|[k0 c0] rest IH]; simpl.
  - by rewrite decide_False.
  - case_decide as Hk; simpl.
    { subst k0. by rewrite !decide_False. }
    destruct (arrayIndex k) as [i|], (arrayIndex k0) as [j|]; simpl;
      try (destruct (i <? j)%N; simpl);
      rewrite ?(decide_False (P := k = k')) by done;
      try rewrite IH; done.
Qed.

Lemma assign_keys k c o x :
  x ∈ (assign k c o).*1 ↔ x = k ∨ x ∈ o.*1.
Proof.
  induction o as [|[k0 c0] rest IH]; simpl.
  - rewrite list_elem_of_singleton. split; [by left|].
    intros [?|H]; [done | inversion H].
  - case_decide as Hk; simpl.
    { subst k0. rewrite elem_of_cons. tauto. }
    destruct (arrayIndex k) as [i|], (arrayIndex k0) as [j|]; simpl;
      try (destruct (i <? j)%N; simpl);
      rewrite ?elem_of_cons, ?IH; tauto.
Qed.

Lemma enumeratedBefore_trans k1 k2 k3 :
  enumeratedBefore k1 k2 → enumeratedBefore k2 k3 → enumeratedBefore k1 k3.
Proof.
  unfold enumeratedBefore.
  destruct (arrayIndex k1), (arrayIndex k2), (arrayIndex k3); try done. lia.
Qed.

Lemma wellKept_assign k c o : wellKept o → wellKept (assign k c o).
Proof.
  induction 1 as [|k0 c0 o Hall Hk IH]; simpl.
  { repeat constructor. }
  case_decide as Hk0.
  { subst k0. by constructor. }
  assert (wellKept ((k0, c0) :: o)) as Hold by (by constructor).
  assert (enumeratedBefore k k0 → ¬ enumeratedBefore k0 k →
          wellKept ((k, c) :: (k0, c0) :: o)) as Hfront.
  { intros Hb Hnb. constructor; [|done]. constructor.
    - split; [done | done].
    - eapply Forall_impl; [exact Hall|]. intros [x cx] [Hx Hbx]. simpl in *.
      split; [|by eapply enumeratedBefore_trans].
      intros ->. done. }
  assert (enumeratedBefore k0 k →
          wellKept ((k0, c0) :: assign k c o)) as Hback.
  { intros Hb. constructor; [|done]. apply Forall_forall. intros [x cx] Hx.
    assert (x ∈ (assign k c o).*1) as Hin.
    { apply list_elem_of_fmap. by exists (x, cx). }
    apply assign_keys in Hin as [->|Hin]; [done|].
    apply list_elem_of_fmap in Hin as ([x' cx'] & -> & Hin).
    rewrite Forall_forall in Hall. apply (Hall _ Hin). }
  unfold enumeratedBefore in Hfront, Hback.
  destruct (arrayIndex k) as [i|] eqn:Hi, (arrayIndex k0) as [j|] eqn:Hj.
  - destruct (i <? j)%N eqn:Hlt.
    + apply N.ltb_lt in Hlt. apply Hfront; lia.
    + apply N.ltb_ge in Hlt. by apply Hback.
  - apply Hfront; [done | tauto].
  - by apply Hback.
  - by apply Hback.
Qed.

Lemma wellKept_NoDup o : wellKept o → NoDup o.*1.
Proof.
  induction 1 as [|k c o Hall Hk IH]; simpl; constructor; [|done].
  intros ([x cx] & -> & Hin)%list_elem_of_fmap.
  rewrite Forall_forall in Hall. by destruct (Hall _ Hin).
Qed.

Lemma assign_present k c o :
  wellKept o → k ∈ o.*1 →
  assign k c o = (λ kc, if decide (kc.1 = k) then (k, c) else kc) <$> o.
Proof.
  induction 1 as [|k0 c0 o Hall Hk IH]; [by intros ?%elem_of_nil|].
  rewrite !fmap_cons. cbn [fst assign]. rewrite Forall_forall in Hall.
  case_decide as Hk0.
  - intros _. subst k0. f_equal. clear IH Hk.
    induction o as [|[x cx] o IH]; [done|]. rewrite fmap_cons. cbn [fst].
    destruct (Hall (x, cx)) as [Hx _]; [by left|]. cbn [fst] in Hx.
    rewrite decide_False by done. f_equal. apply IH.
    intros y Hy. apply Hall. by right.
  - intros [Heq|Hin]%elem_of_cons; [done|]. specialize (IH Hin).
    apply list_elem_of_fmap in Hin as ([x cx] & -> & Hin).
    destruct (Hall _ Hin) as [_ Hb]. unfold enumeratedBefore in Hb. cbn [fst] in *.
    destruct (arrayIndex x) as [i|], (arrayIndex k0) as [j|]; try done.
    + assert ((i <? j)%N = false) as -> by (apply N.ltb_ge; lia). by rewrite IH.
    + by rewrite IH.
    + by rewrite IH.
Qed.

Lemma assign_absent k c o :
  wellKept o → k ∉ o.*1 →
  ∃ l1 l2, o = l1 ++ l2 ∧ assign k c o = l1 ++ (k, c) :: l2
    ∧ (arrayIndex k = None → l2 = [])
    ∧ (∀ i, arrayIndex k = Some i →
         Forall (λ x, ∃ j, arrayIndex x.1 = Some j ∧ (j ≤ i)%N) l1
         ∧ Forall (λ x, ∀ j, arrayIndex x.1 = Some j → (i < j)%N) l2).
Proof.
  induction 1 as [|k0 c0 o Hall Hk IH]; intros Hnot.
  { exists [], []. split; [done|]. split; [done|]. split; [done|].
    intros i _. by split. }
  rewrite fmap_cons in Hnot. cbn [fst] in Hnot.
  apply not_elem_of_cons in Hnot as [Hne Hnot].
  destruct (IH Hnot) as (l1 & l2 & Ho & Ha & Hnone & Hsome).
  cbn [assign]. rewrite decide_False by done.
  assert (∃ l1' l2', (k0, c0) :: o = l1' ++ l2'
            ∧ (k0, c0) :: assign k c o = l1' ++ (k, c) :: l2'
            ∧ l1' = (k0, c0) :: l1 ∧ l2' = l2) as Hback.
  { exists ((k0, c0) :: l1), l2. split; [by rewrite Ho at 1|].
    split; [by rewrite Ha | done]. }
  rewrite Forall_forall in Hall.
  destruct (arrayIndex k) as [i|] eqn:Hi, (arrayIndex k0) as [j|] eqn:Hj.
  - destruct (i <? j)%N eqn:Hlt.
    + apply N.ltb_lt in Hlt. exists [], ((k0, c0) :: o).
      split; [done|]. split; [done|]. split; [done|].
      intros i' [= <-]. split; [done|]. apply Forall_cons. split.
      * cbn [fst]. intros j'. rewrite Hj. intros [= <-]. done.
      * apply Forall_forall. intros [x cx] Hx j' Hj'. cbn [fst] in *.
        destruct (Hall _ Hx) as [_ Hb]. unfold enumeratedBefore in Hb.
        cbn [fst] in Hb. rewrite Hj, Hj' in Hb. lia.
    + apply N.ltb_ge in Hlt. destruct Hback as (l1' & l2' & H1 & H2 & -> & ->).
      exists ((k0, c0) :: l1), l2. split; [done|]. split; [done|].
      split; [done|]. intros i' [= <-]. destruct (Hsome i eq_refl) as [F1 F2].
      split; [|done]. apply Forall_cons. split; [|done]. cbn [fst]. by exists j.
  - exists [], ((k0, c0) :: o). split; [done|]. split; [done|]. split; [done|].
    intros i' [= <-]. split; [done|]. apply Forall_cons. split.
    + cbn [fst]. intros j'. by rewrite Hj.
    + apply Forall_forall. intros [x cx] Hx j' Hj'. cbn [fst] in *.
      destruct (Hall _ Hx) as [_ Hb]. unfold enumeratedBefore in Hb.
      cbn [fst] in Hb. by rewrite Hj, Hj' in Hb.
  - destruct Hback as (l1' & l2' & H1 & H2 & -> & ->).
    exists ((k0, c0) :: l1), l2. split; [done|]. split; [done|].
    split; [by apply Hnone|]. intros i' [=].
  - destruct Hback as (l1' & l2' & H1 & H2 & -> & ->).
    exists ((k0, c0) :: l1), l2. split; [done|]. split; [done|].
    split; [by apply Hnone|]. intros i' [=].
Qed.

(** X9.  A successful [setFieldCheck] stores the checker under the name:
    reading the name back gives the new checker, and the checkers of the
    other names are as before.  A name already registered is overwritten
    in place: the registry is the old one with the checker of that entry
    replaced, every entry at the position it had.  A new name is
    inserted without moving the others: at the end when it is not an
    array index, and otherwise after the indices up to its own and
    before the larger indices and the other names.  The registry still
    holds every name once, so a rule contributes one candidate however
    often it is registered. *)
Theorem setFieldCheck_registers name check s :
  isString name && usable check = true →
  wellKept s.(customChecks) →
  ∃ k c s', name = JsString k
    ∧ setFieldCheck name check s = (Normal tt, s')
    ∧ lookupCheck k s'.(customChecks) = Some c
    ∧ (∀ field raw cfg,
         callChecker c raw field cfg
         = match check with
           | JsRegExp r => fieldChecks.regExp raw r
           | JsFunction f =>
               {| hasError := negb (f raw field cfg);
                  isEmpty := (fieldChecks.empty raw).(isEmpty);
                  value := (fieldChecks.empty raw).(value) |}
           | _ => fieldChecks.empty raw
           end)
    ∧ (∀ k', k' ≠ k →
         lookupCheck k' s'.(customChecks) = lookupCheck k' s.(customChecks))
    ∧ (∀ x, x ∈ s'.(customChecks).*1 ↔ x = k ∨ x ∈ s.(customChecks).*1)
    ∧ wellKept s'.(customChecks) ∧ NoDup s'.(customChecks).*1
    ∧ (k ∈ s.(customChecks).*1 →
       s'.(customChecks)
       = (λ kc, if decide (kc.1 = k) then (k, c) else kc) <$> s.(customChecks))
    ∧ (k ∉ s.(customChecks).*1 →
       ∃ l1 l2, s.(customChecks) = l1 ++ l2
         ∧ s'.(customChecks) = l1 ++ (k, c) :: l2
         ∧ (arrayIndex k = None → l2 = [])
         ∧ (∀ i, arrayIndex k = Some i →
              Forall (λ x, ∃ j, arrayIndex x.1 = Some j ∧ (j ≤ i)%N) l1
              ∧ Forall (λ x, ∀ j, arrayIndex x.1 = Some j → (i < j)%N) l2)).
Proof.
  intros Hok Hwk.
  destruct name as [| | | |k| | |]; try discriminate.
  destruct check as [| | | | |r|f|]; try discriminate.
  - exists k, (RegExpChecker r). eexists. split; [done|]. split; [reflexivity|].
    cbn [customChecks setCustomChecks].
    split; [apply lookupCheck_assign|]. split; [done|].
    split; [intros; by apply lookupCheck_assign_ne|].
    split; [apply assign_keys|].
    split; [by apply wellKept_assign|].
    split; [by apply wellKept_NoDup, wellKept_assign|].
    split; [by apply assign_present | by apply assign_absent].
  - exists k, (FunctionChecker f). eexists. split; [done|]. split; [reflexivity|].
    cbn [customChecks setCustomChecks].
    split; [apply lookupCheck_assign|]. split; [done|].
    split; [intros; by apply lookupCheck_assign_ne|].
    split; [apply assign_keys|].
    split; [by apply wellKept_assign|].
    split; [by apply wellKept_NoDup, wellKept_assign|].
    split; [by apply assign_present | by apply assign_absent].
Qed.

Lemma setFieldCheck_registers_witness :
  ∃ k c s', JsString "foo" = JsString k
    ∧ setFieldCheck (JsString "foo") (JsFunction Sample.never)
        (Sample.scenario ModuleExport) = (Normal tt, s')
    ∧ lookupCheck k s'.(customChecks) = Some c
    ∧ (∀ field raw cfg,
         callChecker c raw field cfg
         = {| hasError := negb (Sample.never raw field cfg);
              isEmpty := (fieldChecks.empty raw).(isEmpty);
              value := (fieldChecks.empty raw).(value) |})
    ∧ (∀ k', k' ≠ k →
         lookupCheck k' s'.(customChecks)
         = lookupCheck k' (Sample.scenario ModuleExport).(customChecks))
    ∧ (∀ x, x ∈ s'.(customChecks).*1
            ↔ x = k ∨ x ∈ (Sample.scenario ModuleExport).(customChecks).*1)
    ∧ wellKept s'.(customChecks) ∧ NoDup s'.(customChecks).*1
    ∧ (k ∈ (Sample.scenario ModuleExport).(customChecks).*1 →
       s'.(customChecks)
       = (λ kc, if decide (kc.1 = k) then (k, c) else kc)
           <$> (Sample.scenario ModuleExport).(customChecks))
    ∧ (k ∉ (Sample.scenario ModuleExport).(customChecks).*1 →
       ∃ l1 l2, (Sample.scenario ModuleExport).(customChecks) = l1 ++ l2
         ∧ s'.(customChecks) = l1 ++ (k, c) :: l2
         ∧ (arrayIndex k = None → l2 = [])
         ∧ (∀ i, arrayIndex k = Some i →
              Forall (λ x, ∃ j, arrayIndex x.1 = Some j ∧ (j ≤ i)%N) l1
              ∧ Forall (λ x, ∀ j, arrayIndex x.1 = Some j → (i < j)%N) l2)).
Proof.
  apply (setFieldCheck_registers (JsString "foo") (JsFunction Sample.never)
           (Sample.scenario ModuleExport)); [reflexivity|].
  vm_compute. repeat constructor.
Defined.

(** ** Custom rules from registration to verdict *)

Lemma split_nonempty sep s : Str.split sep s ≠ [].
Proof.
  destruct s as [|c s]; simpl; [done|].
  case_decide; [done|]. by destruct (Str.split sep s).
Qed.

(** X10.  The configuration tokens of a rule on a field are the pieces of
    the attribute value between commas: there is always at least one
    (an empty attribute gives one empty token), there is one more than
    there are commas, none contains a comma, and joined with commas they
    give the attribute value back. *)
Theorem config_tokens v :
  Str.split "," v ≠ []
  ∧ length (Str.split "," v) = S (countChar "," v)
  ∧ Forall (λ t, countChar "," t = 0) (Str.split "," v)
  ∧ joinWith "," (Str.split "," v) = v
  ∧ (∀ g field k cfg,
       dataConfig g field k = Some cfg →
       ∃ a, cfg = Str.split "," a
            ∧ a = joinWith "," cfg
            ∧ match g with
              | ObjectPrototype =>
                  ∃ n, dataName k = Some n
                       ∧ dataset field.(Field.attributes) ("validate" +:+ n) = Some a
              | _ =>
                  getAttribute field.(Field.attributes) ("data-validate-" +:+ k) = Some a
              end).
Proof.
  assert (∀ s, length (Str.split "," s) = S (countChar "," s)
               ∧ Forall (λ t, countChar "," t = 0) (Str.split "," s)
               ∧ joinWith "," (Str.split "," s) = s) as H.
  { induction s as [|c s IH].
    - repeat split; repeat constructor.
    - pose proof (split_nonempty "," s) as Hne. cbn [Str.split countChar].
      destruct (Str.split "," s) as [|t ts] eqn:Hs; [done|].
      destruct IH as (Hl & Hf & Hj). apply Forall_cons in Hf as [Ht Hts].
      case_decide as Hc.
      + subst c. split; [cbn [length] in *; lia|].
        split; [by repeat constructor|].
        change (joinWith "," (EmptyString :: t :: ts))
          with (EmptyString +:+ String "," (joinWith "," (t :: ts))).
        by rewrite append_nil_l, Hj.
      + split; [cbn [length] in *; lia|]. split.
        * constructor; [|done]. cbn [countChar]. by rewrite decide_False, Ht.
        * destruct ts as [|t' ts].
          -- cbn [joinWith] in *. by rewrite Hj.
          -- change (joinWith "," (String c t :: t' :: ts))
               with (String c t +:+ String "," (joinWith "," (t' :: ts))).
             change (joinWith "," (t :: t' :: ts))
               with (t +:+ String "," (joinWith "," (t' :: ts))) in Hj.
             by rewrite append_cons, Hj. }
  split; [apply split_nonempty|]. destruct (H v) as (Hl & Hf & Hj).
  split; [done|]. split; [done|]. split; [done|].
  intros g field k cfg Hcfg. unfold dataConfig in Hcfg.
  destruct g.
  - destruct (dataName k) as [n|]; [|discriminate]. cbn [mbind option_bind] in Hcfg.
    destruct (dataset _ _) as [a|] eqn:Ha; [|discriminate].
    injection Hcfg as <-. exists a. destruct (H a) as (_ & _ & Hja).
    split; [done|]. split; [done|]. by exists n.
  - destruct (getAttribute _ _) as [a|] eqn:Ha; [|discriminate].
    injection Hcfg as <-. exists a. by destruct (H a) as (_ & _ & Hja).
  - destruct (getAttribute _ _) as [a|] eqn:Ha; [|discriminate].
    injection Hcfg as <-. exists a. by destruct (H a) as (_ & _ & Hja).
Qed.

Lemma config_tokens_witness :
  ∃ a, ["3"; "16"] = Str.split "," a
       ∧ a = joinWith "," ["3"; "16"]
       ∧ getAttribute
           (Sample.control "text" [("data-validate-len", "3,16")] "" "n" 1).(Field.attributes)
           ("data-validate-" +:+ "len") = Some a.
Proof.
  destruct (config_tokens "") as (_ & _ & _ & _ & H).
  apply (H ModuleExport
           (Sample.control "text" [("data-validate-len", "3,16")] "" "n" 1) "len").
  vm_compute. reflexivity.
Defined.

(** X11.  Registration to verdict.  On an instance whose only rule is [k],
    with its message on the form tag, a field that carries the attribute
    of [k], is not required and is neither an e-mail nor a telephone
    control fails exactly when its value is not blank and the checker
    reports an error: for a regular expression, when it rejects the
    trimmed value; for a function, when it answers false on the raw
    value, the field and the tokens.  The block then shows the message
    of [k]. *)
Theorem custom_rule_round_trip g p s k c fid field w cfg :
  s.(customChecks) = [(k, c)] →
  truthy (formMessage g s.(formAttributes) k) = true →
  s.(nodes) !! fid = Some field → formGroup p field = Some w →
  hasAttribute field.(Field.attributes) "required" = false →
  field.(Field.type) ≠ "email" → field.(Field.type) ≠ "tel" →
  dataConfig g field k = Some cfg →
  ∃ b s', validateField g p fid s = (Normal b, s')
    ∧ (b = false ↔
       allChars Str.isWhiteSpace field.(Field.value) = false
       ∧ match c with
         | RegExpChecker r => r.(test) (Str.trim field.(Field.value)) = false
         | FunctionChecker f => f field.(Field.value) field cfg = false
         end)
    ∧ (b = false →
       innerHTML <$> s'.(errorBlocks) !! w
       = Some (span (formMessage g s.(formAttributes) k))
       ∧ s'.(dispatched) = s.(dispatched) ++ [(fid, errorEvent g)]).
Proof.
  intros Hreg Hmsg Hf Hg Hreq Hemail Htel Hcfg.
  assert (missing g s = None) as Hm.
  { unfold missing. rewrite Hreg. simpl. by rewrite Hmsg. }
  destruct (validateField_group g p fid s field w Hf Hm Hg) as (s' & E & _ & R).
  set (cand := customCandidate g field k c (formMessage g (formAttributes s) k)).
  assert (validationConfig g s field = builtinConfig s field ++ [cand]) as Hcs.
  { unfold validationConfig, customConfig, pushedConfig. by rewrite Hreg. }
  assert (existsb failing (builtinConfig s field) = false) as Hb.
  { unfold builtinConfig, failing. cbn [existsb checkCondition validationType].
    rewrite Hreq, !andb_false_r.
    rewrite (bool_decide_eq_false_2 _ Hemail), (bool_decide_eq_false_2 _ Htel). done. }
  assert (failing cand
          = negb (Str.isEmpty (Str.trim (Field.value field)))
            && (callChecker c (Field.value field) field cfg).(hasError)) as Hc.
  { unfold cand, customCandidate, failing. cbn [checkCondition validationType].
    rewrite Hcfg. cbn [is_Some]. rewrite bool_decide_eq_true_2 by by eexists.
    rewrite callChecker_isEmpty. by destruct (Str.isEmpty _). }
  assert (failing cand = true ↔
          allChars Str.isWhiteSpace field.(Field.value) = false
          ∧ match c with
            | RegExpChecker r => r.(test) (Str.trim field.(Field.value)) = false
            | FunctionChecker f => f field.(Field.value) field cfg = false
            end) as Hiff.
  { rewrite Hc, andb_true_iff, negb_true_iff.
    rewrite <- (not_true_iff_false (allChars _ _)), <- trim_blank, not_true_iff_false.
    destruct c as [r|f]; cbn [callChecker hasError].
    - rewrite regExp_hasError, andb_true_iff, !negb_true_iff. tauto.
    - by rewrite negb_true_iff. }
  rewrite Hcs, existsb_app, Hb in E. cbn [existsb orb] in E. rewrite orb_false_r in E.
  exists (negb (failing cand)), s'. split; [exact E|]. split.
  - rewrite negb_false_iff. exact Hiff.
  - intros Hbad%negb_false_iff.
    assert (find failing (validationConfig g s field) = Some cand) as Hfind.
    { rewrite Hcs. clear -Hb Hbad. induction (builtinConfig s field) as [|x l IH].
      - simpl. by rewrite Hbad.
      - simpl in *. apply orb_false_iff in Hb as [-> Hl]. by apply IH. }
    rewrite Hfind in R. destruct R as (D & B & _). done.
Qed.

Lemma custom_rule_round_trip_witness :
  let s := Sample.withFoo ModuleExport
             (Sample.page [Sample.control "text" [("data-validate-foo", "")]
                             "abc 123" "code" 10] Sample.formTag) in
  ∃ b s', validateField ModuleExport defaultParams 0 s = (Normal b, s')
    ∧ (b = false ↔
       allChars Str.isWhiteSpace "abc 123" = false
       ∧ Sample.letters.(test) (Str.trim "abc 123") = false)
    ∧ (b = false →
       innerHTML <$> s'.(errorBlocks) !! 10
       = Some (span (formMessage ModuleExport s.(formAttributes) "foo"))
       ∧ s'.(dispatched) = s.(dispatched) ++ [(0, errorEvent ModuleExport)]).
Proof.
  intros s.
  apply (custom_rule_round_trip ModuleExport defaultParams s "foo"
           (RegExpChecker Sample.letters) 0
           (Sample.control "text" [("data-validate-foo", "")] "abc 123" "code" 10)
           10 [""]); try (vm_compute; reflexivity); vm_compute; discriminate.
Defined.

(** ** Classes, containers and the outcome of a call *)

Lemma checkElem_classStep g p fid field elem s o s' f :
  s.(nodes) !! fid = Some f →
  checkElem g p fid field elem s = (o, s') →
  ∃ f', s'.(nodes) !! fid = Some f' ∧ strip f' = strip f
        ∧ classStep p field.(Field.value) elem f.(Field.classList) f'.(Field.classList)
        ∧ (formGroup p field = None →
           s'.(dispatched) = s.(dispatched) ∧ s'.(errorBlocks) = s.(errorBlocks)
           ∧ s'.(timers) = s.(timers) ∧ s'.(submits) = s.(submits)).
Proof.
  intros Hf E. unfold classStep. unfold checkElem in E. fold (formGroup p field) in E.
  destruct (checkCondition elem); [|unfold ret in E; simplify_eq; by exists f].
  destruct (validationType elem).
  - destruct (alterClassList_spec g fid (formGroup p field)
                (classList.remove (validClass p)) s) as (s1 & E1 & _ & D1 & B1 & N1).
    destruct (alterClassList_spec g fid (formGroup p field)
                (classList.add (invalidClass p)) s1) as (s2 & E2 & _ & D2 & B2 & N2).
    rewrite (bind_normal _ _ _ _ _ E1), (bind_normal _ _ _ _ _ E2) in E.
    assert (nodes s2 !! fid
            = Some (Field.withClassList
                      (classList.add (invalidClass p)
                         (classList.remove (validClass p) (Field.classList f))) f))
      as Hn2 by (by rewrite N2, N1, Hf).
    assert (timers s2 = timers s ∧ submits s2 = submits s) as [T2 S2].
    { unfold alterClassList, modify in E1, E2. by simplify_eq. }
    destruct (formGroup p field) as [w|].
    + destruct (showError_spec g fid field w (msg elem) "form__error-block" s2)
        as (s3 & E3 & _ & _ & N3 & _).
      rewrite (bind_normal _ _ _ _ _ E3) in E. unfold dispatchEvent in E.
      rewrite (bind_normal _ _ _ tt (setDispatched (dispatched s3 ++ [(fid, errorEvent g)]) s3))
        in E by done.
      unfold ret in E. simplify_eq. cbn [nodes setDispatched]. rewrite N3, Hn2.
      eexists. split; [done|]. split; [done|]. split; [done | discriminate].
    + unfold showError at 1 in E. rewrite (bind_throw _ _ _ TypeError s2) in E by done.
      simplify_eq. rewrite Hn2. eexists. split; [done|]. split; [done|].
      split; [done|]. intros _. by rewrite D2, D1, B2, B1.
  - destruct (alterClassList_spec g fid (formGroup p field)
                (classList.remove "is-invalid") s) as (s1 & E1 & _ & D1 & B1 & N1).
    rewrite (bind_normal _ _ _ _ _ E1) in E.
    assert (timers s1 = timers s ∧ submits s1 = submits s) as [T1 S1].
    { unfold alterClassList, modify in E1. by simplify_eq. }
    set (h := if nonEmpty (Field.value field)
              then classList.add "is-valid" else classList.remove "is-valid").
    assert (∃ s2, (if nonEmpty (Field.value field)
                   then alterClassList fid (classList.add "is-valid")
                   else alterClassList fid (classList.remove "is-valid")) s1
                  = (Normal tt, s2)
                  ∧ dispatched s2 = dispatched s1 ∧ errorBlocks s2 = errorBlocks s1
                  ∧ timers s2 = timers s1 ∧ submits s2 = submits s1
                  ∧ nodes s2 !! fid
                    = (λ n, Field.withClassList (h (Field.classList n)) n)
                        <$> nodes s1 !! fid) as (s2 & E2 & D2 & B2 & T2 & S2 & N2).
    { unfold h. destruct (nonEmpty (Field.value field));
        (eexists; split; [reflexivity|]; cbn; by rewrite lookup_alter_eq). }
    rewrite (bind_normal _ _ _ _ _ E2) in E.
    assert (nodes s2 !! fid
            = Some (Field.withClassList
                      (h (classList.remove "is-invalid" (Field.classList f))) f))
      as Hn2 by (by rewrite N2, N1, Hf).
    assert (h (classList.remove "is-invalid" (Field.classList f))
            = (if nonEmpty (Field.value field)
               then classList.add "is-valid"
                      (classList.remove "is-invalid" (Field.classList f))
               else classList.remove "is-valid"
                      (classList.remove "is-invalid" (Field.classList f)))) as Hh.
    { unfold h. by destruct (nonEmpty (Field.value field)). }
    destruct (formGroup p field) as [w|].
    + destruct (hideError_spec g fid w "form__error-block" s2)
        as (s3 & E3 & _ & _ & N3).
      rewrite (bind_normal _ _ _ _ _ E3) in E. unfold ret in E. simplify_eq.
      rewrite N3, Hn2. eexists. split; [done|]. split; [done|].
      split; [by rewrite <- Hh | discriminate].
    + unfold hideError at 1 in E. rewrite (bind_throw _ _ _ TypeError s2) in E by done.
      simplify_eq. rewrite Hn2. eexists. split; [done|]. split; [done|].
      split; [by rewrite <- Hh|]. intros _. by rewrite D2, D1, B2, B1, T2, S2.
Qed.

Lemma classStep_added p v elem cl cl' c :
  classStep p v elem cl cl' →
  c ∈ cl' → c ∈ cl ∨ c = "is-valid" ∨ c = p.(invalidClass).
Proof.
  unfold classStep. destruct (checkCondition elem); [|by intros ->; left].
  destruct (validationType elem).
  - intros ->. destruct (decide (c = invalidClass p)) as [->|Hne]; [tauto|].
    rewrite classList_add_other, classList_remove_elem by done. tauto.
  - destruct (nonEmpty v); intros ->.
    + destruct (decide (c = "is-valid")) as [->|Hne]; [tauto|].
      rewrite classList_add_other, classList_remove_elem by done. tauto.
    + rewrite !classList_remove_elem. tauto.
Qed.

Lemma classStep_passing p v elem cl cl' c :
  classStep p v elem cl cl' → failing elem = false →
  c ≠ "is-valid" → c ≠ "is-invalid" → c ∈ cl' ↔ c ∈ cl.
Proof.
  unfold classStep, failing. destruct (checkCondition elem); [|by intros ->].
  destruct (validationType elem); [discriminate|]. intros H _ H1 H2.
  destruct (nonEmpty v); subst cl'.
  - rewrite classList_add_other, classList_remove_elem by done. tauto.
  - rewrite !classList_remove_elem. tauto.
Qed.

Lemma walk_classes g p fid field cs s o s' f :
  s.(nodes) !! fid = Some f →
  every (checkElem g p fid field) cs s = (o, s') →
  ∃ f', s'.(nodes) !! fid = Some f'
    ∧ (∀ c, c ∈ Field.classList f' →
         c ∈ Field.classList f ∨ c = "is-valid" ∨ c = p.(invalidClass))
    ∧ (existsb failing cs = false →
       ∀ c, c ≠ "is-valid" → c ≠ "is-invalid" →
         c ∈ Field.classList f' ↔ c ∈ Field.classList f)
    ∧ (formGroup p field = None →
       s'.(dispatched) = s.(dispatched) ∧ s'.(errorBlocks) = s.(errorBlocks)
       ∧ s'.(timers) = s.(timers) ∧ s'.(submits) = s.(submits)).
Proof.
  revert s f. induction cs as [|elem cs IH]; intros s f Hf E.
  { simpl in E. unfold ret in E. simplify_eq. exists f. split; [done|].
    split; [by intros c; left | done]. }
  simpl in E. unfold bind in E.
  destruct (checkElem g p fid field elem s) as [[b|e] s1] eqn:E1.
  - destruct (checkElem_classStep g p fid field elem s _ _ f Hf E1)
      as (f1 & Hf1 & _ & Hstep & Hq1).
    assert (∀ c, c ∈ Field.classList f1 →
              c ∈ Field.classList f ∨ c = "is-valid" ∨ c = invalidClass p) as Hadd1.
    { intros c. by apply classStep_added with (elem := elem) (v := Field.value field). }
    destruct b.
    + destruct (IH s1 f1 Hf1 E) as (f' & Hf' & Hadd & Hkeep & Hq).
      exists f'. split; [done|]. split; [|split].
      * intros c Hc. destruct (Hadd c Hc) as [H|H]; [by apply Hadd1 | tauto].
      * simpl. intros [Hfe Hfs]%orb_false_iff c H1 H2.
        rewrite (Hkeep Hfs c H1 H2).
        by apply classStep_passing with (p := p) (v := Field.value field) (elem := elem).
      * intros Hg. destruct (Hq Hg) as (-> & -> & -> & ->). by apply Hq1.
    + unfold ret in E. simplify_eq. exists f1. split; [done|]. split; [done|].
      split; [|done]. simpl. intros [Hfe Hfs]%orb_false_iff c H1 H2.
      by apply classStep_passing with (p := p) (v := Field.value field) (elem := elem).
  - simplify_eq.
    destruct (checkElem_classStep g p fid field elem s _ _ f Hf E1)
      as (f1 & Hf1 & _ & Hstep & Hq1).
    exists f1. split; [done|]. split; [|split; [|done]].
    + intros c. by apply classStep_added with (elem := elem) (v := Field.value field).
    + simpl. intros [Hfe Hfs]%orb_false_iff c H1 H2.
      by apply classStep_passing with (p := p) (v := Field.value field) (elem := elem).
Qed.

(** X12.  Whatever [validClass] and [invalidClass] are configured, the
    only classes an evaluation ever adds to a field are [is-valid] and
    the configured [invalidClass] (the configured [validClass] is only
    ever removed); and an evaluation without failing candidate touches no
    class other than [is-valid] and [is-invalid], so that a custom
    invalid class left by an earlier failure stays on a field that now
    passes. *)
Theorem classes_touched g p s fid field o s' :
  s.(nodes) !! fid = Some field →
  validateField g p fid s = (o, s') →
  ∃ f', s'.(nodes) !! fid = Some f'
    ∧ (∀ c, c ∈ Field.classList f' →
         c ∈ Field.classList field ∨ c = "is-valid" ∨ c = p.(invalidClass))
    ∧ (existsb failing (validationConfig g s field) = false →
       ∀ c, c ≠ "is-valid" → c ≠ "is-invalid" →
         c ∈ Field.classList f' ↔ c ∈ Field.classList field).
Proof.
  intros Hf E. rewrite (validateField_unfold g p fid s field Hf) in E.
  destruct (missing g s).
  { simplify_eq. exists field. split; [done|]. split; [by intros c; left | done]. }
  destruct (walk_classes g p fid field _ (refreshed g s) _ _ field Hf E)
    as (f' & Hf' & Hadd & Hkeep & _).
  by exists f'.
Qed.

Lemma classes_touched_witness :
  let p := {| validateOnBlur := true; validateOnSubmit := true;
              formBlockSelector := ".form__group";
              errorBlockClass := "form__error-block";
              validClass := "ok"; invalidClass := "bad" |} in
  let field :=
    {| Field.tagName := input; Field.type := "text";
       Field.attributes := <["name" := "first"]> {["required" := ""]};
       Field.value := "Ada"; Field.checked := false;
       Field.id := ""; Field.classList := ["bad"];
       Field.parents := [Sample.group 12] |} in
  let s := builder ModuleExport (Sample.page [field] Sample.formTag) in
  ∃ f', (validateField ModuleExport p 0 s).2.(nodes) !! 0 = Some f'
        ∧ ("bad" ∈ Field.classList f' ↔ "bad" ∈ ["bad"]).
Proof.
  intros p field s.
  destruct (classes_touched ModuleExport p s 0 field
              (validateField ModuleExport p 0 s).1 (validateField ModuleExport p 0 s).2)
    as (f' & Hf' & _ & H); [vm_compute; reflexivity ..|].
  exists f'. split; [exact Hf'|]. apply H; [vm_compute; reflexivity | done | done].
Defined.

Lemma failing_applicable cs :
  existsb checkCondition cs = false → existsb failing cs = false.
Proof.
  induction cs as [|c cs IH]; [done|]. simpl. unfold failing at 1.
  intros [-> Hcs]%orb_false_iff. by apply IH.
Qed.

Lemma validateField_quiet g p fid s field o s' :
  s.(nodes) !! fid = Some field → formGroup p field = None →
  validateField g p fid s = (o, s') →
  s'.(dispatched) = s.(dispatched) ∧ s'.(errorBlocks) = s.(errorBlocks)
  ∧ s'.(timers) = s.(timers) ∧ s'.(submits) = s.(submits).
Proof.
  intros Hf Hg E. rewrite (validateField_unfold g p fid s field Hf) in E.
  destruct (missing g s); [by simplify_eq|].
  destruct (walk_classes g p fid field _ (refreshed g s) _ _ field Hf E)
    as (_ & _ & _ & _ & Hq).
  by apply Hq.
Qed.




(** ** What a call of validate can and cannot do *)

Lemma validateField_events g p i s o s1 :
  validateField g p i s = (o, s1) →
  (o = Normal false ∧ s1.(dispatched) = s.(dispatched) ++ [(i, errorEvent g)])
  ∨ (o ≠ Normal false ∧ s1.(dispatched) = s.(dispatched)
     ∧ (o = Normal true → fieldFails g s i = false)).
Proof.
  intros E. unfold fieldFails. destruct (s.(nodes) !! i) as [field|] eqn:Hf.
  - destruct (missing g s) as [k|] eqn:Hm.
    { rewrite (validateField_missing g p i s field k Hf Hm) in E. simplify_eq.
      right. done. }
    destruct (formGroup p field) as [w|] eqn:Hg.
    + destruct (validateField_group g p i s field w Hf Hm Hg) as (s' & E' & _ & R).
      rewrite E' in E. simplify_eq.
      destruct (existsb failing (validationConfig g s field)) eqn:Hex.
      * destruct (find_existsb_true _ _ Hex) as (c & Hc & _). rewrite Hc in R.
        left. by destruct R.
      * rewrite (find_existsb_false _ _ Hex) in R. right. by destruct R.
    + destruct (validateField_quiet g p i s field _ _ Hf Hg E) as (D & _).
      destruct (validateField_nogroup g p i s field Hf Hm Hg) as (s' & E' & _).
      rewrite E' in E. right.
      destruct (applicable g s field) eqn:Ha; simplify_eq; [done|].
      split; [done|]. split; [done|]. intros _. by apply failing_applicable.
  - rewrite (validateField_dangling g p i s Hf) in E. simplify_eq. by right.
Qed.

Lemma loop_events g p l s o s' :
  every (validateField g p) l s = (o, s') →
  (o = Normal false ∧ ∃ x, x ∈ l ∧ s'.(dispatched) = s.(dispatched) ++ [(x, errorEvent g)])
  ∨ (o ≠ Normal false ∧ s'.(dispatched) = s.(dispatched)
     ∧ (o = Normal true → NoDup l → ∀ i, i ∈ l → fieldFails g s i = false)).
Proof.
  revert s. induction l as [|i rest IH]; intros s E.
  { simpl in E. unfold ret in E. simplify_eq. right. split; [done|]. split; [done|].
    intros _ _ i Hi. inversion Hi. }
  simpl in E. unfold bind in E.
  destruct (validateField g p i s) as [[b|e] s1] eqn:E1.
  - destruct (validateField_events g p i s _ _ E1) as [[Ho D1]|(Ho & D1 & Hp)].
    + simplify_eq. unfold ret in E. simplify_eq. left. split; [done|].
      exists i. split; [by left | done].
    + destruct b; [|done].
      destruct (validateField_evaluates g p i s _ _ E1) as (w & F).
      apply evaluates_touches in F.
      destruct (IH s1 E) as [(-> & x & Hx & D)|(Ho' & D & Hpr)].
      * left. split; [done|]. exists x. split; [by right | by rewrite D, D1].
      * right. split; [done|]. split; [by rewrite D, D1|].
        intros -> [Hi Hnd]%NoDup_cons j [->|Hj]%elem_of_cons; [by apply Hp|].
        rewrite <- (fieldFails_touches g [i] s s1 j F).
        -- by apply Hpr.
        -- intros ->%list_elem_of_singleton. done.
  - simplify_eq.
    destruct (validateField_events g p i s _ _ E1) as [[Ho D1]|(Ho & D1 & Hp)];
      [done|].
    right. done.
Qed.

(** X14.  A call of [validate] submits the form at most once, and only
    when it has completed without reporting: a call that submits has
    dispatched no error event and, the fields being distinct, has found
    no failing candidate on any field of its list.  A call dispatches at
    most one error event, and one that dispatches does not submit. *)
Theorem submit_sound g p s o s' :
  validate g p s = (o, s') →
  (s'.(submits) = s.(submits) ∨ s'.(submits) = S s.(submits))
  ∧ (s'.(submits) = S s.(submits) →
     o = Normal tt ∧ s'.(dispatched) = s.(dispatched)
     ∧ (NoDup (fieldList g s) → ∀ i, i ∈ fieldList g s → fieldFails g s i = false))
  ∧ (s'.(dispatched) = s.(dispatched)
     ∨ ∃ x, x ∈ fieldList g s
            ∧ s'.(dispatched) = s.(dispatched) ++ [(x, errorEvent g)]
            ∧ s'.(submits) = s.(submits)).
Proof.
  intros E. rewrite validate_unfold in E.
  destruct (every _ _ _) as [[b|e] s1] eqn:E1.
  - pose proof (loop_touches g p _ _ _ _ E1) as T.
    pose proof (to_submits _ _ _ _ T) as Hs. cbn [submits setFields] in Hs.
    destruct (loop_events g p _ _ _ _ E1) as [(Ho & x & Hx & D)|(Ho & D & Hp)].
    + simplify_eq. split; [by left|]. split; [intros H; lia|].
      right. by exists x.
    + destruct b; [|done]. simplify_eq. cbn [submits setSubmits dispatched].
      rewrite Hs. split; [by right|]. split; [|by left].
      intros _. split; [done|]. split; [done|]. by apply Hp.
  - simplify_eq. pose proof (loop_touches g p _ _ _ _ E1) as T.
    pose proof (to_submits _ _ _ _ T) as Hs. cbn [submits setFields] in Hs.
    destruct (loop_events g p _ _ _ _ E1) as [(Ho & _)|(Ho & D & Hp)]; [done|].
    split; [by left|]. split; [intros H; lia | by left].
Qed.

Lemma submit_sound_witness :
  (Sample.after (validate ModuleExport defaultParams)
     (builder ModuleExport (Sample.page [Sample.requiredFilled] Sample.formTag))).(submits)
  = 1
  ∧ ∀ i, i ∈ [0] →
      fieldFails ModuleExport
        (builder ModuleExport (Sample.page [Sample.requiredFilled] Sample.formTag)) i
      = false.
Proof.
  split; [vm_compute; reflexivity|].
  destruct (submit_sound ModuleExport defaultParams
              (builder ModuleExport (Sample.page [Sample.requiredFilled] Sample.formTag))
              (Normal tt)
              (Sample.after (validate ModuleExport defaultParams)
                 (builder ModuleExport
                    (Sample.page [Sample.requiredFilled] Sample.formTag))))
    as (_ & H & _); [vm_compute; reflexivity|].
  apply H; [vm_compute; reflexivity|].
  apply (bool_decide_unpack _). vm_compute. exact I.
Defined.

Lemma strip_only_classes f f' :
  strip f' = strip f → f' = Field.withClassList f'.(Field.classList) f.
Proof.
  intros H. destruct f, f'. unfold strip, Field.withClassList in *. simpl in *.
  injection H as -> -> -> -> -> -> ->. reflexivity.
Qed.

(** X15.  [validate] never writes to a control anything but its class
    list: every control is still there after the call, with the value,
    checked state, attributes, type, id and ancestors it had before; a
    control that is not in the iterated list is not written at all, and
    the attributes of the form tag are unchanged.  (What the page gains
    is the error block, whose message holds no markup.) *)
Theorem validate_writes_classes_only g p s o s' :
  validate g p s = (o, s') →
  s'.(formAttributes) = s.(formAttributes)
  ∧ (∀ i f, s.(nodes) !! i = Some f →
       ∃ f', s'.(nodes) !! i = Some f'
             ∧ f' = Field.withClassList f'.(Field.classList) f
             ∧ (i ∉ fieldList g s → f' = f)).
Proof.
  intros E. rewrite validate_unfold in E.
  assert (∃ s1, touches g (fieldList g s) (setFields (fieldList g s) s) s1
                ∧ nodes s' = nodes s1
                ∧ formAttributes s' = formAttributes s1) as (s1 & T & -> & ->).
  { destruct (every _ _ _) as [[b|e] s1] eqn:E1; exists s1;
      (split; [by eapply loop_touches|]); [destruct b|]; by simplify_eq. }
  destruct T as [Hn Hs _ Ha _ _ _ _ _]. cbn [nodes formAttributes setFields] in *.
  split; [done|].
  intros i f Hf. destruct (strip_lookup _ _ i f (Hs i) Hf) as (f' & Hf' & Hst).
  exists f'. split; [done|].
  split; [by apply strip_only_classes|].
  intros Hi. rewrite (Hn i Hi), Hf in Hf'. by simplify_eq.
Qed.

Lemma validate_writes_classes_only_witness :
  let s := Sample.threeControls ModuleExport in
  ∃ f', (Sample.after (validate ModuleExport defaultParams) s).(nodes) !! 1 = Some f'
        ∧ f' = Field.withClassList f'.(Field.classList) Sample.requiredBlank.
Proof.
  intros s.
  destruct (validate_writes_classes_only ModuleExport defaultParams s
              (Sample.outcome (validate ModuleExport defaultParams) s)
              (Sample.after (validate ModuleExport defaultParams) s))
    as (_ & H); [vm_compute; reflexivity|].
  destruct (H 1 Sample.requiredBlank) as (f' & Hf' & Heq & _);
    [vm_compute; reflexivity|].
  by exists f'.
Defined.

(** ** The generations compared *)

Lemma lowerChar_hyphen c : Str.lowerChar c = "-"%char ↔ c = "-"%char.
Proof.
  destruct c as [[] [] [] [] [] [] [] []]; vm_compute; split; congruence.
Qed.

Lemma upperChar_letter c :
  isLetter c = true →
  ∃ u, Str.upperChar c = Some (String u EmptyString)
       ∧ Str.isUpper u = true
       ∧ Str.asciiLowerChar u = Str.asciiLowerChar c
       ∧ c ≠ "-"%char.
Proof.
  destruct c as [[] [] [] [] [] [] [] []]; intros H;
    try (vm_compute in H; discriminate H);
    (eexists; split; [vm_compute; reflexivity|];
     split; [vm_compute; reflexivity|];
     split; [vm_compute; reflexivity | discriminate]).
Qed.

Lemma asciiLowerChar_not_upper c : Str.isUpper (Str.asciiLowerChar c) = false.
Proof. destruct c as [[] [] [] [] [] [] [] []]; vm_compute; reflexivity. Qed.

Lemma asciiLowerChar_hyphen c : Str.asciiLowerChar c = "-"%char ↔ c = "-"%char.
Proof.
  destruct c as [[] [] [] [] [] [] [] []]; vm_compute; split; congruence.
Qed.

Lemma asciiLowercase_append a b :
  Str.asciiLowercase (a +:+ b) = Str.asciiLowercase a +:+ Str.asciiLowercase b.
Proof. induction a as [|c r IH]; [done|]. simpl. by rewrite IH. Qed.

Lemma hyphenate_lower s : hyphenate (Str.asciiLowercase s) = Str.asciiLowercase s.
Proof.
  induction s as [|c r IH]; [done|]. simpl.
  by rewrite asciiLowerChar_not_upper, IH.
Qed.

Lemma hyphenLower_two a d r :
  hyphenLower (String a (String d r))
  = (bool_decide (a = "-"%char) && Str.isLower d) || hyphenLower (String d r).
Proof. reflexivity. Qed.

Lemma hyphenLower_cons c r :
  c ≠ "-"%char → hyphenLower (String c r) = hyphenLower r.
Proof.
  intros Hc. destruct r as [|d r]; [done|].
  cbn [hyphenLower]. by rewrite (bool_decide_eq_false_2 _ Hc).
Qed.

Lemma dataName_cons c r u :
  Str.upperChar c = Some u → dataName (String c r) = Some (u +:+ Str.toLowerCase r).
Proof.
  intros H. unfold dataName. cbn [Str.charAt0 Str.substr1 Str.toUpperCase].
  rewrite H. cbn [mbind option_bind]. by rewrite append_nil_r.
Qed.

(** The property [prefix + dataName k] of a [dataset] stands for the
    attribute [data-prefix-k], for a lower-case prefix free of hyphens. *)
Lemma dataset_plain attrs prefix k :
  plainName k = true → hyphenLower (prefix +:+ "A") = false →
  Str.asciiLowercase prefix = prefix →
  ∃ n, dataName k = Some n
       ∧ dataset attrs (prefix +:+ n)
         = getAttribute attrs ("data-" +:+ prefix +:+ "-" +:+ k).
Proof.
  destruct k as [|c r]; [done|].
  intros [[Hc Hsame%bool_decide_eq_true]%andb_prop Hh]%andb_prop Hp Hl.
  apply negb_true_iff in Hh.
  destruct (upperChar_letter c Hc) as (u & Hu & Hup & Hlu & Hne).
  exists (String u (Str.toLowerCase r)). split; [by rewrite (dataName_cons c r _ Hu)|].
  cbn [Str.toLowerCase Str.asciiLowercase] in Hsame, Hh.
  injection Hsame as Hc1 Hr. rewrite Hc1, Hr in Hh. rewrite Hr.
  rewrite hyphenLower_cons in Hh by (by rewrite asciiLowerChar_hyphen).
  unfold dataset, getAttribute.
  assert (∀ q x, hyphenLower (q +:+ String "A" EmptyString) = false →
            Str.isUpper x = true →
            hyphenLower (q +:+ String x (Str.asciiLowercase r)) = false) as Hq.
  { intros q x. induction q as [|a q IH]; intros Hq Hx.
    - rewrite append_nil_l. rewrite hyphenLower_cons; [done|].
      intros ->. by vm_compute in Hx.
    - rewrite append_cons in *. destruct q as [|b q].
      + rewrite append_nil_l in *. rewrite hyphenLower_two in *.
        apply orb_false_iff in Hq as [Ha _].
        apply orb_false_iff. split.
        * apply andb_false_iff. destruct (bool_decide (a = "-"%char)); [right|by left].
          clear -Hx. revert Hx.
          destruct x as [[] [] [] [] [] [] [] []]; vm_compute; congruence.
        * rewrite hyphenLower_cons; [done|]. intros ->. by vm_compute in Hx.
      + rewrite append_cons in *. rewrite hyphenLower_two in Hq |- *.
        apply orb_false_iff in Hq as [Ha Hq].
        apply orb_false_iff. split; [done|]. by apply IH. }
  rewrite (Hq prefix _ Hp Hup). f_equal.
  assert (∀ q, Str.asciiLowercase q = q →
            hyphenate (q +:+ String u (Str.asciiLowercase r))
            = q +:+ String "-" (String (Str.asciiLowerChar c) (Str.asciiLowercase r)))
    as Hy.
  { intros q. induction q as [|a q IH]; intros Hlow.
    - rewrite !append_nil_l. cbn [hyphenate]. by rewrite Hup, Hlu, hyphenate_lower.
    - rewrite !append_cons. cbn [hyphenate]. cbn [Str.asciiLowercase] in Hlow.
      injection Hlow as Ha Hlow.
      assert (Str.isUpper a = false) as ->
        by (rewrite <- Ha; apply asciiLowerChar_not_upper).
      by rewrite (IH Hlow). }
  rewrite (Hy prefix Hl).
  change ("data-" +:+ prefix +:+ "-" +:+ String c r)
    with ("data-" +:+ (prefix +:+ String "-" (String c r))).
  rewrite asciiLowercase_append, asciiLowercase_append, Hl. reflexivity.
Qed.

Lemma dataConfig_plain field k :
  plainName k = true →
  dataConfig ObjectPrototype field k = dataConfig ModuleExport field k.
Proof.
  intros H. unfold dataConfig.
  destruct (dataset_plain field.(Field.attributes) "validate" k H eq_refl eq_refl)
    as (n & -> & Hd).
  cbn [mbind option_bind]. by rewrite Hd.
Qed.

Lemma formMessage_plain form k :
  plainName k = true →
  truthy (formMessage ObjectPrototype form k) = truthy (formMessage ModuleExport form k).
Proof.
  intros H. unfold formMessage.
  destruct (dataset_plain form "msg" k H eq_refl eq_refl) as (n & -> & Hd).
  cbn [mbind option_bind]. rewrite Hd.
  change ("data-" +:+ "msg" +:+ "-" +:+ k) with ("data-msg-" +:+ k).
  by destruct (getAttribute form _).
Qed.

Lemma failing_customCandidate g g' field k c m m' :
  dataConfig g field k = dataConfig g' field k →
  failing (customCandidate g field k c m) = failing (customCandidate g' field k c m')
  ∧ checkCondition (customCandidate g field k c m)
    = checkCondition (customCandidate g' field k c m').
Proof. intros H. unfold failing, customCandidate. cbn. by rewrite H. Qed.

Lemma existsb_app_eq {A} (f : A → bool) l1 l2 l2' :
  existsb f l2 = existsb f l2' → existsb f (l1 ++ l2) = existsb f (l1 ++ l2').
Proof. intros H. by rewrite !existsb_app, H. Qed.

(** X17.  For rule names that begin with an ASCII letter, hold no letter
    that [toLowerCase] changes and ASCII lower case does not, and have
    no hyphen directly before a letter, the object-prototype version
    (v1.0.0), which reads [dataset], and the module, which reads
    [getAttribute], look at the same attributes: they find the same
    first rule without a message, the same relevant candidates and the
    same verdict on every field. *)
Theorem prototype_agrees_on_plain_names s :
  Forall (λ kc, plainName kc.1 = true) s.(customChecks) →
  missing ObjectPrototype s = missing ModuleExport s
  ∧ (∀ field, applicable ObjectPrototype s field = applicable ModuleExport s field)
  ∧ (∀ i, fieldFails ObjectPrototype s i = fieldFails ModuleExport s i).
Proof.
  intros H.
  assert (∀ field,
    existsb failing (customConfig ObjectPrototype s field)
    = existsb failing (customConfig ModuleExport s field)
    ∧ existsb checkCondition (customConfig ObjectPrototype s field)
      = existsb checkCondition (customConfig ModuleExport s field)) as Hc.
  { intros field. unfold customConfig, pushedConfig.
    induction H as [|[k c] rest Hk _ [IH1 IH2]]; [done|]. cbn [map existsb fst snd].
    destruct (failing_customCandidate ObjectPrototype ModuleExport field k c
                (formMessage ObjectPrototype (formAttributes s) k)
                (formMessage ModuleExport (formAttributes s) k)
                (dataConfig_plain field k Hk)) as [-> ->].
    by rewrite IH1, IH2. }
  split; [|split].
  - unfold missing. induction H as [|[k c] rest Hk _ IH]; [done|].
    cbn [firstMissing]. rewrite (formMessage_plain _ k Hk).
    by destruct (truthy _).
  - intros field. unfold applicable, validationConfig.
    apply existsb_app_eq, Hc.
  - intros i. unfold fieldFails, validationConfig.
    destruct (nodes s !! i) as [field|]; [|done].
    apply existsb_app_eq, Hc.
Qed.

Lemma prototype_agrees_on_plain_names_witness :
  missing ObjectPrototype (Sample.scenario ObjectPrototype)
  = missing ModuleExport (Sample.scenario ObjectPrototype)
  ∧ (∀ field, applicable ObjectPrototype (Sample.scenario ObjectPrototype) field
              = applicable ModuleExport (Sample.scenario ObjectPrototype) field)
  ∧ (∀ i, fieldFails ObjectPrototype (Sample.scenario ObjectPrototype) i
          = fieldFails ModuleExport (Sample.scenario ObjectPrototype) i).
Proof.
  apply prototype_agrees_on_plain_names.
  apply (bool_decide_unpack _). vm_compute. exact I.
Defined.

Lemma hyphenLower_suffix q s : hyphenLower s = true → hyphenLower (q +:+ s) = true.
Proof.
  intros H. induction q as [|a q IH]; [done|]. rewrite append_cons.
  destruct (q +:+ s) as [|d t] eqn:E; [discriminate IH|].
  rewrite hyphenLower_two, IH. apply orb_true_r.
Qed.

Lemma hyphenLower_dataName k n :
  dataName k = Some n → hyphenLower (Str.toLowerCase k) = true → hyphenLower n = true.
Proof.
  destruct k as [|c r]; [discriminate|]. intros Hn H.
  destruct (Str.upperChar c) as [u|] eqn:Hu.
  - rewrite (dataName_cons c r u Hu) in Hn. injection Hn as <-.
    cbn [Str.toLowerCase] in H.
    destruct (Str.toLowerCase r) as [|d t] eqn:Hr; [discriminate|].
    rewrite hyphenLower_two in H. apply orb_true_iff in H as [H|H].
    + apply andb_true_iff in H as [Hc%bool_decide_eq_true Hd].
      apply lowerChar_hyphen in Hc as ->. injection Hu as <-.
      rewrite append_cons, append_nil_l, hyphenLower_two, Hd.
      by rewrite bool_decide_eq_true_2.
    + by apply hyphenLower_suffix.
  - unfold dataName in Hn. cbn [Str.charAt0 Str.toUpperCase] in Hn.
    by rewrite Hu in Hn.
Qed.

Lemma formMessage_hyphenated form k :
  hyphenLower (Str.toLowerCase k) = true →
  formMessage ObjectPrototype form k = Undefined.
Proof.
  intros H. unfold formMessage. destruct (dataName k) as [n|] eqn:Hn; [|done].
  cbn [mbind option_bind]. unfold dataset.
  by rewrite (hyphenLower_suffix "msg" n (hyphenLower_dataName k n Hn H)).
Qed.

(** X18.  In the object-prototype version (v1.0.0) a rule whose name has
    a hyphen directly before a letter, such as [zip-code], cannot be
    given a message: whatever attributes the form tag carries, every
    call of [validate] on a form with a first control in the document
    ends in the missing-message error of some registered rule, with no
    submit, no event and no change to any control. *)
Theorem hyphenated_rule_unusable p s k c i rest field :
  (k, c) ∈ s.(customChecks) → hyphenLower (Str.toLowerCase k) = true →
  s.(formControls) = i :: rest → s.(nodes) !! i = Some field →
  ∃ k' s', validate ObjectPrototype p s = (Throw (missingMessage k'), s')
           ∧ k' ∈ s.(customChecks).*1
           ∧ s'.(submits) = s.(submits) ∧ s'.(dispatched) = s.(dispatched)
           ∧ s'.(nodes) = s.(nodes) ∧ s'.(errorBlocks) = s.(errorBlocks).
Proof.
  intros Hk Hh Hl Hf.
  destruct (missing ObjectPrototype s) as [k'|] eqn:Hm.
  - exists k', (refreshed ObjectPrototype (setFields (i :: rest) s)).
    split; [|split; [by apply firstMissing_Some in Hm as [? _] | done]].
    rewrite validate_unfold. unfold fieldList. rewrite Hl. cbn [every]. unfold bind.
    by rewrite (validateField_missing ObjectPrototype p i (setFields (i :: rest) s)
                  field k' Hf Hm).
  - exfalso. pose proof (proj1 (firstMissing_None _ _ _) Hm k) as Ht.
    rewrite (formMessage_hyphenated _ k Hh) in Ht.
    enough (false = true) by discriminate. apply Ht.
    apply list_elem_of_fmap. by exists (k, c).
Qed.

Lemma hyphenated_rule_unusable_witness :
  let s := Sample.after (setFieldCheck (JsString "zip-code") (JsRegExp Sample.letters))
             (builder ObjectPrototype
                (Sample.page [Sample.plainText]
                   [("data-msg-zip-code", "Not a zip code")])) in
  ∃ k' s', validate ObjectPrototype defaultParams s = (Throw (missingMessage k'), s')
           ∧ k' ∈ s.(customChecks).*1
           ∧ s'.(submits) = s.(submits) ∧ s'.(dispatched) = s.(dispatched)
           ∧ s'.(nodes) = s.(nodes) ∧ s'.(errorBlocks) = s.(errorBlocks).
Proof.
  intros s.
  apply (hyphenated_rule_unusable defaultParams s "zip-code"
           (RegExpChecker Sample.letters) 0 [] Sample.plainText).
  - vm_compute. by left.
  - vm_compute. reflexivity.
  - vm_compute. reflexivity.
  - vm_compute. reflexivity.
Defined.

(** ** The verdict on the built-in kinds of control *)

Lemma run_fails g p s fid field w c :
  s.(nodes) !! fid = Some field → missing g s = None →
  formGroup p field = Some w →
  find failing (validationConfig g s field) = Some c →
  ∃ s', validateField g p fid s = (Normal false, s') ∧ failedLook g p fid w c s s'.
Proof.
  intros Hf Hm Hg Hc.
  destruct (validateField_group g p fid s field w Hf Hm Hg) as (s' & E & _ & R).
  rewrite Hc in R. exists s'. split; [|done]. rewrite E.
  destruct (existsb failing (validationConfig g s field)) eqn:Hex; [done|].
  by rewrite (find_existsb_false _ _ Hex) in Hc.
Qed.

Lemma run_passes g p s fid field w :
  s.(nodes) !! fid = Some field → missing g s = None →
  formGroup p field = Some w →
  existsb failing (validationConfig g s field) = false →
  ∃ s', validateField g p fid s = (Normal true, s')
        ∧ s'.(dispatched) = s.(dispatched)
        ∧ (applicable g s field = true → passedLook fid field s').
Proof.
  intros Hf Hm Hg Hc.
  destruct (validateField_group g p fid s field w Hf Hm Hg) as (s' & E & _ & R).
  rewrite (find_existsb_false _ _ Hc) in R. exists s'. by rewrite E, Hc.
Qed.

Lemma find_builtin g s field c :
  find failing (builtinConfig s field) = Some c →
  find failing (validationConfig g s field) = Some c.
Proof.
  intros H. unfold validationConfig. rewrite find_app_l; [done|].
  destruct (existsb failing (builtinConfig s field)) eqn:Hex; [done|].
  by rewrite (find_existsb_false _ _ Hex) in H.
Qed.

Lemma checkbox_config s field :
  field.(Field.type) = "checkbox" →
  hasAttribute field.(Field.attributes) "required" = true →
  existsb failing (builtinConfig s field) = negb field.(Field.checked)
  ∧ ∀ c, find failing (builtinConfig s field) = Some c → c.(msg) = message s "required".
Proof.
  intros Ht Hr. unfold builtinConfig. rewrite Ht, Hr.
  cbn [existsb find failing checkCondition validationType msg].
  rewrite !bool_decide_eq_true_2 by done.
  rewrite !(bool_decide_eq_false_2 ("checkbox" = _)) by done.
  cbn [negb andb orb]. destruct (Field.checked field); cbn.
  - split; [done|]. by intros c.
  - split; [done|]. by intros c [= <-].
Qed.

(** X19.  A required checkbox is judged by its checked state alone: when
    it is not checked the field fails and its block shows the message of
    [required], whatever its value; when it is checked, the built-in
    candidates all pass, and so does the field unless a registered rule
    fails on it. *)
Theorem required_checkbox g p s fid field w :
  s.(nodes) !! fid = Some field → missing g s = None →
  formGroup p field = Some w →
  field.(Field.type) = "checkbox" →
  hasAttribute field.(Field.attributes) "required" = true →
  (field.(Field.checked) = false →
   ∃ s', validateField g p fid s = (Normal false, s')
         ∧ s'.(dispatched) = s.(dispatched) ++ [(fid, errorEvent g)]
         ∧ innerHTML <$> s'.(errorBlocks) !! w = Some (span (message s "required")))
  ∧ (field.(Field.checked) = true →
     existsb failing (customConfig g s field) = false →
     ∃ s', validateField g p fid s = (Normal true, s')
           ∧ s'.(dispatched) = s.(dispatched) ∧ passedLook fid field s').
Proof.
  intros Hf Hm Hg Ht Hr. destruct (checkbox_config s field Ht Hr) as [Hex Hmsg].
  split.
  - intros Hc. rewrite Hc in Hex.
    destruct (find_existsb_true _ _ Hex) as (c & Hfind & _).
    destruct (run_fails g p s fid field w c Hf Hm Hg (find_builtin g s field c Hfind))
      as (s' & E & D & B & _).
    exists s'. split; [done|]. split; [done|]. by rewrite B, (Hmsg c Hfind).
  - intros Hc Hcustom. rewrite Hc in Hex.
    destruct (run_passes g p s fid field w Hf Hm Hg) as (s' & E & D & L).
    { unfold validationConfig. by rewrite existsb_app, Hex, Hcustom. }
    exists s'. split; [done|]. split; [done|]. apply L.
    unfold applicable, validationConfig, builtinConfig. rewrite Ht, Hr.
    rewrite existsb_app. apply orb_true_iff. left.
    cbn [existsb checkCondition]. rewrite !bool_decide_eq_true_2 by done.
    cbn. apply orb_true_r.
Qed.

Lemma required_checkbox_witness :
  let box := {| Field.tagName := input; Field.type := "checkbox";
                Field.attributes := <["name" := "terms"]> {["required" := ""]};
                Field.value := "yes"; Field.checked := false;
                Field.id := ""; Field.classList := [];
                Field.parents := [Sample.group 10] |} in
  let s := builder ModuleExport (Sample.page [box] Sample.formTag) in
  ∃ s', validateField ModuleExport defaultParams 0 s = (Normal false, s')
        ∧ s'.(dispatched) = s.(dispatched) ++ [(0, errorEvent ModuleExport)]
        ∧ innerHTML <$> s'.(errorBlocks) !! 10 = Some (span (message s "required")).
Proof.
  intros box s.
  destruct (required_checkbox ModuleExport defaultParams s 0 box 10) as [H _].
  - vm_compute. reflexivity.
  - vm_compute. reflexivity.
  - vm_compute. reflexivity.
  - reflexivity.
  - vm_compute. reflexivity.
  - apply H. reflexivity.
Defined.

Lemma radio_config s field :
  field.(Field.type) = "radio" →
  hasAttribute field.(Field.attributes) "required" = true →
  existsb failing (builtinConfig s field)
  = Str.isEmpty (Str.trim field.(Field.value)) || negb (checkedInput s (Field.name field))
  ∧ ∀ c, find failing (builtinConfig s field) = Some c → c.(msg) = message s "required".
Proof.
  intros Ht Hr. unfold builtinConfig. rewrite Ht, Hr.
  cbn [existsb find failing checkCondition validationType msg].
  rewrite !(bool_decide_eq_true_2 ("radio" = "radio")) by done.
  rewrite !(bool_decide_eq_false_2 ("radio" = _)) by done.
  cbn [negb andb orb fieldChecks.empty isEmpty].
  destruct (Str.isEmpty (Str.trim (Field.value field))); cbn [orb].
  - split; [done|]. by intros c [= <-].
  - destruct (checkedInput s (Field.name field)); cbn.
    + split; [done|]. by intros c.
    + split; [done|]. by intros c [= <-].
Qed.

(** X20.  A required radio button fails, with the message of [required]
    in its block, when its own value is blank or when the form has no
    checked input of its name; it passes the built-in candidates when
    its value is not blank and some input of its name is checked. *)
Theorem required_radio g p s fid field w :
  s.(nodes) !! fid = Some field → missing g s = None →
  formGroup p field = Some w →
  field.(Field.type) = "radio" →
  hasAttribute field.(Field.attributes) "required" = true →
  (Str.isEmpty (Str.trim field.(Field.value)) = true
   ∨ checkedInput s (Field.name field) = false →
   ∃ s', validateField g p fid s = (Normal false, s')
         ∧ s'.(dispatched) = s.(dispatched) ++ [(fid, errorEvent g)]
         ∧ innerHTML <$> s'.(errorBlocks) !! w = Some (span (message s "required")))
  ∧ (Str.isEmpty (Str.trim field.(Field.value)) = false →
     checkedInput s (Field.name field) = true →
     existsb failing (customConfig g s field) = false →
     ∃ s', validateField g p fid s = (Normal true, s')
           ∧ s'.(dispatched) = s.(dispatched) ∧ passedLook fid field s').
Proof.
  intros Hf Hm Hg Ht Hr. destruct (radio_config s field Ht Hr) as [Hex Hmsg].
  split.
  - intros Hc.
    assert (existsb failing (builtinConfig s field) = true) as Hex'.
    { rewrite Hex. destruct Hc as [-> | ->]; [done | apply orb_true_r]. }
    destruct (find_existsb_true _ _ Hex') as (c & Hfind & _).
    destruct (run_fails g p s fid field w c Hf Hm Hg (find_builtin g s field c Hfind))
      as (s' & E & D & B & _).
    exists s'. split; [done|]. split; [done|]. by rewrite B, (Hmsg c Hfind).
  - intros Hv Hc Hcustom. rewrite Hv, Hc in Hex.
    destruct (run_passes g p s fid field w Hf Hm Hg) as (s' & E & D & L).
    { unfold validationConfig. by rewrite existsb_app, Hex, Hcustom. }
    exists s'. split; [done|]. split; [done|]. apply L.
    unfold applicable, validationConfig, builtinConfig. rewrite Ht, Hr.
    rewrite existsb_app. apply orb_true_iff. left.
    cbn [existsb checkCondition].
    rewrite (bool_decide_eq_false_2 ("radio" = "checkbox")) by done. reflexivity.
Qed.

Lemma required_radio_witness :
  let radio v c :=
    {| Field.tagName := input; Field.type := "radio";
       Field.attributes := <["name" := "size"]> {["required" := ""]};
       Field.value := v; Field.checked := c;
       Field.id := ""; Field.classList := [];
       Field.parents := [Sample.group 10] |} in
  let s := builder ModuleExport
             (Sample.page [radio "small" false; radio "large" true] Sample.formTag) in
  ∃ s', validateField ModuleExport defaultParams 0 s = (Normal true, s')
        ∧ s'.(dispatched) = s.(dispatched)
        ∧ passedLook 0 (radio "small" false) s'.
Proof.
  intros radio s.
  destruct (required_radio ModuleExport defaultParams s 0 (radio "small" false) 10)
    as [_ H].
  - vm_compute. reflexivity.
  - vm_compute. reflexivity.
  - vm_compute. reflexivity.
  - reflexivity.
  - vm_compute. reflexivity.
  - apply H; vm_compute; reflexivity.
Defined.

Lemma format_config s field :
  Str.isEmpty (Str.trim field.(Field.value)) = false →
  (field.(Field.type) = "email" →
   (fieldChecks.email field.(Field.value)).(hasError) = true →
   ∃ c, find failing (builtinConfig s field) = Some c ∧ c.(msg) = message s "email")
  ∧ (field.(Field.type) = "tel" →
     (fieldChecks.tel field.(Field.value)).(hasError) = true →
     ∃ c, find failing (builtinConfig s field) = Some c ∧ c.(msg) = message s "tel").
Proof.
  intros Hv. split; intros Ht He; unfold builtinConfig; rewrite Ht, He;
    cbn [find failing checkCondition validationType msg fieldChecks.empty isEmpty];
    rewrite Hv; unfold failing; cbn [checkCondition validationType];
    rewrite andb_false_r.
  - rewrite (bool_decide_eq_true_2 ("email" = "email")) by done. cbn. by eexists.
  - rewrite (bool_decide_eq_false_2 ("tel" = "email")) by done.
    rewrite (bool_decide_eq_true_2 ("tel" = "tel")) by done. cbn. by eexists.
Qed.

(** X21.  An e-mail or telephone control whose value is not blank and is
    not of the accepted shape fails with the message of its type,
    [email] or [tel], in its block; this holds whether or not the
    control is required, whatever rules are registered. *)
Theorem malformed_value_message g p s fid field w :
  s.(nodes) !! fid = Some field → missing g s = None →
  formGroup p field = Some w →
  Str.trim field.(Field.value) ≠ EmptyString →
  (field.(Field.type) = "email" ∧ ¬ emailShape (Str.trim field.(Field.value))
   → ∃ s', validateField g p fid s = (Normal false, s')
           ∧ s'.(dispatched) = s.(dispatched) ++ [(fid, errorEvent g)]
           ∧ innerHTML <$> s'.(errorBlocks) !! w = Some (span (message s "email")))
  ∧ (field.(Field.type) = "tel" ∧ ¬ telShape (Str.trim field.(Field.value))
     → ∃ s', validateField g p fid s = (Normal false, s')
             ∧ s'.(dispatched) = s.(dispatched) ++ [(fid, errorEvent g)]
             ∧ innerHTML <$> s'.(errorBlocks) !! w = Some (span (message s "tel"))).
Proof.
  intros Hf Hm Hg Hv.
  assert (Str.isEmpty (Str.trim (Field.value field)) = false) as Hne.
  { destruct (Str.trim (Field.value field)); [done | reflexivity]. }
  destruct (format_config s field Hne) as [Hemail Htel].
  split; intros [Ht Hs].
  - destruct Hemail as (c & Hfind & Hmsg); [done| |].
    { unfold fieldChecks.email. rewrite regExp_hasError, Hne. cbn [negb andb].
      apply negb_true_iff. destruct (test emailRegExp _) eqn:E; [|done].
      by apply emailRegExp_shape in E. }
    destruct (run_fails g p s fid field w c Hf Hm Hg (find_builtin g s field c Hfind))
      as (s' & E & D & B & _).
    exists s'. split; [done|]. split; [done|]. by rewrite B, Hmsg.
  - destruct Htel as (c & Hfind & Hmsg); [done| |].
    { unfold fieldChecks.tel. rewrite regExp_hasError, Hne. cbn [negb andb].
      apply negb_true_iff. destruct (test telRegExp _) eqn:E; [|done].
      by apply telRegExp_shape in E. }
    destruct (run_fails g p s fid field w c Hf Hm Hg (find_builtin g s field c Hfind))
      as (s' & E & D & B & _).
    exists s'. split; [done|]. split; [done|]. by rewrite B, Hmsg.
Qed.

Lemma malformed_value_message_witness :
  let field := Sample.control "tel" [("required", "")] "call me" "phone" 10 in
  let s := builder ModuleExport
             (Sample.page [field] (("data-msg-tel", "Not a number") :: Sample.formTag)) in
  ∃ s', validateField ModuleExport defaultParams 0 s = (Normal false, s')
        ∧ s'.(dispatched) = s.(dispatched) ++ [(0, errorEvent ModuleExport)]
        ∧ innerHTML <$> s'.(errorBlocks) !! 10 = Some (span (message s "tel")).
Proof.
  intros field s.
  destruct (malformed_value_message ModuleExport defaultParams s 0 field 10)
    as [_ H].
  - vm_compute. reflexivity.
  - vm_compute. reflexivity.
  - vm_compute. reflexivity.
  - vm_compute. discriminate.
  - apply H. split; [reflexivity|].
    intros Hs. apply telRegExp_shape in Hs. vm_compute in Hs. discriminate.
Defined.

(** ** Validating again *)

Lemma sameData_refl s : sameData s s.
Proof. by repeat split. Qed.

Lemma sameData_trans s t u : sameData s t → sameData t u → sameData s u.
Proof.
  intros (n1 & c1 & a1 & k1) (n2 & c2 & a2 & k2).
  repeat split; try congruence.
Qed.

Lemma sameData_sym s t : sameData s t → sameData t s.
Proof. intros (n1 & c1 & a1 & k1). by repeat split. Qed.

Lemma touches_sameData g l s s' : touches g l s s' → sameData s s'.
Proof. intros []. by repeat split. Qed.

Lemma checkedInput_sameData s t name :
  sameData s t → checkedInput t name = checkedInput s name.
Proof.
  intros (nd & Hc & _). unfold checkedInput. rewrite Hc. clear Hc.
  induction (formControls s) as [|i rest IH]; [done|]. simpl. rewrite IH.
  f_equal. pose proof (nd i) as Hi.
  destruct (nodes s !! i) as [n|] eqn:Hn.
  - destruct (strip_lookup (nodes s) (nodes t) i n (nd i) Hn) as (n' & -> & Hs).
    destruct (strip_eq n n' Hs) as (-> & -> & -> & -> & _). done.
  - destruct (nodes t !! i); [discriminate | done].
Qed.

Lemma pushed_classBlind g form form' field cl checks :
  Forall classBlind checks.*2 →
  map failing (pushedConfig g form' (Field.withClassList cl field) checks)
  = map failing (pushedConfig g form field checks)
  ∧ map checkCondition (pushedConfig g form' (Field.withClassList cl field) checks)
    = map checkCondition (pushedConfig g form field checks).
Proof.
  unfold pushedConfig. induction checks as [|[k c] rest IH]; intros Hb; [done|].
  cbn [fmap list_fmap snd] in Hb. apply Forall_cons in Hb as [Hc Hb].
  cbn [map fst snd]. destruct (IH Hb) as [-> ->].
  split; f_equal.
  unfold failing, customCandidate. cbn [checkCondition validationType].
  change (dataConfig g (Field.withClassList cl field) k) with (dataConfig g field k).
  destruct (dataConfig g field k) as [cfg|]; [|done].
  destruct c as [r|check]; [done|]. cbn [callChecker isEmpty hasError].
  cbn [Field.value Field.withClassList]. by rewrite Hc.
Qed.

Lemma config_classBlind g s t field cl :
  sameData s t → Forall classBlind s.(customChecks).*2 →
  map failing (validationConfig g t (Field.withClassList cl field))
  = map failing (validationConfig g s field)
  ∧ map checkCondition (validationConfig g t (Field.withClassList cl field))
    = map checkCondition (validationConfig g s field).
Proof.
  intros Hd Hb. pose proof (λ name, checkedInput_sameData s t name Hd) as Hr.
  destruct Hd as (_ & _ & _ & Hk).
  unfold validationConfig, customConfig. rewrite !map_app, Hk.
  destruct (pushed_classBlind g (formAttributes s) (formAttributes t) field cl
              (customChecks s) Hb) as [-> ->].
  split; f_equal. unfold builtinConfig, failing. cbn. by rewrite Hr.
Qed.

Lemma validateField_outcome g p i s t o o' s' t' :
  sameData s t → Forall classBlind s.(customChecks).*2 →
  validateField g p i s = (o, s') → validateField g p i t = (o', t') → o' = o.
Proof.
  intros Hd Hb E E'. pose proof Hd as (nd & _ & Ha & Hk).
  destruct (nodes s !! i) as [field|] eqn:Hf.
  - destruct (strip_lookup _ _ i field (nd i) Hf) as (field' & Hf' & Hs).
    apply strip_only_classes in Hs.
    assert (missing g t = missing g s) as Hm by (unfold missing; by rewrite Ha, Hk).
    destruct (config_classBlind g s t field (Field.classList field') Hd Hb)
      as [Hfail Happ].
    rewrite <- Hs in Hfail, Happ.
    apply existsb_map_eq in Hfail. apply existsb_map_eq in Happ.
    destruct (missing g s) as [k|] eqn:Hms.
    + rewrite (validateField_missing g p i s field k Hf Hms) in E.
      rewrite (validateField_missing g p i t field' k Hf' Hm) in E'. congruence.
    + assert (formGroup p field' = formGroup p field) as Hg by (by rewrite Hs).
      destruct (formGroup p field) as [w|] eqn:Hw.
      * destruct (validateField_group g p i s field w Hf Hms Hw) as (? & E1 & _).
        destruct (validateField_group g p i t field' w Hf' Hm Hg) as (? & E2 & _).
        rewrite Hfail in E2. congruence.
      * destruct (validateField_nogroup g p i s field Hf Hms Hw) as (? & E1 & _).
        destruct (validateField_nogroup g p i t field' Hf' Hm Hg) as (? & E2 & _).
        unfold applicable in E1, E2. rewrite Happ in E2. congruence.
  - assert (nodes t !! i = None) as Hf'.
    { specialize (nd i). rewrite Hf in nd. by destruct (nodes t !! i). }
    rewrite (validateField_dangling g p i s Hf) in E.
    rewrite (validateField_dangling g p i t Hf') in E'. congruence.
Qed.

Lemma validateField_stable g p i s t o s' :
  sameData s t → Forall classBlind s.(customChecks).*2 →
  validateField g p i s = (o, s') →
  ∃ t', validateField g p i t = (o, t') ∧ sameData s' t'
        ∧ ∃ evs, s'.(dispatched) = s.(dispatched) ++ evs
                 ∧ t'.(dispatched) = t.(dispatched) ++ evs.
Proof.
  intros Hd Hb E. destruct (validateField g p i t) as [o' t'] eqn:E'.
  pose proof (validateField_outcome g p i s t o o' s' t' Hd Hb E E') as ->.
  exists t'. split; [done|]. split.
  - destruct (validateField_evaluates g p i s _ _ E) as (w & F).
    destruct (validateField_evaluates g p i t _ _ E') as (w' & F').
    apply evaluates_touches, touches_sameData in F, F'.
    eapply sameData_trans; [apply sameData_sym, F|].
    eapply sameData_trans; [exact Hd | exact F'].
  - destruct (validateField_events g p i s _ _ E) as [[-> D]|(Ho & D & _)];
      destruct (validateField_events g p i t _ _ E') as [[Ho' D']|(Ho' & D' & _)];
      try congruence.
    + by exists [(i, errorEvent g)].
    + exists []. rewrite !app_nil_r. by split.
Qed.

Lemma loop_stable g p l s t o s' :
  sameData s t → Forall classBlind s.(customChecks).*2 →
  every (validateField g p) l s = (o, s') →
  ∃ t', every (validateField g p) l t = (o, t') ∧ sameData s' t'
        ∧ ∃ evs, s'.(dispatched) = s.(dispatched) ++ evs
                 ∧ t'.(dispatched) = t.(dispatched) ++ evs.
Proof.
  revert s t. induction l as [|i rest IH]; intros s t Hd Hb E.
  { simpl in E. unfold ret in E. simplify_eq. exists t. split; [done|].
    split; [done|]. exists []. rewrite !app_nil_r. by split. }
  simpl in E |- *. unfold bind in E |- *.
  destruct (validateField g p i s) as [o1 s1] eqn:E1.
  destruct (validateField_stable g p i s t o1 s1 Hd Hb E1)
    as (t1 & -> & Hd1 & evs & D & D').
  destruct o1 as [[]|e].
  - assert (customChecks s1 = customChecks s) as Hk.
    { destruct (validateField_evaluates g p i s _ _ E1) as (w & F). by destruct F. }
    rewrite <- Hk in Hb.
    destruct (IH s1 t1 Hd1 Hb E) as (t' & -> & Hd' & evs' & D2 & D2').
    exists t'. split; [done|]. split; [done|]. exists (evs ++ evs').
    by rewrite D2, D2', D, D', !app_assoc.
  - unfold ret in E. simplify_eq. exists t1. split; [done|]. split; [done|].
    by exists evs.
  - simplify_eq. exists t1. split; [done|]. split; [done|]. by exists evs.
Qed.

(** X22.  Validating again gives the same result.  When no registered
    function reads the class list of the field it is given, a call of
    [validate] made right after another one ends the same way: the same
    error is raised, or the form is submitted again, or the same event
    is dispatched on the same field. *)
Theorem revalidation_is_stable g p s o s1 :
  Forall classBlind s.(customChecks).*2 →
  validate g p s = (o, s1) →
  ∃ s2, validate g p s1 = (o, s2)
        ∧ s2.(submits) - s1.(submits) = s1.(submits) - s.(submits)
        ∧ ∃ evs, s1.(dispatched) = s.(dispatched) ++ evs
                 ∧ s2.(dispatched) = s1.(dispatched) ++ evs.
Proof.
  intros Hb E. rewrite validate_unfold in E. rewrite validate_unfold.
  destruct (every _ _ (setFields (fieldList g s) s)) as [o0 s0] eqn:E0.
  pose proof (loop_touches g p _ _ _ _ E0) as T.
  assert (fieldList g s1 = fieldList g s ∧ sameData s0 s1
          ∧ dispatched s1 = dispatched s0
          ∧ ∃ d, submits s1 = submits s + d
                 ∧ d = (if o0 is Normal true then 1 else 0)
                 ∧ o = (match o0 with Normal _ => Normal tt | Throw e => Throw e end))
    as (Hl & Hd & Hdis & d & Hsub & Hdd & Ho).
  { pose proof (to_submits _ _ _ _ T) as Hs. pose proof (to_fields _ _ _ _ T) as Hfl.
    pose proof (to_controls _ _ _ _ T) as Hc.
    cbn [submits fields formControls setFields] in Hs, Hfl, Hc.
    destruct o0 as [[]|e]; simplify_eq; cbn [submits setSubmits dispatched];
      (split; [destruct g; cbn [fieldList fields formControls setSubmits] in *;
               congruence|]);
      (split; [by repeat split|]); (split; [done|]).
    - exists 1. split; [lia | done].
    - exists 0. split; [lia | done].
    - exists 0. split; [lia | done]. }
  assert (sameData (setFields (fieldList g s) s) (setFields (fieldList g s1) s1))
    as Hd0.
  { eapply sameData_trans; [eapply touches_sameData, T|].
    destruct Hd as (? & ? & ? & ?). by repeat split. }
  destruct (loop_stable g p (fieldList g s) _ _ _ _ Hd0 Hb E0)
    as (t' & E' & _ & evs & D & D').
  rewrite Hl in E' |- *. rewrite E'. cbn [dispatched setFields] in D, D'.
  pose proof (to_submits _ _ _ _ (loop_touches g p _ _ _ _ E')) as Hs'.
  cbn [submits setFields] in Hs'.
  destruct o0 as [[]|e]; eexists; (split; [by rewrite Ho|]);
    cbn [submits setSubmits dispatched]; (split; [lia|]);
    exists evs; (split; [congruence|]); congruence.
Qed.

Lemma revalidation_is_stable_witness :
  let s := Sample.threeControls ModuleExport in
  let s1 := Sample.after (validate ModuleExport defaultParams) s in
  ∃ s2, validate ModuleExport defaultParams s1 = (Normal tt, s2)
        ∧ s2.(submits) - s1.(submits) = s1.(submits) - s.(submits)
        ∧ ∃ evs, s1.(dispatched) = s.(dispatched) ++ evs
                 ∧ s2.(dispatched) = s1.(dispatched) ++ evs.
Proof.
  intros s s1.
  apply (revalidation_is_stable ModuleExport defaultParams s (Normal tt) s1).
  - vm_compute. constructor.
  - vm_compute. reflexivity.
Defined.

(** The condition on the functions cannot be dropped: a rule that
    rejects a field already marked [is-valid] lets the first call submit
    and the second call report. *)
Example class_reading_rule_is_not_stable :
  let once (_ : string) (field : Field.t) (_ : list string) :=
    negb (classList.contains field.(Field.classList) "is-valid") in
  let s := Sample.after (setFieldCheck (JsString "once") (JsFunction once))
             (builder ModuleExport
                (Sample.page
                   [Sample.control "text" [("data-validate-once", "")] "Ada" "first" 12]
                   [("data-msg-once", "Already validated")])) in
  let s1 := Sample.after (validate ModuleExport defaultParams) s in
  let s2 := Sample.after (validate ModuleExport defaultParams) s1 in
  (s.(submits), s1.(submits), s2.(submits)) = (0, 1, 1)
  ∧ s1.(dispatched) = []
  ∧ s2.(dispatched) = [(0, errorEvent ModuleExport)].
Proof. vm_compute. repeat split. Qed.

(** ** The entry point *)

Lemma pushForms_filter l nodeList :
  pushForms l nodeList = nodeList ++ (identOf <$> filter (λ x, isForm x = true) l).
Proof.
  revert nodeList. induction l as [|x rest IH]; intros nodeList.
  - by rewrite app_nil_r.
  - cbn [pushForms]. rewrite IH, filter_cons. destruct (isForm x) eqn:Hx.
    + rewrite decide_True by done. by rewrite <- app_assoc.
    + by rewrite decide_False by done.
Qed.

Lemma formMessage_insert_ne g attrs k v name :
  Str.asciiLowercase ("data-msg-" +:+ name) ≠ k →
  (∀ n, dataName name = Some n → "data-" +:+ hyphenate ("msg" +:+ n) ≠ k) →
  formMessage g (<[k := v]> attrs) name = formMessage g attrs name.
Proof.
  intros H1 H2. destruct g; unfold formMessage, getAttribute;
    [|by rewrite lookup_insert_ne..].
  destruct (dataName name) as [n|]; [|done]. cbn [mbind option_bind].
  unfold dataset. rewrite lookup_insert_ne; [done|].
  intros Heq. by apply (H2 n eq_refl).
Qed.

Lemma builder_idempotent g s : builder g (builder g s) = builder g s.
Proof.
  assert (∀ k, k ∈ ["required"; "email"; "tel"] →
            formMessage g (<["novalidate" := "novalidate"]> s.(formAttributes)) k
            = formMessage g s.(formAttributes) k) as Hk.
  { intros k Hin. repeat (apply elem_of_cons in Hin as [->|Hin]);
      [| | |by apply elem_of_nil in Hin];
      (apply formMessage_insert_ne;
         [vm_compute; discriminate | vm_compute; intros n [= <-]; discriminate]). }
  destruct g; unfold builder;
    cbn [formAttributes setFormAttributes setMessages setCustomChecks setFields
         formControls nodes errorBlocks timers dispatched submits fields messages
         customChecks];
    rewrite insert_insert_eq, !Hk; (reflexivity || (repeat constructor)).
Qed.

Lemma fst_pair_fmap {A B} (p : B) (l : list A) : ((λ i, (i, p)) <$> l).*1 = l.
Proof. rewrite <- list_fmap_compose. exact (list_fmap_id l). Qed.

Lemma launch_spec g p nodeList d forms d' :
  launch g p nodeList d = (forms, d') →
  forms = (λ i, (i, p)) <$> nodeList
  ∧ d'.(querySelectorAll) = d.(querySelectorAll)
  ∧ ∀ i, d'.(formStates) !! i
         = if decide (i ∈ nodeList) then builder g <$> d.(formStates) !! i
           else d.(formStates) !! i.
Proof.
  revert d forms d'. induction nodeList as [|x rest IH]; intros d forms d' E.
  - cbn in E. simplify_eq. split; [done|]. split; [done|]. intros i.
    rewrite decide_False; [done|]. apply not_elem_of_nil.
  - cbn [launch] in E.
    destruct (launch g p rest _) as [forms1 d1] eqn:E1. simplify_eq.
    destruct (IH _ _ _ E1) as (-> & Hq & Hs). cbn [formStates setFormStates] in Hs.
    split; [done|]. split; [done|]. intros i. rewrite Hs.
    destruct (decide (i = x)) as [->|Hne].
    + rewrite lookup_alter_eq. rewrite (decide_True (P := x ∈ x :: rest)) by by left.
      destruct (decide (x ∈ rest)); [|done].
      destruct (formStates d !! x); [|done]. cbn. by rewrite builder_idempotent.
    + rewrite lookup_alter_ne by done.
      destruct (decide (i ∈ rest)) as [Hin|Hin].
      * rewrite decide_True; [done | by right].
      * rewrite decide_False; [done|]. by intros [->|?]%elem_of_cons.
Qed.

(** X23.  [validateLight] of the module and of the closure build
    launches the plugin on forms only.  Whatever it is called on, it
    builds one instance, with the merged parameters, on each
    [HTMLElement] whose tag is [FORM] among the values it looks at (the
    argument itself when it is a form, the elements a selector that is
    not empty finds, or the entries of the list), in their order; the
    state of no other form changes.  The only error is the
    [SyntaxError] of a selector that is not empty and does not parse,
    and nothing is built then.  A single element that is not a form, the
    empty string and the other falsy values give no instance and no
    error, and the document is not queried for them. *)
Theorem validateLight_builds_forms b element customParams d :
  match validateLight b element customParams d with
  | (SyntaxError, d') =>
      d' = d
      ∧ ∃ s, element = Selector s ∧ s ≠ EmptyString ∧ d.(querySelectorAll) s = None
  | (Instances forms, d') =>
      forms = (λ x, (identOf x, assignParams defaultParams customParams))
              <$> filter (λ x, isForm x = true) (candidates element d)
      ∧ (∀ s, element = Selector s → s ≠ EmptyString →
           is_Some (d.(querySelectorAll) s))
      ∧ ∀ i, d'.(formStates) !! i
             = if decide (i ∈ forms.*1)
               then builder (generation b) <$> d.(formStates) !! i
               else d.(formStates) !! i
  end.
Proof.
  assert (∀ l forms d',
    launch (generation b) (assignParams defaultParams customParams) (pushForms l []) d
    = (forms, d') →
    forms = (λ x, (identOf x, assignParams defaultParams customParams))
            <$> filter (λ x, isForm x = true) l
    ∧ ∀ i, d'.(formStates) !! i
           = if decide (i ∈ forms.*1)
             then builder (generation b) <$> d.(formStates) !! i
             else d.(formStates) !! i) as Hl.
  { intros l forms d' E. destruct (launch_spec _ _ _ _ _ _ E) as (-> & _ & Hs).
    rewrite pushForms_filter, app_nil_l in Hs |- *.
    split; [by rewrite <- list_fmap_compose|].
    intros i. by rewrite Hs, fst_pair_fmap. }
  unfold validateLight, candidates. cbv zeta. destruct (isForm element) eqn:Hf.
  - destruct (launch _ _ _ d) as [forms d'] eqn:E.
    destruct (Hl [element] forms d') as [-> Hs].
    { cbn [pushForms]. by rewrite Hf. }
    split; [done|]. split; [|done]. intros s ->. discriminate.
  - destruct element as [|s|h tag i items].
    + split; [done|]. split; [by intros s [=]|]. intros i.
      rewrite decide_False; [done|]. apply not_elem_of_nil.
    + destruct s as [|c s]; cbn [Str.isEmpty].
      { split; [done|]. split; [by intros ? [= <-]|]. intros i.
        rewrite decide_False; [done|]. apply not_elem_of_nil. }
      destruct (querySelectorAll d (String c s)) as [elementsList|] eqn:Hq.
      * destruct (launch _ _ _ d) as [forms d'] eqn:E.
        destruct (Hl _ _ _ E) as [-> Hs]. split; [done|]. split; [|done].
        intros ? [= <-] _. by rewrite Hq.
      * split; [done|]. by exists (String c s).
    + destruct (launch _ _ _ d) as [forms d'] eqn:E.
      destruct (Hl _ _ _ E) as [-> Hs]. split; [done|]. split; [|done].
      by intros s [=].
Qed.

(** ** The built-in messages *)

Lemma required_config s field :
  field.(Field.type) ≠ "checkbox" →
  hasAttribute field.(Field.attributes) "required" = true →
  Str.isEmpty (Str.trim field.(Field.value)) = true →
  ∃ c, find failing (builtinConfig s field) = Some c ∧ c.(msg) = message s "required".
Proof.
  intros Ht Hr Hv. unfold builtinConfig. rewrite Hr.
  cbn [find]. unfold failing at 1.
  cbn [checkCondition validationType fieldChecks.empty isEmpty].
  rewrite Hv, (bool_decide_eq_false_2 _ Ht). cbn. by eexists.
Qed.

(** X24.  The three built-in messages are read once, when the instance
    is built, and are not checked: on a new instance whose form tag has
    no [data-msg-required], a required control left blank fails and its
    block reads [null] (module and closure build) or [undefined]
    (object-prototype version), where a registered rule without its
    message would have raised an error. *)
Theorem absent_builtin_message g p s0 fid field w :
  s0.(formAttributes) !! "data-msg-required" = None →
  s0.(nodes) !! fid = Some field → formGroup p field = Some w →
  field.(Field.type) ≠ "checkbox" →
  hasAttribute field.(Field.attributes) "required" = true →
  Str.isEmpty (Str.trim field.(Field.value)) = true →
  ∃ s', validateField g p fid (builder g s0) = (Normal false, s')
        ∧ innerHTML <$> s'.(errorBlocks) !! w
          = Some (match g with
                  | ObjectPrototype => "<span>undefined</span>"
                  | _ => "<span>null</span>"
                  end).
Proof.
  intros Ha Hf Hg Ht Hr Hv.
  assert (nodes (builder g s0) !! fid = Some field) as Hf' by (by destruct g).
  assert (missing g (builder g s0) = None) as Hm by (by destruct g).
  destruct (required_config (builder g s0) field Ht Hr Hv) as (c & Hfind & Hmsg).
  destruct (run_fails g p _ fid field w c Hf' Hm Hg (find_builtin g _ field c Hfind))
    as (s' & E & _ & B & _).
  exists s'. split; [done|]. rewrite B, Hmsg. f_equal.
  assert (message (builder g s0) "required" = formMessage g s0.(formAttributes) "required")
    as ->.
  { unfold message. destruct g; unfold builder; cbv zeta;
      cbn [messages setMessages setFields setCustomChecks setFormAttributes
           formAttributes];
      by rewrite lookup_insert_eq. }
  destruct g; unfold formMessage, getAttribute.
  - change (dataName "required") with (Some "Required").
    cbn [mbind option_bind]. unfold dataset.
    change (hyphenLower ("msg" +:+ "Required")) with false.
    change ("data-" +:+ hyphenate ("msg" +:+ "Required")) with "data-msg-required".
    by rewrite Ha.
  - change (Str.asciiLowercase ("data-msg-" +:+ "required")) with "data-msg-required".
    by rewrite Ha.
  - change (Str.asciiLowercase ("data-msg-" +:+ "required")) with "data-msg-required".
    by rewrite Ha.
Qed.

Lemma absent_builtin_message_witness :
  ∃ s', validateField ModuleExport defaultParams 0
          (builder ModuleExport (Sample.page [Sample.requiredBlank] []))
        = (Normal false, s')
        ∧ innerHTML <$> s'.(errorBlocks) !! 13 = Some "<span>null</span>".
Proof.
  apply (absent_builtin_message ModuleExport defaultParams
           (Sample.page [Sample.requiredBlank] []) 0 Sample.requiredBlank 13).
  - vm_compute. reflexivity.
  - vm_compute. reflexivity.
  - vm_compute. reflexivity.
  - discriminate.
  - vm_compute. reflexivity.
  - vm_compute. reflexivity.
Defined.

(** ** What the user sees *)

Lemma runTimers_block l w s :
  match (foldl (λ s w, runTimer w s) s l).(errorBlocks) !! w with
  | Some b' =>
      ∃ b, s.(errorBlocks) !! w = Some b ∧ innerHTML b' = innerHTML b
           ∧ (∀ c, c ∈ blockClasses b' → c ∈ blockClasses b)
           ∧ (w ∈ l → "is-hidden" ∉ blockClasses b')
           ∧ (w ∉ l → b' = b)
  | None => s.(errorBlocks) !! w = None
  end.
Proof.
  revert s. induction l as [|x l IH]; intros s.
  { cbn [foldl]. destruct (errorBlocks s !! w) as [b|]; [|done].
    exists b. split; [done|]. split; [done|]. split; [done|].
    split; [by intros ?%elem_of_nil | done]. }
  cbn [foldl]. specialize (IH (runTimer x s)).
  destruct (errorBlocks (foldl _ (runTimer x s) l) !! w) as [b'|].
  - destruct IH as (b1 & Hb1 & Hi & Hc & Hin & Hout).
    destruct (decide (x = w)) as [->|Hne].
    + rewrite runTimer_lookup in Hb1.
      destruct (errorBlocks s !! w) as [b|]; [|discriminate].
      injection Hb1 as <-. exists b. split; [done|]. split; [done|]. split.
      * intros c Hcin. specialize (Hc c Hcin). unfold revealed in Hc.
        cbn [blockClasses] in Hc. by apply classList_remove_elem in Hc as [? _].
      * split; [|by intros []; left]. intros _ Hh.
        destruct (decide (w ∈ l)) as [Hl|Hl]; [by apply Hin|].
        rewrite (Hout Hl) in Hh. by apply revealed_visible in Hh.
    + assert (errorBlocks (runTimer x s) !! w = errorBlocks s !! w) as Hsame.
      { unfold runTimer. cbn [errorBlocks setErrorBlocks]. by rewrite lookup_alter_ne. }
      rewrite Hsame in Hb1. exists b1. split; [done|]. split; [done|].
      split; [done|]. split.
      * intros [->|Hl]%elem_of_cons; [done | by apply Hin].
      * intros Hl. apply Hout. intros ?. apply Hl. by right.
  - destruct (decide (x = w)) as [->|Hne].
    + rewrite runTimer_lookup in IH. by destruct (errorBlocks s !! w).
    + unfold runTimer in IH. cbn [errorBlocks setErrorBlocks] in IH.
      by rewrite lookup_alter_ne in IH.
Qed.

Lemma settle_visible w m s :
  visibleSoon w m s →
  ∃ b, (settle s).(errorBlocks) !! w = Some b
       ∧ innerHTML b = span m ∧ "is-hidden" ∉ blockClasses b.
Proof.
  intros (b & Hb & Hi & Hv). unfold settle. cbn [errorBlocks setTimers].
  pose proof (runTimers_block (timers s) w s) as H.
  destruct (errorBlocks (foldl _ s (timers s)) !! w) as [b'|]; [|congruence].
  destruct H as (b0 & Hb0 & Hi' & Hc & Hin & Hout).
  rewrite Hb in Hb0. injection Hb0 as <-.
  exists b'. split; [done|]. split; [congruence|].
  destruct Hv as [Hv|Hv]; [|by apply Hin]. intros Hh. by apply Hv, Hc.
Qed.

Lemma checkElem_block g p fid field elem w s o s' :
  formGroup p field = Some w →
  checkElem g p fid field elem s = (o, s') →
  (failing elem = true → o = Normal false ∧ visibleSoon w elem.(msg) s')
  ∧ (failing elem = false →
     o = Normal true ∧ s'.(timers) = s.(timers)
     ∧ innerHTML <$> s'.(errorBlocks) !! w = innerHTML <$> s.(errorBlocks) !! w
     ∧ (hiddenNow w s ∨ elem.(checkCondition) = true → hiddenNow w s')).
Proof.
  intros Hg E. unfold checkElem in E. fold (formGroup p field) in E.
  rewrite Hg in E. unfold failing, visibleSoon, hiddenNow.
  destruct (checkCondition elem); cbn [andb].
  - destruct (validationType elem).
    + split; [intros _|discriminate].
      unfold alterClassList, dispatchEvent in E. revert E. run.
      destruct (errorBlocks s !! w) as [b|] eqn:Hb.
      * rewrite (showError_existing field w _ _ _ b) by done.
        intros [= <- <-]. cbn [errorBlocks timers setDispatched setErrorBlocks].
        rewrite lookup_insert_eq. split; [done|].
        eexists. split; [done|]. split; [done|].
        left. apply revealed_visible.
      * rewrite (showError_new field w) by done.
        intros [= <- <-].
        cbn [errorBlocks timers setDispatched setErrorBlocks setTimers].
        rewrite lookup_insert_eq. split; [done|].
        eexists. split; [done|]. split; [done|].
        right. apply elem_of_app. right. by left.
    + split; [discriminate|intros _].
      unfold alterClassList, hideError in E. revert E. run.
      destruct (nonEmpty (Field.value field)); run; cbn [errorBlocks setNodes];
        (destruct (errorBlocks s !! w) as [b|] eqn:Hb; intros [= <- <-];
         cbn [errorBlocks timers setErrorBlocks setNodes];
         [rewrite lookup_insert_eq; split; [done|]; split; [done|]; split; [done|];
          intros _ b' [= <-]; apply classList_add_elem
         |rewrite Hb; split; [done|]; split; [done|]; split; [done|];
          by intros _ b']).
  - unfold ret in E. injection E as <- <-. split; [discriminate|]. intros _.
    split; [done|]. split; [done|]. split; [done|]. by intros [H|H].
Qed.

Lemma walk_block g p fid field w cs s o s' :
  formGroup p field = Some w →
  every (checkElem g p fid field) cs s = (o, s') →
  match find failing cs with
  | Some c => visibleSoon w c.(msg) s'
  | None =>
      s'.(timers) = s.(timers)
      ∧ innerHTML <$> s'.(errorBlocks) !! w = innerHTML <$> s.(errorBlocks) !! w
      ∧ (hiddenNow w s ∨ existsb checkCondition cs = true → hiddenNow w s')
  end.
Proof.
  intros Hg. revert s. induction cs as [|c cs IH]; intros s E.
  { simpl in E. unfold ret in E. injection E as _ <-. simpl.
    split; [done|]. split; [done|]. by intros [H|H]. }
  cbn [find every existsb] in E |- *. unfold bind in E.
  destruct (checkElem g p fid field c s) as [o1 s1] eqn:E1.
  destruct (checkElem_block g p fid field c w s o1 s1 Hg E1) as [Hfail Hpass].
  destruct (failing c) eqn:Hc.
  - destruct (Hfail eq_refl) as [-> Hv]. unfold ret in E. by injection E as _ <-.
  - destruct (Hpass eq_refl) as (-> & T1 & I1 & H1). specialize (IH s1 E).
    destruct (find failing cs) as [c'|]; [done|].
    destruct IH as (T & I & H). split; [congruence|]. split; [congruence|].
    intros [Hh|Hr]; apply H.
    + left. apply H1. by left.
    + destruct (checkCondition c) eqn:Hcc.
      * left. apply H1. by right.
      * by right.
Qed.

(** X25.  The message of a failed field ends up on screen: after an
    evaluation that fails with the candidate [c], and once the pending
    timers have run, the error block of the container shows the message
    of [c] and is not hidden. *)
Theorem failed_message_becomes_visible g p s fid field w c :
  s.(nodes) !! fid = Some field → missing g s = None →
  formGroup p field = Some w →
  find failing (validationConfig g s field) = Some c →
  ∃ s', validateField g p fid s = (Normal false, s')
        ∧ ∃ b, (settle s').(errorBlocks) !! w = Some b
               ∧ innerHTML b = span c.(msg) ∧ "is-hidden" ∉ blockClasses b.
Proof.
  intros Hf Hm Hg Hc.
  destruct (run_fails g p s fid field w c Hf Hm Hg Hc) as (s' & E & _).
  exists s'. split; [done|]. apply settle_visible.
  rewrite (validateField_unfold g p fid s field Hf), Hm in E.
  pose proof (walk_block g p fid field w _ _ _ _ Hg E) as H. by rewrite Hc in H.
Qed.

Lemma failed_message_becomes_visible_witness :
  let s := builder ModuleExport (Sample.page [Sample.requiredBlank] Sample.formTag) in
  ∃ s', validateField ModuleExport defaultParams 0 s = (Normal false, s')
        ∧ ∃ b, (settle s').(errorBlocks) !! 13 = Some b
               ∧ innerHTML b = span (Str "This field is required")
               ∧ "is-hidden" ∉ blockClasses b.
Proof.
  intros s.
  apply (failed_message_becomes_visible ModuleExport defaultParams s 0
           Sample.requiredBlank 13
           {| checkCondition := true; validationType := true;
              msg := Str "This field is required" |});
    vm_compute; reflexivity.
Defined.

(** X26.  A field that passes under a relevant rule hides the error
    block of its container at once, creates none, changes no message
    and queues no timer; the block is still hidden after the pending
    timers have run unless one of them was queued for this container. *)
Theorem passed_field_hides_block g p s fid field w :
  s.(nodes) !! fid = Some field → missing g s = None →
  formGroup p field = Some w →
  existsb failing (validationConfig g s field) = false →
  applicable g s field = true →
  ∃ s', validateField g p fid s = (Normal true, s')
        ∧ s'.(timers) = s.(timers)
        ∧ innerHTML <$> s'.(errorBlocks) !! w = innerHTML <$> s.(errorBlocks) !! w
        ∧ hiddenNow w s'
        ∧ (w ∉ s.(timers) → hiddenNow w (settle s')).
Proof.
  intros Hf Hm Hg Hc Ha.
  destruct (run_passes g p s fid field w Hf Hm Hg Hc) as (s' & E & _).
  exists s'. split; [done|].
  rewrite (validateField_unfold g p fid s field Hf), Hm in E.
  pose proof (walk_block g p fid field w _ _ _ _ Hg E) as H.
  rewrite (find_existsb_false _ _ Hc) in H. destruct H as (T & I & H).
  cbn [refreshed timers errorBlocks setMessages] in T, I.
  assert (hiddenNow w s') as Hh by (apply H; by right).
  split; [done|]. split; [done|]. split; [done|].
  intros Hw b' Hb'. unfold settle in Hb'. cbn [errorBlocks setTimers] in Hb'.
  pose proof (runTimers_block (timers s') w s') as R. rewrite Hb' in R.
  destruct R as (b & Hb & _ & _ & _ & Hout). rewrite T in Hout.
  rewrite (Hout Hw). by apply Hh.
Qed.

Lemma passed_field_hides_block_witness :
  let s := Sample.after (validateField ModuleExport defaultParams 0)
             (builder ModuleExport (Sample.page [Sample.requiredBlank] Sample.formTag)) in
  let typed := Sample.control "text" [("required", "")] "Ada" "last" 13 in
  let filled := setNodes (<[0 := typed]> s.(nodes)) (settle s) in
  ∃ s', validateField ModuleExport defaultParams 0 filled = (Normal true, s')
        ∧ s'.(timers) = filled.(timers)
        ∧ innerHTML <$> s'.(errorBlocks) !! 13 = innerHTML <$> filled.(errorBlocks) !! 13
        ∧ hiddenNow 13 s'
        ∧ (13 ∉ filled.(timers) → hiddenNow 13 (settle s')).
Proof.
  intros s typed filled.
  apply (passed_field_hides_block ModuleExport defaultParams filled 0 typed 13);
    vm_compute; reflexivity.
Defined.

(** * The form-level decision (C2) *)

Lemma validationConfig_frame g s s' field :
  s'.(messages) = s.(messages) → s'.(customChecks) = s.(customChecks) →
  s'.(formAttributes) = s.(formAttributes) →
  (∀ name, checkedInput s' name = checkedInput s name) →
  validationConfig g s' field = validationConfig g s field.
Proof.
  intros Hm Hc Ha Hr.
  unfold validationConfig, customConfig, builtinConfig, message.
  by rewrite Hm, Hc, Ha, Hr.
Qed.

Lemma failing_relevant cs :
  existsb failing cs = true → existsb checkCondition cs = true.
Proof.
  induction cs as [|c cs IH]; [done|]. cbn [existsb]. unfold failing at 1.
  destruct (checkCondition c); [done|]. exact IH.
Qed.

Lemma block_present {A} (b1 b2 : option ErrorBlock) (x y : A) :
  innerHTML <$> b1 = innerHTML <$> b2 →
  (if b1 is Some _ then x else y) = (if b2 is Some _ then x else y).
Proof. by destruct b1, b2. Qed.

Lemma checkElem_timers g p fid field elem w s o s' :
  formGroup p field = Some w →
  checkElem g p fid field elem s = (o, s') →
  s'.(timers)
  = if failing elem
    then (if s.(errorBlocks) !! w is Some _ then s.(timers) else s.(timers) ++ [w])
    else s.(timers).
Proof.
  intros Hg E. unfold checkElem in E. fold (formGroup p field) in E.
  rewrite Hg in E. unfold failing.
  destruct (checkCondition elem); cbn [andb].
  - destruct (validationType elem).
    + unfold alterClassList, dispatchEvent in E. revert E. run.
      destruct (errorBlocks s !! w) as [b|] eqn:Hb.
      * rewrite (showError_existing field w _ _ _ b) by done.
        by intros [= _ <-].
      * rewrite (showError_new field w) by done.
        by intros [= _ <-].
    + unfold alterClassList, hideError in E. revert E. run.
      destruct (nonEmpty (Field.value field)); run; cbn [errorBlocks setNodes];
        (destruct (errorBlocks s !! w) as [b|] eqn:Hb; by intros [= _ <-]).
  - unfold ret in E. by injection E as _ <-.
Qed.

Lemma walk_timers g p fid field w cs s o s' :
  formGroup p field = Some w →
  every (checkElem g p fid field) cs s = (o, s') →
  s'.(timers)
  = if find failing cs is Some _
    then (if s.(errorBlocks) !! w is Some _ then s.(timers) else s.(timers) ++ [w])
    else s.(timers).
Proof.
  intros Hg. revert s. induction cs as [|c cs IH]; intros s E.
  { simpl in E. unfold ret in E. by injection E as _ <-. }
  cbn [find every] in E |- *. unfold bind in E.
  destruct (checkElem g p fid field c s) as [o1 s1] eqn:E1.
  pose proof (checkElem_timers g p fid field c w s o1 s1 Hg E1) as T1.
  destruct (checkElem_block g p fid field c w s o1 s1 Hg E1) as [Hfail Hpass].
  destruct (failing c) eqn:Hc.
  - destruct (Hfail eq_refl) as [-> _]. unfold ret in E. by injection E as _ <-.
  - destruct (Hpass eq_refl) as (-> & _ & I1 & _). rewrite (IH s1 E), T1.
    destruct (find failing cs); [|done]. by apply block_present.
Qed.

Lemma reportable_step g p i w rest s s1 :
  evaluates g i w s s1 → i ∉ rest →
  reportable g p s rest → reportable g p s1 rest.
Proof.
  intros F Hi [Hm Hn]. split.
  { by rewrite (missing_touches g [i] s s1 (evaluates_touches _ _ _ _ _ F)). }
  intros j Hj. destruct (Hn j Hj) as (field & Hf & Hg).
  exists field. split.
  - rewrite (ev_nodes _ _ _ _ _ F j); [done|]. by intros ->.
  - by rewrite (applicable_frame g s s1 field (ev_checks _ _ _ _ _ F)).
Qed.

Lemma reportable_prefix g p s l1 l2 :
  reportable g p s (l1 ++ l2) → reportable g p s l1.
Proof.
  intros [Hm Hn]. split; [done|]. intros i Hi. apply Hn, elem_of_app. by left.
Qed.

(** One control that passes. *)
Lemma pass_step g p s i field :
  s.(nodes) !! i = Some field → missing g s = None →
  (applicable g s field = true → is_Some (formGroup p field)) →
  existsb failing (validationConfig g s field) = false →
  ∃ s', validateField g p i s = (Normal true, s')
        ∧ evaluates g i (formGroup p field) s s'
        ∧ s'.(dispatched) = s.(dispatched)
        ∧ s'.(timers) = s.(timers)
        ∧ (∀ j, innerHTML <$> s'.(errorBlocks) !! j
                = innerHTML <$> s.(errorBlocks) !! j)
        ∧ (∀ j, hiddenNow j s → hiddenNow j s')
        ∧ (applicable g s field = false →
           s'.(nodes) = s.(nodes) ∧ s'.(errorBlocks) = s.(errorBlocks))
        ∧ (applicable g s field = true →
           passedLook i field s'
           ∧ ∀ w, formGroup p field = Some w → hiddenNow w s').
Proof.
  intros Hf Hm Hg Hc. destruct (applicable g s field) eqn:Ha.
  - destruct (Hg eq_refl) as [w Hw].
    destruct (validateField_group g p i s field w Hf Hm Hw) as (s' & E & F & R).
    rewrite Hc in E. rewrite (find_existsb_false _ _ Hc) in R. destruct R as [D P].
    pose proof E as E'. rewrite (validateField_unfold g p i s field Hf), Hm in E'.
    pose proof (walk_block g p i field w _ _ _ _ Hw E') as H.
    rewrite (find_existsb_false _ _ Hc) in H. destruct H as (T & I & H).
    cbn [refreshed timers errorBlocks setMessages] in T, I.
    assert (hiddenNow w s') as Hh by (apply H; by right).
    exists s'. rewrite Hw. split; [done|]. split; [done|]. split; [done|].
    split; [done|]. split; [|split; [|split; [discriminate|]]].
    + intros j. destruct (decide (j = w)) as [->|Hne]; [done|].
      rewrite (ev_blocks _ _ _ _ _ F j); [done|]. by intros [= ->].
    + intros j Hj. destruct (decide (j = w)) as [->|Hne]; [done|].
      unfold hiddenNow. rewrite (ev_blocks _ _ _ _ _ F j); [done|]. by intros [= ->].
    + intros _. split; [by apply P|]. by intros w' [= <-].
  - rewrite (validateField_inert g p i s field Hf Hm Ha).
    exists (refreshed g s). split; [done|]. split; [apply evaluates_messages|].
    by repeat (split; [done|]).
Qed.

(** The controls of a list that all pass. *)
Lemma loop_pass g p l s :
  NoDup l → reportable g p s l → (∀ i, i ∈ l → fieldFails g s i = false) →
  ∃ s', every (validateField g p) l s = (Normal true, s')
        ∧ touches g l s s'
        ∧ s'.(dispatched) = s.(dispatched)
        ∧ s'.(timers) = s.(timers)
        ∧ (∀ j, innerHTML <$> s'.(errorBlocks) !! j
                = innerHTML <$> s.(errorBlocks) !! j)
        ∧ (∀ j, hiddenNow j s → hiddenNow j s')
        ∧ (∀ j, (∀ i field, i ∈ l → s.(nodes) !! i = Some field →
                   applicable g s field = true → formGroup p field ≠ Some j) →
                s'.(errorBlocks) !! j = s.(errorBlocks) !! j)
        ∧ (∀ i field, i ∈ l → s.(nodes) !! i = Some field →
             (applicable g s field = true →
              passedLook i field s'
              ∧ ∀ w, formGroup p field = Some w → hiddenNow w s')
             ∧ (applicable g s field = false → s'.(nodes) !! i = Some field)).
Proof.
  revert s. induction l as [|i rest IH]; intros s Hnd Hrep Hpass.
  { exists s. split; [done|]. split; [apply touches_refl|].
    repeat (split; [done|]). intros i field Hi. inversion Hi. }
  apply NoDup_cons in Hnd as [Hi Hnd]. pose proof Hrep as [Hm Hn].
  destruct (Hn i) as (field & Hf & Hg); [by left|].
  pose proof (Hpass i (list_elem_of_here _ _)) as Hfi.
  unfold fieldFails in Hfi. rewrite Hf in Hfi.
  destruct (pass_step g p s i field Hf Hm Hg Hfi)
    as (s1 & E1 & F1 & D1 & T1 & I1 & H1 & N1 & P1).
  pose proof (evaluates_touches _ _ _ _ _ F1) as To1.
  destruct (IH s1) as (s' & E & To & D & T & I & H & B & P).
  - done.
  - apply (reportable_step g p i _ rest s s1 F1 Hi). split; [done|].
    intros j Hj. apply Hn. by right.
  - intros j Hj. rewrite (fieldFails_touches g [i] s s1 j To1).
    + apply Hpass. by right.
    + intros Hin. apply list_elem_of_singleton in Hin as ->. done.
  - assert (∀ j fj, j ∈ rest → nodes s1 !! j = Some fj ↔ nodes s !! j = Some fj)
      as Hsame.
    { intros j fj Hj. rewrite (ev_nodes _ _ _ _ _ F1 j); [done|]. by intros ->. }
    exists s'. split; [|split; [|split; [|split; [|split; [|split; [|split]]]]]].
    + simpl. by rewrite (bind_normal _ _ _ _ _ E1).
    + apply (touches_trans g [i] rest s s1 s'); done.
    + congruence.
    + congruence.
    + intros j. by rewrite I, I1.
    + intros j Hj. by apply H, H1.
    + intros j Hj. rewrite B.
      * destruct (applicable g s field) eqn:Ha.
        -- apply (ev_blocks _ _ _ _ _ F1 j). apply (Hj i field); [by left|done|done].
        -- by destruct (N1 eq_refl) as [_ ->].
      * intros i' f' Hi' Hf' Ha'. apply (Hj i' f'); [by right| |].
        -- by apply Hsame.
        -- by rewrite <- (applicable_frame g s s1 f' (ev_checks _ _ _ _ _ F1)).
    + intros j fj Hj Hfj. apply elem_of_cons in Hj as [->|Hj].
      * assert (fj = field) as -> by congruence. split.
        -- intros Ha. destruct (P1 Ha) as [(f' & Hf' & Hlook) Hh]. split.
           ++ exists f'. split; [|done]. by rewrite (to_nodes _ _ _ _ To i Hi).
           ++ intros w Hw. by apply H, Hh.
        -- intros Ha. destruct (N1 Ha) as [Hnodes _].
           by rewrite (to_nodes _ _ _ _ To i Hi), Hnodes.
      * rewrite <- (applicable_frame g s s1 fj (ev_checks _ _ _ _ _ F1)).
        apply P; [done|]. by apply Hsame.
Qed.

(** One control that fails. *)
Lemma fail_step g p s x field w c :
  s.(nodes) !! x = Some field → missing g s = None →
  formGroup p field = Some w →
  find failing (validationConfig g s field) = Some c →
  ∃ s', validateField g p x s = (Normal false, s')
        ∧ evaluates g x (Some w) s s'
        ∧ failedLook g p x w c s s'
        ∧ visibleSoon w c.(msg) s'
        ∧ s'.(timers)
          = (if s.(errorBlocks) !! w is Some _ then s.(timers) else s.(timers) ++ [w]).
Proof.
  intros Hf Hm Hg Hc.
  destruct (validateField_group g p x s field w Hf Hm Hg) as (s' & E & F & R).
  rewrite Hc in R.
  assert (existsb failing (validationConfig g s field) = true) as Hex.
  { destruct (existsb failing _) eqn:Hex; [done|].
    by rewrite (find_existsb_false _ _ Hex) in Hc. }
  rewrite Hex in E. exists s'. split; [done|]. split; [done|]. split; [done|].
  pose proof E as E'. rewrite (validateField_unfold g p x s field Hf), Hm in E'.
  pose proof (walk_block g p x field w _ _ _ _ Hg E') as H. rewrite Hc in H.
  pose proof (walk_timers g p x field w _ _ _ _ Hg E') as T. rewrite Hc in T.
  split; [done|]. exact T.
Qed.

Lemma loop_fail g p pre x post s :
  NoDup (pre ++ x :: post) → reportable g p s (pre ++ [x]) →
  (∀ i, i ∈ pre → fieldFails g s i = false) → fieldFails g s x = true →
  ∃ s' fx w c,
    every (validateField g p) (pre ++ x :: post) s = (Normal false, s')
    ∧ s.(nodes) !! x = Some fx ∧ formGroup p fx = Some w
    ∧ find failing (validationConfig g (reached g s pre) fx) = Some c
    ∧ touches g (pre ++ [x]) s s'
    ∧ s'.(dispatched) = s.(dispatched) ++ [(x, errorEvent g)]
    ∧ s'.(timers)
      = (if s.(errorBlocks) !! w is Some _ then s.(timers) else s.(timers) ++ [w])
    ∧ (∃ f', s'.(nodes) !! x = Some f' ∧ p.(invalidClass) ∈ Field.classList f')
    ∧ visibleSoon w c.(msg) s'
    ∧ (∀ j, (∀ i field, i ∈ pre ++ [x] → s.(nodes) !! i = Some field →
               applicable g s field = true → formGroup p field ≠ Some j) →
            s'.(errorBlocks) !! j = s.(errorBlocks) !! j)
    ∧ (∀ i field, i ∈ pre → s.(nodes) !! i = Some field →
         (applicable g s field = true →
          passedLook i field s'
          ∧ ∀ wi, formGroup p field = Some wi → wi ≠ w → hiddenNow wi s')
         ∧ (applicable g s field = false → s'.(nodes) !! i = Some field)).
Proof.
  intros Hnd Hrep Hpass Hx.
  apply NoDup_app in Hnd as (Hpre & Hdisj & Hxp).
  assert (x ∉ pre) as Hxpre.
  { intros Hin. apply (Hdisj x Hin). by left. }
  destruct (loop_pass g p pre s Hpre (reportable_prefix _ _ _ _ _ Hrep) Hpass)
    as (s1 & E1 & To1 & D1 & T1 & I1 & H1 & B1 & P1).
  destruct Hrep as [Hm Hn].
  destruct (Hn x) as (fx & Hfx & Hgx); [apply elem_of_app; right; by left|].
  pose proof Hx as Hx'. unfold fieldFails in Hx'. rewrite Hfx in Hx'.
  assert (applicable g s fx = true) as Hax by by apply failing_relevant.
  destruct (Hgx Hax) as [w Hw].
  assert (nodes s1 !! x = Some fx) as Hfx1.
  { by rewrite (to_nodes _ _ _ _ To1 x Hxpre). }
  assert (validationConfig g s1 fx = validationConfig g (reached g s pre) fx) as Hcfg.
  { pose proof (loop_messages g p pre s _ _ E1) as Hmsg.
    assert (∀ name, checkedInput s1 name = checkedInput s name) as Hr.
    { intros name. by eapply checkedInput_touches. }
    destruct pre as [|i pre'].
    - apply validationConfig_frame; [done|by destruct To1..|done].
    - destruct (Hn i) as (fi & Hfi & _); [by left|]. rewrite Hfi in Hmsg.
      apply validationConfig_frame; [done|by destruct To1..|done]. }
  assert (existsb failing (validationConfig g s1 fx) = true) as Hx1.
  { pose proof (fieldFails_touches g pre s s1 x To1 Hxpre) as Hff.
    unfold fieldFails in Hff. rewrite Hfx, Hfx1 in Hff. by rewrite Hff. }
  destruct (find_existsb_true _ _ Hx1) as (c & Hc & _).
  destruct (fail_step g p s1 x fx w c Hfx1
              (eq_trans (missing_touches g pre s s1 To1) Hm) Hw Hc)
    as (s' & E & F & (D & _ & f' & Hf' & Hcl) & V & T).
  exists s', fx, w, c.
  split; [|split; [done|split; [done|split; [by rewrite <- Hcfg|]]]].
  { rewrite (every_app_true _ _ _ _ _ E1). simpl.
    by rewrite (bind_normal _ _ _ _ _ E). }
  split; [eapply touches_trans; [exact To1 | by eapply evaluates_touches]|].
  split; [by rewrite D, D1|].
  split; [rewrite T, T1; by apply block_present|].
  split; [by exists f'|]. split; [done|]. split.
  - intros j Hj. rewrite (ev_blocks _ _ _ _ _ F j).
    + apply B1. intros i field Hi. apply Hj. apply elem_of_app. by left.
    + rewrite <- Hw. apply (Hj x fx); [apply elem_of_app; right; by left|done|done].
  - intros i fi Hi Hfi. assert (i ≠ x) as Hix by (by intros ->).
    destruct (P1 i fi Hi Hfi) as [Pa Pn]. split.
    + intros Ha. destruct (Pa Ha) as [(fi' & Hfi' & Hlook) Hh]. split.
      * exists fi'. split; [|done]. by rewrite (ev_nodes _ _ _ _ _ F i).
      * intros wi Hwi Hne. unfold hiddenNow.
        rewrite (ev_blocks _ _ _ _ _ F wi); [by apply Hh|]. by intros [= ->].
    + intros Ha. by rewrite (ev_nodes _ _ _ _ _ F i), (Pn Ha).
Qed.

(** C2, as amended.  [validate] takes the fields in the order of the
    list.  When every field passes, no error event is dispatched, no
    timer is queued, no error block is created or rewritten, and the
    form is submitted.  When some field fails, the failure report goes
    to the first failing field [x] and to no other: [x] gets the invalid
    class, the error block of its container shows the message of its
    first failing rule and is visible or about to be, and the one event
    of the call is the error event on [x].  The iteration stops there:
    the nodes of the later fields are as they were, no event is
    dispatched on them, and the form is not submitted.  The fields
    before [x] are not left alone: one that passed under a relevant
    rule carries the styling of a passed field and the error block of
    its container is hidden (unless that container is the one of [x]);
    one that no rule is relevant to is as it was.  The only error
    blocks the call writes are those of the containers of the fields it
    evaluated under a relevant rule, so the block of a later field is
    untouched unless it shares its container with such a field.  So
    the form is submitted exactly when every field passed.  A field
    needs a container only when some rule is relevant to it. *)
Theorem form_short_circuit g p s :
  NoDup (fieldList g s) →
  (reportable g p s (fieldList g s) →
   ∃ s', validate g p s = (Normal tt, s')
         ∧ s'.(submits)
           = (if existsb (fieldFails g s) (fieldList g s)
              then s.(submits) else S s.(submits)))
  ∧ (reportable g p s (fieldList g s) →
     existsb (fieldFails g s) (fieldList g s) = false →
     ∃ s', validate g p s = (Normal tt, s')
           ∧ s'.(submits) = S s.(submits)
           ∧ s'.(dispatched) = s.(dispatched)
           ∧ s'.(timers) = s.(timers)
           ∧ (∀ j, innerHTML <$> s'.(errorBlocks) !! j
                   = innerHTML <$> s.(errorBlocks) !! j)
           ∧ (∀ j, (∀ i field, i ∈ fieldList g s → s.(nodes) !! i = Some field →
                      applicable g s field = true → formGroup p field ≠ Some j) →
                   s'.(errorBlocks) !! j = s.(errorBlocks) !! j)
           ∧ (∀ i field, i ∈ fieldList g s → s.(nodes) !! i = Some field →
                (applicable g s field = true →
                 passedLook i field s'
                 ∧ ∀ w, formGroup p field = Some w → hiddenNow w s')
                ∧ (applicable g s field = false → s'.(nodes) !! i = Some field)))
  ∧ (∀ pre x post,
       fieldList g s = pre ++ x :: post → reportable g p s (pre ++ [x]) →
       existsb (fieldFails g s) pre = false → fieldFails g s x = true →
       ∃ s' fx w c,
         validate g p s = (Normal tt, s')
         ∧ s.(nodes) !! x = Some fx ∧ formGroup p fx = Some w
         ∧ find failing (validationConfig g (reached g s pre) fx) = Some c
         ∧ s'.(submits) = s.(submits)
         ∧ s'.(dispatched) = s.(dispatched) ++ [(x, errorEvent g)]
         ∧ s'.(timers)
           = (if s.(errorBlocks) !! w is Some _
              then s.(timers) else s.(timers) ++ [w])
         ∧ (∃ f', s'.(nodes) !! x = Some f'
                  ∧ p.(invalidClass) ∈ Field.classList f')
         ∧ visibleSoon w c.(msg) s'
         ∧ (∀ y, y ∈ post → s'.(nodes) !! y = s.(nodes) !! y)
         ∧ (∀ j, (∀ i field, i ∈ pre ++ [x] → s.(nodes) !! i = Some field →
                    applicable g s field = true → formGroup p field ≠ Some j) →
                 s'.(errorBlocks) !! j = s.(errorBlocks) !! j)
         ∧ (∀ i field, i ∈ pre → s.(nodes) !! i = Some field →
              (applicable g s field = true →
               passedLook i field s'
               ∧ ∀ wi, formGroup p field = Some wi → wi ≠ w → hiddenNow wi s')
              ∧ (applicable g s field = false → s'.(nodes) !! i = Some field))).
Proof.
  intros Hnd.
  assert (∀ pre x post,
    fieldList g s = pre ++ x :: post → reportable g p s (pre ++ [x]) →
    existsb (fieldFails g s) pre = false → fieldFails g s x = true →
    ∃ s' fx w c,
      validate g p s = (Normal tt, s')
      ∧ s.(nodes) !! x = Some fx ∧ formGroup p fx = Some w
      ∧ find failing (validationConfig g (reached g s pre) fx) = Some c
      ∧ s'.(submits) = s.(submits)
      ∧ s'.(dispatched) = s.(dispatched) ++ [(x, errorEvent g)]
      ∧ s'.(timers)
        = (if s.(errorBlocks) !! w is Some _
           then s.(timers) else s.(timers) ++ [w])
      ∧ (∃ f', s'.(nodes) !! x = Some f'
               ∧ p.(invalidClass) ∈ Field.classList f')
      ∧ visibleSoon w c.(msg) s'
      ∧ (∀ y, y ∈ post → s'.(nodes) !! y = s.(nodes) !! y)
      ∧ (∀ j, (∀ i field, i ∈ pre ++ [x] → s.(nodes) !! i = Some field →
                 applicable g s field = true → formGroup p field ≠ Some j) →
              s'.(errorBlocks) !! j = s.(errorBlocks) !! j)
      ∧ (∀ i field, i ∈ pre → s.(nodes) !! i = Some field →
           (applicable g s field = true →
            passedLook i field s'
            ∧ ∀ wi, formGroup p field = Some wi → wi ≠ w → hiddenNow wi s')
           ∧ (applicable g s field = false → s'.(nodes) !! i = Some field)))
    as Hrej.
  { intros pre x post Hl Hrep Hpre Hx. rewrite validate_unfold, Hl.
    rewrite Hl in Hnd.
    destruct (loop_fail g p pre x post (setFields (pre ++ x :: post) s))
      as (s' & fx & w & c & E & Hfx & Hw & Hc & To & D & T & L & V & B & P);
      [done | exact Hrep | by apply existsb_false_elem | done |].
    rewrite E. exists s', fx, w, c.
    split; [done|]. split; [done|]. split; [done|].
    split; [by destruct pre|]. split; [by destruct To|].
    split; [done|]. split; [done|]. split; [done|]. split; [done|].
    split; [|split; [exact B | exact P]].
    intros y Hy. rewrite (to_nodes _ _ _ _ To y); [done|].
    intros Hin. apply NoDup_app in Hnd as (_ & Hdisj & Hxp).
    apply NoDup_cons in Hxp as [Hxpost _].
    apply elem_of_app in Hin as [Hin|Hin].
    - apply (Hdisj y Hin). by right.
    - apply list_elem_of_singleton in Hin as ->. done. }
  assert (reportable g p s (fieldList g s) →
    existsb (fieldFails g s) (fieldList g s) = false →
    ∃ s', validate g p s = (Normal tt, s')
          ∧ s'.(submits) = S s.(submits)
          ∧ s'.(dispatched) = s.(dispatched)
          ∧ s'.(timers) = s.(timers)
          ∧ (∀ j, innerHTML <$> s'.(errorBlocks) !! j
                  = innerHTML <$> s.(errorBlocks) !! j)
          ∧ (∀ j, (∀ i field, i ∈ fieldList g s → s.(nodes) !! i = Some field →
                     applicable g s field = true → formGroup p field ≠ Some j) →
                  s'.(errorBlocks) !! j = s.(errorBlocks) !! j)
          ∧ (∀ i field, i ∈ fieldList g s → s.(nodes) !! i = Some field →
               (applicable g s field = true →
                passedLook i field s'
                ∧ ∀ w, formGroup p field = Some w → hiddenNow w s')
               ∧ (applicable g s field = false → s'.(nodes) !! i = Some field)))
    as Hacc.
  { intros Hrep Hex. rewrite validate_unfold.
    destruct (loop_pass g p (fieldList g s) (setFields (fieldList g s) s))
      as (s' & E & To & D & T & I & H & B & P);
      [done | exact Hrep | by apply existsb_false_elem |].
    rewrite E. eexists. split; [reflexivity|].
    cbn [submits setSubmits dispatched timers errorBlocks nodes].
    split; [by destruct To as [_ _ _ _ _ _ -> _ _]|].
    split; [done|]. split; [done|]. split; [done|]. split; [exact B | exact P]. }
  split; [|split; [exact Hacc | exact Hrej]].
  intros Hrep. destruct (existsb (fieldFails g s) (fieldList g s)) eqn:Hex.
  - destruct (existsb_first _ _ Hex) as (pre & x & post & Hl & Hpre & Hx).
    destruct (Hrej pre x post Hl) as (s' & fx & w & c & E & _ & _ & _ & Hs & _);
      [|done|done|].
    + apply (reportable_prefix g p s (pre ++ [x]) post).
      rewrite <- app_assoc. cbn [app]. by rewrite <- Hl.
    + by exists s'.
  - destruct (Hacc Hrep eq_refl) as (s' & E & Hs & _). by exists s'.
Qed.

Lemma form_short_circuit_witness :
  let s := Sample.fourControls ModuleExport in
  ∃ s', validate ModuleExport defaultParams s = (Normal tt, s')
        ∧ s'.(submits) = 0
        ∧ s'.(dispatched) = [(2, "validate-light:error")]
        ∧ s'.(timers) = [13]
        ∧ (∃ f', s'.(nodes) !! 2 = Some f' ∧ "is-invalid" ∈ Field.classList f')
        ∧ visibleSoon 13 (Str "This field is required") s'
        ∧ (∀ y, y ∈ [3] → s'.(nodes) !! y = s.(nodes) !! y)
        ∧ s'.(errorBlocks) !! 14 = None
        ∧ passedLook 0 Sample.requiredFilled s'
        ∧ hiddenNow 12 s'
        ∧ s'.(nodes) !! 1 = Some Sample.looseNote.
Proof.
  intros s.
  destruct (form_short_circuit ModuleExport defaultParams s) as (_ & _ & H).
  { apply (bool_decide_unpack _). vm_compute. exact I. }
  destruct (H [0; 1] 2 [3])
    as (s' & fx & w & c & E & Hfx & Hw & Hc & Hs & D & T & L & V & N & B & P).
  - vm_compute. reflexivity.
  - split; [vm_compute; reflexivity|].
    intros i Hi. cbn in Hi.
    repeat (apply elem_of_cons in Hi as [->|Hi]);
      [eexists; split;
         [vm_compute; reflexivity
         |intros Ha; first [discriminate Ha | by eexists]] ..
      | by apply elem_of_nil in Hi].
  - vm_compute. reflexivity.
  - vm_compute. reflexivity.
  - vm_compute in Hfx. injection Hfx as <-.
    vm_compute in Hw. injection Hw as <-.
    vm_compute in Hc. injection Hc as <-.
    exists s'. split; [exact E|]. split; [exact Hs|]. split; [exact D|].
    split; [exact T|]. split; [exact L|]. split; [exact V|]. split; [exact N|].
    split.
    { rewrite B; [vm_compute; reflexivity|].
      intros i field Hi Hf _ Hg. cbn in Hi.
      repeat (apply elem_of_cons in Hi as [->|Hi]);
        [vm_compute in Hf; injection Hf as <-; vm_compute in Hg; discriminate Hg ..
        | by apply elem_of_nil in Hi]. }
    destruct (P 0 Sample.requiredFilled) as [Pa _];
      [by left | vm_compute; reflexivity |].
    destruct Pa as [Pl Ph]; [vm_compute; reflexivity|].
    split; [exact Pl|]. split.
    { apply (Ph 12); [vm_compute; reflexivity | done]. }
    destruct (P 1 Sample.looseNote) as [_ Pn];
      [right; by left | vm_compute; reflexivity |].
    apply Pn. vm_compute. reflexivity.
Defined.

(** C2 as stated fails twice.  On the first form the first control
    passes, the second is the first to fail, and the call has changed
    the classes of the first one.  On the second form the third control
    is inside the container of the second, the first to fail, and after
    the call that container has an error block it had not. *)
Lemma passing_field_is_decorated :
  let s := Sample.threeControls ModuleExport in
  let t := Sample.sharedGroup ModuleExport in
  (fieldFails ModuleExport s 0 = false
   ∧ fieldFails ModuleExport s 1 = true
   ∧ Field.classList <$> s.(nodes) !! 0 = Some []
   ∧ Field.classList <$>
       (Sample.after (validate ModuleExport defaultParams) s).(nodes) !! 0
     = Some ["is-valid"])
  ∧ (fieldFails ModuleExport t 0 = false
     ∧ fieldFails ModuleExport t 1 = true
     ∧ formGroup defaultParams <$> t.(nodes) !! 2 = Some (Some 13)
     ∧ t.(errorBlocks) !! 13 = None
     ∧ innerHTML <$>
         (Sample.after (validate ModuleExport defaultParams) t).(errorBlocks) !! 13
       = Some "<span>This field is required</span>").
Proof. vm_compute. repeat split. Qed.
